(** * Chat timeline synchronisation and realtime transport: a shallow embedding

    This development embeds the message reconciliation engine of
    [src/hooks/use-chat.ts] (the [useChat] hook with its loaders, sends and
    read marker, and the global socket store), the realtime transport of the
    socket client ([SocketStore], [SocketSubscription], [TypingSubscription],
    [debounce]), the send handler of the input box and the notification
    manager, and proves properties of them.

    Conventions of the embedding:
    - a ref of the hook ([useRef]) is a field of the record [ChatState]; a
      callback that mutates refs is a function from [ChatState] to
      [ChatState];
    - [messagesByIdRef] is a JS [Map] that is never iterated, so it is a
      [gmap]; [sentMessagesRef] is a JS [Map] whose iteration order is
      observed, so it is an insertion-ordered association list;
    - JS truthiness is written out: the empty string, [0], [null] and
      [undefined] are falsy;
    - an [async] callback is cut at its first [await]: the synchronous prefix
      returns the new state together with the network requests it issued;
    - [JSON.stringify(a) !== JSON.stringify(b)] on two messages is inequality
      of the message records. *)

From Stdlib Require Import ZArith Ascii String List.
From stdpp Require Import base gmap strings list sorting.

Local Open Scope string_scope.
Local Open Scope Z_scope.
Local Open Scope list_scope.

#[local] Set Warnings "-clear-no-such-hyp".

(** ** JavaScript values *)

Module Js.

(** [if (s)] for a string: only the empty string is falsy. *)
Definition truthy (s : string) : bool :=
  match s with
  | EmptyString => false
  | String _ _ => true
  end.

(** [if (x)] for [x : string | null | undefined]. *)
Definition truthyS (o : option string) : bool :=
  match o with
  | Some s => truthy s
  | None => false
  end.

(** [if (n)] for [n : number | undefined]. *)
Definition truthyN (o : option Z) : bool :=
  match o with
  | Some n => negb (Z.eqb n 0)
  | None => false
  end.

(** [x || null] for [x : string | undefined]. *)
Definition orNull (o : option string) : option string :=
  if truthyS o then o else None.

(** [Array.prototype.findIndex]: the first index whose element satisfies
    the predicate, [-1] when there is none. *)
Fixpoint findIndexFrom {A} (p : A → bool) (i : Z) (l : list A) : Z :=
  match l with
  | [] => -1
  | x :: l' => if p x then i else findIndexFrom p (i + 1) l'
  end.

Definition findIndex {A} (p : A → bool) (l : list A) : Z :=
  findIndexFrom p 0 l.

(** The white space of [String.prototype.trim] among the code units below
    256: TAB, LF, VT, FF, CR, SP and NBSP. *)
Definition isWhiteSpace (c : ascii) : bool :=
  let n := nat_of_ascii c in
  (Nat.leb 9 n && Nat.leb n 13) || Nat.eqb n 32 || Nat.eqb n 160.

Fixpoint trimStart (s : string) : string :=
  match s with
  | EmptyString => EmptyString
  | String c r => if isWhiteSpace c then trimStart r else s
  end.

Fixpoint trimEnd (s : string) : string :=
  match s with
  | EmptyString => EmptyString
  | String c r =>
      match trimEnd r with
      | EmptyString => if isWhiteSpace c then EmptyString else String c EmptyString
      | r' => String c r'
      end
  end.

Definition trim (s : string) : string := trimEnd (trimStart s).

(** A JS [Map] read in iteration order: keys are unique, [set] on a held
    key keeps its position, [set] on a new key appends. *)
Section OrderedMap.
Context {V : Type}.

Fixpoint map_set (k : string) (v : V) (m : list (string * V)) : list (string * V) :=
    match m with
    | [] => [(k, v)]
    | (k', v') :: m' =>
        if decide (k' = k) then (k, v) :: m' else (k', v') :: map_set k v m'
    end.

Definition map_delete (k : string) (m : list (string * V)) : list (string * V) :=
    filter (λ kv, kv.1 ≠ k) m.

Definition map_values (m : list (string * V)) : list V := m.*2.
End OrderedMap.

End Js.

(** ** Data model ([types/chat.ts]) *)

Record ChatAuthor := mkAuthor {
  author_id : string;
  author_name : string;
  author_avatar_image : option string;
  author_avatar_url : option string;
}.

Record ChatReplyTo := mkReplyTo {
  reply_id : string;
  reply_text : option string;
}.

Record ChatFile := mkFile {
  file_hash : option string;
  file_url : option string;
  file_name : option string;
  file_type : option string;
}.

(** [reactions], [sticker] and [data] are [unknown | null] in the source;
    they are kept as opaque serialised values. *)
Record ChatMessage := mkMessage {
  id : string;
  type : string;
  text : string;
  textTokens : list string;
  createdAt : Z;
  createdAtTimestamp : Z;
  updatedAt : Z;
  updatedAtTimestamp : Z;
  author : ChatAuthor;
  isOutgoing : bool;
  canEdit : bool;
  bgColor : option string;
  files : list ChatFile;
  replyTo : option ChatReplyTo;
  reactions : option string;
  sticker : option string;
  data : option string;
}.

#[global] Instance ChatAuthor_eq_dec : EqDecision ChatAuthor.
Proof. solve_decision. Defined.
#[global] Instance ChatReplyTo_eq_dec : EqDecision ChatReplyTo.
Proof. solve_decision. Defined.
#[global] Instance ChatFile_eq_dec : EqDecision ChatFile.
Proof. solve_decision. Defined.
#[global] Instance ChatMessage_eq_dec : EqDecision ChatMessage.
Proof. solve_decision. Defined.

(** [MessagesGetResponse['data']] *)
Record MessagesData := mkData {
  data_messages : list ChatMessage;
  data_lastChangeId : option string;
}.

Inductive Operation := Create | Update | Delete.

#[global] Instance Operation_eq_dec : EqDecision Operation.
Proof. solve_decision. Defined.

(** [ChatChange] *)
Record ChatChange := mkChange {
  change_id : string;
  operation : Operation;
  change_message : option ChatMessage;
  change_messageId : option string;
}.

(** The fields of [ChatConfig.chat] that the engine reads. *)
Record ChatConfig := mkConfig {
  messages_add_url : string;
  mark_as_read_url : string;
  current_author : ChatAuthor;
}.

(** ** The state of the hook *)

Record ChatState := mkState {
  messagesRef : list ChatMessage;
  messagesByIdRef : gmap string ChatMessage;
  sentMessagesRef : list (string * ChatMessage);
  firstMessagesPageLoadedRef : bool;
  lastMessageIdRef : option string;
  lastChangeIdRef : option string;
  lastMarkAsReadIdRef : option string;
  error : option string;
  messagesVersion : nat;
}.

Definition initialState : ChatState :=
  {| messagesRef := [];
     messagesByIdRef := ∅;
     sentMessagesRef := [];
     firstMessagesPageLoadedRef := false;
     lastMessageIdRef := None;
     lastChangeIdRef := None;
     lastMarkAsReadIdRef := None;
     error := None;
     messagesVersion := 0 |}.

Definition ids (l : list ChatMessage) : list string := id <$> l.

(** Field updates of [ChatState] (assignments to [ref.current]). *)
Definition with_messages (l : list ChatMessage) (st : ChatState) : ChatState :=
  mkState l (messagesByIdRef st) (sentMessagesRef st) (firstMessagesPageLoadedRef st)
    (lastMessageIdRef st) (lastChangeIdRef st) (lastMarkAsReadIdRef st) (error st)
    (messagesVersion st).

Definition with_messagesById (m : gmap string ChatMessage) (st : ChatState) : ChatState :=
  mkState (messagesRef st) m (sentMessagesRef st) (firstMessagesPageLoadedRef st)
    (lastMessageIdRef st) (lastChangeIdRef st) (lastMarkAsReadIdRef st) (error st)
    (messagesVersion st).

Definition with_sentMessages (s : list (string * ChatMessage)) (st : ChatState) : ChatState :=
  mkState (messagesRef st) (messagesByIdRef st) s (firstMessagesPageLoadedRef st)
    (lastMessageIdRef st) (lastChangeIdRef st) (lastMarkAsReadIdRef st) (error st)
    (messagesVersion st).

Definition with_firstMessagesPageLoaded (b : bool) (st : ChatState) : ChatState :=
  mkState (messagesRef st) (messagesByIdRef st) (sentMessagesRef st) b
    (lastMessageIdRef st) (lastChangeIdRef st) (lastMarkAsReadIdRef st) (error st)
    (messagesVersion st).

Definition with_lastMessageId (o : option string) (st : ChatState) : ChatState :=
  mkState (messagesRef st) (messagesByIdRef st) (sentMessagesRef st)
    (firstMessagesPageLoadedRef st) o (lastChangeIdRef st) (lastMarkAsReadIdRef st)
    (error st) (messagesVersion st).

Definition with_lastChangeId (o : option string) (st : ChatState) : ChatState :=
  mkState (messagesRef st) (messagesByIdRef st) (sentMessagesRef st)
    (firstMessagesPageLoadedRef st) (lastMessageIdRef st) o (lastMarkAsReadIdRef st)
    (error st) (messagesVersion st).

Definition with_lastMarkAsReadId (o : option string) (st : ChatState) : ChatState :=
  mkState (messagesRef st) (messagesByIdRef st) (sentMessagesRef st)
    (firstMessagesPageLoadedRef st) (lastMessageIdRef st) (lastChangeIdRef st) o
    (error st) (messagesVersion st).

Definition with_error (o : option string) (st : ChatState) : ChatState :=
  mkState (messagesRef st) (messagesByIdRef st) (sentMessagesRef st)
    (firstMessagesPageLoadedRef st) (lastMessageIdRef st) (lastChangeIdRef st)
    (lastMarkAsReadIdRef st) o (messagesVersion st).

(** [updateMessagesState]: bump the version that re-renders the list. *)
Definition updateMessagesState (st : ChatState) : ChatState :=
  mkState (messagesRef st) (messagesByIdRef st) (sentMessagesRef st)
    (firstMessagesPageLoadedRef st) (lastMessageIdRef st) (lastChangeIdRef st)
    (lastMarkAsReadIdRef st) (error st) (S (messagesVersion st)).

(** ** [processNewMessages]: merging a fetched page *)

Inductive AddType := Append | Prepend | Replace.

#[global] Instance AddType_eq_dec : EqDecision AddType.
Proof. solve_decision. Defined.

(** [messagesByIdRef.current.has(k)] *)
Definition has (m : gmap string ChatMessage) (k : string) : bool :=
  bool_decide (is_Some (m !! k)).

(** [pageWith ? newMessages.findIndex(m => m.id === pageWith) : null] *)
Definition indexOfPageWith (newMessages : list ChatMessage) (pageWith : option string)
  : option Z :=
  match pageWith with
  | Some p =>
      if Js.truthy p
      then Some (Js.findIndex (λ m, bool_decide (id m = p)) newMessages)
      else None
  | None => None
  end.

(** The classification of lines 180-197. It is evaluated on a page that has
    at least one message; [arr[i]?.id === pageWith] compares the optional id
    of the slot with the pivot. *)
Definition addTypeOf (st : ChatState) (newMessages : list ChatMessage)
    (pageWith : option string) (sliceBefore sliceAfter : option Z) : AddType :=
  if bool_decide (length (messagesRef st) = 0%nat) then Append
  else if negb (Js.truthyS pageWith) then
    if from_option (λ m, has (messagesByIdRef st) (id m)) false (last newMessages)
    then Prepend else Replace
  else if bool_decide (id <$> head (messagesRef st) = pageWith) && Js.truthyN sliceAfter
  then Prepend
  else if bool_decide (id <$> last (messagesRef st) = pageWith) && Js.truthyN sliceBefore
  then Append
  else Replace.

(** The new value of [firstMessagesPageLoadedRef] (lines 200-206). *)
Definition firstPageLoadedOf (st : ChatState) (newMessages : list ChatMessage)
    (pageWith : option string) (sliceBefore sliceAfter : option Z) : bool :=
  if firstMessagesPageLoadedRef st && Js.truthyS pageWith && Js.truthyN sliceBefore
     && negb (Js.truthyN sliceAfter)
  then bool_decide (0 < length (messagesRef st))%nat
       && bool_decide (id <$> last (messagesRef st) = pageWith)
  else negb (Js.truthyS pageWith)
       || (Js.truthyN sliceAfter
           && bool_decide (default 0 (indexOfPageWith newMessages pageWith) + 1
                           < default 0 sliceAfter)).

(** One turn of the loop of lines 217-234. The accumulator is the state and
    the local set [updateMessages]. *)
Definition mergeStep (addType : AddType) (acc : ChatState * gset string)
    (message : ChatMessage) : ChatState * gset string :=
  let '(st, updateMessages) := acc in
  if Js.truthy (id message) then
    match messagesByIdRef st !! id message with
    | Some existsMessage =>
        if decide (existsMessage ≠ message)
        then (with_messagesById (<[id message := message]> (messagesByIdRef st)) st,
              {[id message]} ∪ updateMessages)
        else acc
    | None =>
        let st1 := with_messagesById (<[id message := message]> (messagesByIdRef st)) st in
        let st2 := with_sentMessages (Js.map_delete (id message) (sentMessagesRef st1)) st1 in
        (with_messages
           (if decide (addType = Append)
            then messagesRef st2 ++ [message]
            else message :: messagesRef st2) st2,
         updateMessages)
    end
  else acc.

Arguments mergeStep : simpl never.

(** The order in which the loop visits the page:
    [newMessages[addType === 'append' ? i : newMessages.length - i - 1]]. *)
Definition visitOrder (addType : AddType) (newMessages : list ChatMessage)
  : list ChatMessage :=
  if decide (addType = Append) then newMessages else reverse newMessages.

(** Lines 237-244: the slots whose id was updated take the indexed payload.
    An id of [updateMessages] is always indexed (lemma [mergeLoop_updated_indexed]),
    so the non-null assertion of the source holds and the [default] is never
    used. *)
Definition refreshSlots (st : ChatState) (updateMessages : gset string) : ChatState :=
  if bool_decide (0 < size updateMessages)%nat
  then with_messages
         ((λ m, if decide (id m ∈ updateMessages)
                then default m (messagesByIdRef st !! id m) else m)
            <$> messagesRef st) st
  else st.

Definition processNewMessages (st : ChatState) (newMessagesData : option MessagesData)
    (pageWith : option string) (sliceBefore sliceAfter : option Z) : bool * ChatState :=
  match newMessagesData with
  | None => (false, st)
  | Some d =>
      let newMessages := data_messages d in
      let lastChangeId := Js.orNull (data_lastChangeId d) in
      if bool_decide (length newMessages = 0%nat) then (false, st)
      else if bool_decide (indexOfPageWith newMessages pageWith = Some (-1)) then (false, st)
      else
        let addType := addTypeOf st newMessages pageWith sliceBefore sliceAfter in
        let st1 :=
          with_firstMessagesPageLoaded
            (firstPageLoadedOf st newMessages pageWith sliceBefore sliceAfter) st in
        let '(st2, addType) :=
          if decide (addType = Replace)
          then (with_messages [] (with_messagesById ∅ st1), Append)
          else (st1, addType) in
        let '(st3, updateMessages) :=
          foldl (mergeStep addType) (st2, ∅) (visitOrder addType newMessages) in
        let st4 := refreshSlots st3 updateMessages in
        let st5 :=
          if firstMessagesPageLoadedRef st4 && bool_decide (0 < length (messagesRef st4))%nat
          then with_lastMessageId (id <$> head (messagesRef st4)) st4
          else st4 in
        let st6 :=
          if Js.truthyS lastChangeId then with_lastChangeId lastChangeId st5 else st5 in
        (true, st6)
  end.

(** ** [loadChanges]: applying change records (lines 339-373) *)

(** The body of the loop over [data.changes]. The accumulator carries the
    local variable [lastChangeId]. *)
Definition applyChange (acc : ChatState * option string) (change : ChatChange)
  : ChatState * option string :=
  let '(st, _) := acc in
  let lastChangeId := Some (change_id change) in
  match operation change, change_message change with
  | Create, Some message =>
      let st1 := with_lastMessageId (Some (id message)) st in
      let st2 := with_messagesById (<[id message := message]> (messagesByIdRef st1)) st1 in
      let st3 :=
        if firstMessagesPageLoadedRef st2
        then with_messages (message :: messagesRef st2) st2
        else st2 in
      (with_sentMessages (Js.map_delete (id message) (sentMessagesRef st3)) st3, lastChangeId)
  | Update, Some message =>
      let st1 := with_messagesById (<[id message := message]> (messagesByIdRef st)) st in
      let idx := Js.findIndex (λ m, bool_decide (id m = id message)) (messagesRef st1) in
      (if bool_decide (idx ≠ -1)
       then with_messages (<[Z.to_nat idx := message]> (messagesRef st1)) st1
       else st1, lastChangeId)
  | Delete, _ =>
      match change_messageId change with
      | Some messageId =>
          if Js.truthy messageId
          then
            let st1 := with_messagesById (delete messageId (messagesByIdRef st)) st in
            (with_messages (filter (λ m, id m ≠ messageId) (messagesRef st1)) st1,
             lastChangeId)
          else (st, lastChangeId)
      | None => (st, lastChangeId)
      end
  | _, None => (st, lastChangeId)
  end.

(** The successful branch of [loadChanges] on the records [changes]. *)
Definition applyChanges (st : ChatState) (changes : list ChatChange) : ChatState :=
  if bool_decide (0 < length changes)%nat then
    let '(st1, lastChangeId) := foldl applyChange (st, None) changes in
    let st2 :=
      if Js.truthyS lastChangeId then with_lastChangeId lastChangeId st1 else st1 in
    updateMessagesState st2
  else st.

(** The store of the specification: the canonical sequence, the id index,
    the pending sends and the cursor. *)
Definition storeOf (st : ChatState)
  : list ChatMessage * gmap string ChatMessage * list (string * ChatMessage) * option string :=
  (messagesRef st, messagesByIdRef st, sentMessagesRef st, lastChangeIdRef st).

(** ** The derived list [messages] (lines 97-123) *)

(** [if (!existsMessageIds.has(msg.id)) { existsMessageIds.add(msg.id); result.push(msg); }] *)
Definition pushUnseen (acc : gset string * list ChatMessage) (m : ChatMessage)
  : gset string * list ChatMessage :=
  let '(existsMessageIds, result) := acc in
  if decide (id m ∈ existsMessageIds) then acc
  else ({[id m]} ∪ existsMessageIds, result ++ [m]).

Definition messages (st : ChatState) : list ChatMessage :=
  let sentMessagesArray := Js.map_values (sentMessagesRef st) in
  let acc := foldl pushUnseen (∅, []) (reverse sentMessagesArray) in
  (foldl pushUnseen acc (messagesRef st)).2.

(** ** [sendMessage] and [markAsRead] up to their first [await] *)

Inductive Request :=
  | PostAddMessage (url messageId body_text : string)
  | PostMarkAsRead (url messageId : string).

(** The readings of the environment made by [sendMessage]: [generateId()]
    and the four calls of [Date.now()]. *)
Record SendEnv := mkEnv {
  generatedId : string;
  now_createdAt : Z;
  now_createdAtTimestamp : Z;
  now_updatedAt : Z;
  now_updatedAtTimestamp : Z;
}.

Definition tempMessage (cfg : ChatConfig) (env : SendEnv) (text_ : string) : ChatMessage :=
  {| id := generatedId env;
     type := "message";
     text := Js.trim text_;
     textTokens := [Js.trim text_];
     createdAt := now_createdAt env;
     createdAtTimestamp := now_createdAtTimestamp env / 1000;
     updatedAt := now_updatedAt env;
     updatedAtTimestamp := now_updatedAtTimestamp env / 1000;
     author := current_author cfg;
     isOutgoing := true;
     canEdit := true;
     bgColor := None;
     files := [];
     replyTo := None;
     reactions := None;
     sticker := None;
     data := None |}.

Definition sendMessage (chatConfig : option ChatConfig) (env : SendEnv) (text_ : string)
    (st : ChatState) : ChatState * list Request :=
  match chatConfig with
  | None => (st, [])
  | Some cfg =>
      if negb (Js.truthy (Js.trim text_)) then (st, [])
      else
        let messageId := generatedId env in
        let st1 :=
          with_sentMessages
            (Js.map_set messageId (tempMessage cfg env text_) (sentMessagesRef st)) st in
        (updateMessagesState st1,
         [PostAddMessage (messages_add_url cfg) messageId (Js.trim text_)])
  end.

(** The continuation of [sendMessage] when the server answers with
    [data.added], and the [catch] branch. *)
Definition sendMessage_added (added : ChatMessage) (st : ChatState) : ChatState :=
  let st1 := with_sentMessages (Js.map_set (id added) added (sentMessagesRef st)) st in
  let st2 := with_lastMarkAsReadId (Some (id added)) st1 in
  updateMessagesState (with_lastMessageId (Some (id added)) st2).

Definition sendMessage_failed (messageId err : string) (st : ChatState) : ChatState :=
  let st1 := with_sentMessages (Js.map_delete messageId (sentMessagesRef st)) st in
  with_error (Some err) (updateMessagesState st1).

(** [if (n)] for a number. *)
Definition truthyZ (n : Z) : bool := negb (Z.eqb n 0).

(** [lastMarkAsReadIdRef.current ? messagesByIdRef.current.get(...) : null] *)
Definition lastMarkAsReadOf (st : ChatState) : option ChatMessage :=
  match lastMarkAsReadIdRef st with
  | Some i => if Js.truthy i then messagesByIdRef st !! i else None
  | None => None
  end.

Definition markAsRead (chatConfig : option ChatConfig) (message : ChatMessage)
    (st : ChatState) : ChatState * list Request :=
  match chatConfig with
  | None => (st, [])
  | Some cfg =>
      if negb (Js.truthy (mark_as_read_url cfg)) then (st, [])
      else
        let lastMarkAsRead := lastMarkAsReadOf st in
        if bool_decide (id <$> lastMarkAsRead = Some (id message)) then (st, [])
        else if truthyZ (createdAt message)
                && from_option (λ l, truthyZ (createdAt l)
                                     && bool_decide (createdAt message < createdAt l))
                     false lastMarkAsRead
        then (st, [])
        else (with_lastMarkAsReadId (Some (id message)) st,
              [PostMarkAsRead (mark_as_read_url cfg) (id message)])
  end.

(** ** The socket client *)

Module SocketClient.

(** *** [debounce]

    Time is a logical clock in milliseconds. The function returned by
    [debounce(callback, ms)] owns the variable [scheduled]; while a timer is
    armed the closure handed to [setTimeout] holds the deadline and the
    [arguments] object of the call that armed it. A call of [callback] is
    logged with its instant and its arguments. *)
Section Debounce.
Context {Args : Type}.

Record Debounced := mkDebounced {
  scheduled : bool;
  timer : option (Z * Args);
}.

Definition idle : Debounced := mkDebounced false None.

(** A call of the returned function at the instant [now]. With [ms = 0] the
    returned function is [callback] itself. *)
Definition call (ms now : Z) (args : Args) (d : Debounced)
  : Debounced * list (Z * Args) :=
  if bool_decide (ms = 0) then (d, [(now, args)])
  else if scheduled d then (d, [])
  else (mkDebounced true (Some (now + ms, args)), []).

(** The timer callback: [scheduled = false; callback.apply(this, arguments)]. *)
Definition fire (d : Debounced) : Debounced * list (Z * Args) :=
  match timer d with
  | Some (deadline, args) => (mkDebounced false None, [(deadline, args)])
  | None => (d, [])
  end.

(** The event loop reaches the instant [now]: a timer that is due runs. *)
Definition advance (now : Z) (d : Debounced) : Debounced * list (Z * Args) :=
  match timer d with
  | Some (deadline, _) => if bool_decide (deadline ≤ now) then fire d else (d, [])
  | None => (d, [])
  end.

(** The calls [calls] (instant, arguments) are made in order; the timer that
    is due at the instant of a call runs before it. *)
Fixpoint runCalls (ms : Z) (calls : list (Z * Args)) (d : Debounced)
  : Debounced * list (Z * Args) :=
  match calls with
  | [] => (d, [])
  | (now, args) :: rest =>
      let '(d1, out1) := advance now d in
      let '(d2, out2) := call ms now args d1 in
      let '(d3, out3) := runCalls ms rest d2 in
      (d3, out1 ++ out2 ++ out3)
  end.

(** The calls of [callback] caused by [calls], the last timer included. *)
Definition callbackLog (ms : Z) (calls : list (Z * Args)) : list (Z * Args) :=
  let '(d, out) := runCalls ms calls idle in
  out ++ (fire d).2.

(** Two runs of the callback that are at least [ms] apart. *)
Definition spacedBy (ms : Z) : relation (Z * Args) := λ x y, x.1 + ms ≤ y.1.

End Debounce.

(** *** [SocketStore]: rooms *)

(** What the socket.io connection was asked to emit. *)
Inductive Emit :=
  | EmitRooms (event : string) (roomNames : list string)
  | EmitSocketId (event : string) (socketId : string).

#[global] Instance Emit_eq_dec : EqDecision Emit.
Proof. solve_decision. Defined.

(** [rooms] is the object [this.rooms]; [_io] is [None] for [null] and
    otherwise holds what was emitted on the connection, oldest first. *)
Record SocketStore := mkStore {
  rooms : gmap string Z;
  _io : option (list Emit);
  pendingEmits : list Emit;
}.

Inductive Completion := Normal | Throws.

(** [this._io.emit(e)] *)
Definition ioEmit (e : Emit) (s : SocketStore) : SocketStore :=
  mkStore (rooms s) ((λ sent, sent ++ [e]) <$> _io s) (pendingEmits s).

Definition with_rooms (r : gmap string Z) (s : SocketStore) : SocketStore :=
  mkStore r (_io s) (pendingEmits s).

(** [if (this.rooms[roomName])] *)
Definition roomHeld (s : SocketStore) (roomName : string) : bool :=
  match rooms s !! roomName with
  | Some n => negb (Z.eqb n 0)
  | None => false
  end.

(** [join(roomName)]; [this._io.emit] on a [null] connection throws after the
    count was stored. *)
Definition join (roomName : string) (s : SocketStore) : SocketStore * Completion :=
  if roomHeld s roomName
  then (with_rooms (<[roomName := default 0 (rooms s !! roomName) + 1]> (rooms s)) s, Normal)
  else
    let s1 := with_rooms (<[roomName := 1]> (rooms s)) s in
    match _io s1 with
    | Some _ => (ioEmit (EmitRooms "join" [roomName]) s1, Normal)
    | None => (s1, Throws)
    end.

Definition leave (roomName : string) (s : SocketStore) : SocketStore :=
  if roomHeld s roomName && bool_decide (0 < default 0 (rooms s !! roomName))
  then
    let s1 := with_rooms (<[roomName := default 0 (rooms s !! roomName) - 1]> (rooms s)) s in
    let s2 :=
      if bool_decide (rooms s1 !! roomName = Some 0) && bool_decide (is_Some (_io s1))
      then ioEmit (EmitRooms "leave" [roomName]) s1
      else s1 in
    with_rooms (delete roomName (rooms s2)) s2
  else s.

Inductive RoomCall := Join (roomName : string) | Leave (roomName : string).

Definition roomCall (s : SocketStore) (c : RoomCall) : SocketStore :=
  match c with
  | Join r => (join r s).1
  | Leave r => leave r s
  end.

(** A store with a live connection on which nothing was emitted yet. *)
Definition connected : SocketStore := mkStore ∅ (Some []) [].

(** The emits of [calls] made one after the other on [connected]. *)
Definition emitted (calls : list RoomCall) : list Emit :=
  default [] (_io (foldl roomCall connected calls)).

(** *** [SocketSubscription]

    A listener is named by a number; a call of a listener is logged with the
    arguments it received. The opaque value of the server is a string,
    [None] for [null] and [undefined]. *)
Record SocketSubscription := mkSub {
  socketId : string;
  listeners : list nat;
  lastUpdatedValue : option string;
}.

(** [_emitChanged()]: [this.listeners.forEach(listener => listener())] *)
Definition _emitChanged (s : SocketSubscription) : list (nat * list string) :=
  (λ l, (l, [])) <$> listeners s.

Definition with_lastUpdatedValue (v : option string) (s : SocketSubscription)
  : SocketSubscription :=
  mkSub (socketId s) (listeners s) v.

(** The acknowledgment callback of ['socket/subscribe'] (lines 339-348). *)
Definition onSubscribed (data_ : option string) (s : SocketSubscription)
  : SocketSubscription * list (nat * list string) :=
  let calls :=
    if Js.truthyS (lastUpdatedValue s) && Js.truthyS data_
       && bool_decide (lastUpdatedValue s ≠ data_)
    then _emitChanged s else [] in
  (with_lastUpdatedValue data_ s, calls).

(** The listener of ['socket/<socketId>/updated'] (lines 356-359). *)
Definition onUpdated (data_ : option string) (s : SocketSubscription)
  : SocketSubscription * list (nat * list string) :=
  let s1 := with_lastUpdatedValue data_ s in
  (s1, _emitChanged s1).

End SocketClient.

(** ** Sequences of page merges *)

(** One call of [processNewMessages]. *)
Record MergeCall := mkCall {
  call_data : option MessagesData;
  call_pageWith : option string;
  call_sliceBefore : option Z;
  call_sliceAfter : option Z;
}.

Definition pageOf (c : MergeCall) : list ChatMessage :=
  from_option data_messages [] (call_data c).

Definition mergePage (st : ChatState) (c : MergeCall) : ChatState :=
  (processNewMessages st (call_data c) (call_pageWith c) (call_sliceBefore c)
     (call_sliceAfter c)).2.

Definition mergePages (st : ChatState) (calls : list MergeCall) : ChatState :=
  foldl mergePage st calls.

Definition allPages (calls : list MergeCall) : list ChatMessage :=
  calls ≫= pageOf.

(** A list of messages is in chronological order for the direction [R]
    when the creation time of every message is related by [R] to that of
    every message behind it. *)
Definition chronological (R : relation Z) (l : list ChatMessage) : Prop :=
  StronglySorted R (createdAt <$> l).

(** The application holds the sequence newest first: a create change is put
    at index 0 and [lastMessageIdRef] is read from index 0, while
    [loadMoreMessages] asks for the messages before the last slot. *)
Definition newestFirst : relation Z := flip Z.le.

#[global] Instance newestFirst_dec : RelDecision newestFirst.
Proof. intros a b. unfold newestFirst, flip. apply _. Defined.

#[global] Instance newestFirst_trans : Transitive newestFirst.
Proof. intros a b c. unfold newestFirst, flip. lia. Qed.

(** The creation time of a message is the same wherever the message is
    served. *)
Definition stableTimes (U : list ChatMessage) : Prop :=
  ∀ a b, a ∈ U → b ∈ U → id a = id b → createdAt a = createdAt b.

(** What the loop needs of the mode that the classification chose: the new
    messages of a page that is appended may stand behind the last slot, the
    new messages of a page that is prepended may stand before the first
    slot. It is not assumed of a call: lemma [oneSided_anchored] derives it
    from [oneSided] and the branches of [addTypeOf]. *)
Definition anchored (R : relation Z) (st : ChatState) (c : MergeCall) : Prop :=
  match addTypeOf st (pageOf c) (call_pageWith c) (call_sliceBefore c) (call_sliceAfter c) with
  | Append =>
      ∀ m tl, m ∈ pageOf c → Js.truthy (id m) = true →
              messagesByIdRef st !! id m = None →
              last (messagesRef st) = Some tl → R (createdAt tl) (createdAt m)
  | Prepend =>
      ∀ m hd, m ∈ pageOf c → Js.truthy (id m) = true →
              messagesByIdRef st !! id m = None →
              head (messagesRef st) = Some hd → R (createdAt m) (createdAt hd)
  | Replace => True
  end.

(** The pivot of a call: [None] when [pageWith] is absent or empty. *)
Definition pivotOf (c : MergeCall) : option string :=
  if Js.truthyS (call_pageWith c) then call_pageWith c else None.

(** A message of a page that a merge does not insert as a new slot: its id
    is empty or the index holds it. *)
Definition known (st : ChatState) (m : ChatMessage) : Prop :=
  Js.truthy (id m) = true → is_Some (messagesByIdRef st !! id m).

(** The page meets the first slot of the sequence: it holds a message with
    the id of the first slot and nothing unknown behind that message. *)
Definition meetsHead (st : ChatState) (page : list ChatMessage) : Prop :=
  ∃ hd l1 x l2,
    head (messagesRef st) = Some hd ∧ page = l1 ++ x :: l2 ∧ id x = id hd ∧
    ∀ m, m ∈ l2 → known st m.

(** The page meets the last slot of the sequence: it holds a message with
    the id of the last slot and nothing unknown before that message. *)
Definition meetsTail (st : ChatState) (page : list ChatMessage) : Prop :=
  ∃ tl l1 x l2,
    last (messagesRef st) = Some tl ∧ page = l1 ++ x :: l2 ∧ id x = id tl ∧
    ∀ m, m ∈ l1 → known st m.

(** The plain reading of a consistent pivot: the sequence is empty, or no
    pivot is given, or the pivot is in the page and is the id of the first
    slot with messages after it asked for, or the id of the last slot with
    messages before it asked for. *)
Definition pivotConsistent (st : ChatState) (c : MergeCall) : Prop :=
  messagesRef st = [] ∨
  match pivotOf c with
  | None => True
  | Some p =>
      (∃ x, x ∈ pageOf c ∧ id x = p) ∧
      ((id <$> head (messagesRef st) = Some p ∧ Js.truthyN (call_sliceAfter c) = true) ∨
       (id <$> last (messagesRef st) = Some p ∧ Js.truthyN (call_sliceBefore c) = true))
  end.

(** The page continues the sequence on one side only. It is stated on the
    arguments of the call and on the store, not on the mode computed by
    [addTypeOf]: a page whose pivot is the id of the first slot, asked with
    a [sliceAfter] count, and a page without pivot whose last message is
    indexed, meet the first slot; a page whose pivot is the id of the last
    slot, asked with a [sliceBefore] count (and not caught by the case
    before), meets the last slot. Nothing is asked of a call on an empty
    sequence, of a page that does not hold its pivot, or of any other
    pivot. *)
Definition oneSided (st : ChatState) (c : MergeCall) : Prop :=
  messagesRef st = [] ∨
  match pivotOf c with
  | None =>
      (∃ l, last (pageOf c) = Some l ∧ is_Some (messagesByIdRef st !! id l)) →
      meetsHead st (pageOf c)
  | Some p =>
      (∃ x, x ∈ pageOf c ∧ id x = p) →
      (id <$> head (messagesRef st) = Some p → Js.truthyN (call_sliceAfter c) = true →
       meetsHead st (pageOf c)) ∧
      (¬ (id <$> head (messagesRef st) = Some p ∧ Js.truthyN (call_sliceAfter c) = true) →
       id <$> last (messagesRef st) = Some p → Js.truthyN (call_sliceBefore c) = true →
       meetsTail st (pageOf c))
  end.

Definition consistentCall (R : relation Z) (st : ChatState) (c : MergeCall) : Prop :=
  chronological R (pageOf c) ∧ oneSided st c.

Fixpoint consistentRun (R : relation Z) (st : ChatState) (calls : list MergeCall) : Prop :=
  match calls with
  | [] => True
  | c :: calls' => consistentCall R st c ∧ consistentRun R (mergePage st c) calls'
  end.

(** All the characters of a string are white space. *)
Fixpoint blank (s : string) : bool :=
  match s with
  | EmptyString => true
  | String c r => Js.isWhiteSpace c && blank r
  end.

(** ** Data of the examples *)

(** A message for the examples: the fields that the engine does not read
    are fixed. *)
Definition demoAuthor : ChatAuthor := mkAuthor "u1" "Ann" None None.

Definition msg (i t : string) (at_ : Z) : ChatMessage :=
  mkMessage i "message" t [t] at_ (at_ / 1000) at_ (at_ / 1000) demoAuthor false false
    None [] None None None None.

Definition m1 : ChatMessage := msg "m1" "one" 1000.
Definition m2 : ChatMessage := msg "m2" "two" 2000.
Definition m3 : ChatMessage := msg "m3" "three" 3000.
Definition m4 : ChatMessage := msg "m4" "four" 4000.

Definition demoConfig : ChatConfig :=
  mkConfig "https://chat.example/add" "https://chat.example/read" demoAuthor.

Definition demoEnv : SendEnv := mkEnv "1700000000000-abc" 1700000000000 1700000000000
  1700000000000 1700000000000.

(** A store that holds [m3; m2], loaded without a pivot. *)
Definition loaded32 : ChatState :=
  mergePage initialState (mkCall (Some (mkData [m3; m2] (Some "5"))) None None None).

(** Three merges: a first page, an older page behind the last slot, a newer
    page in front of the first slot. *)
Definition demoCalls : list MergeCall :=
  [ mkCall (Some (mkData [m3; m2] (Some "5"))) None None None;
    mkCall (Some (mkData [m2; m1] (Some "5"))) (Some "m2") (Some 50) None;
    mkCall (Some (mkData [m4; m3] (Some "6"))) (Some "m3") None (Some 2) ].

(** A message stamped with the instant 0 and a just sent message. *)
Definition m0 : ChatMessage := msg "m0" "zero" 0.
Definition s1 : ChatMessage := msg "s1" "hi" 5000.

(** [loaded32] with [m2] marked as read, and with the marker on [s1], which
    the index does not hold. *)
Definition marked2 : ChatState := with_lastMarkAsReadId (Some "m2") loaded32.
Definition markedSent : ChatState := with_lastMarkAsReadId (Some "s1") loaded32.

(** A subscription with two listeners that has cached the value [v1], and
    one that has cached nothing yet. *)
Definition subCached : SocketClient.SocketSubscription :=
  SocketClient.mkSub "messages-1" [1%nat; 2%nat] (Some "v1").
Definition subFresh : SocketClient.SocketSubscription :=
  SocketClient.mkSub "messages-1" [1%nat; 2%nat] None.

(** The server reports the creation of [m4]. *)
Definition createM4 : ChatChange := mkChange "7" Create (Some m4) None.

(** A store with two pending sends, [s1] queued before [m4], while [m4] is
    also in the canonical sequence. *)
Definition overlayState : ChatState :=
  with_sentMessages [("s1", s1); ("m4", m4)]
    (with_messages [m4; m3; m2] loaded32).

(** ** Invariants of the store *)

(** The sequence has one slot per id, every slot holds the payload that the
    index has for its id, and the index is keyed by the id of its
    payloads. *)
Definition wellFormed (st : ChatState) : Prop :=
  NoDup (ids (messagesRef st)) ∧
  (∀ m, m ∈ messagesRef st → messagesByIdRef st !! id m = Some m) ∧
  (∀ i m, messagesByIdRef st !! i = Some m → id m = i).

(** The invariant of the merge loop: a slot may lag behind the index only
    for an id recorded in [updateMessages]. *)
Definition loopInv (st : ChatState) (updateMessages : gset string) : Prop :=
  NoDup (ids (messagesRef st)) ∧
  (∀ m, m ∈ messagesRef st → is_Some (messagesByIdRef st !! id m)) ∧
  (∀ m, m ∈ messagesRef st → id m ∉ updateMessages →
        messagesByIdRef st !! id m = Some m) ∧
  (∀ i m, messagesByIdRef st !! i = Some m → id m = i) ∧
  (∀ i, i ∈ updateMessages → is_Some (messagesByIdRef st !! i)).

(** Every message of the sequence and of the index satisfies [Q]. *)
Definition allMessages (Q : ChatMessage → Prop) (st : ChatState) : Prop :=
  (∀ m, m ∈ messagesRef st → Q m) ∧
  (∀ i m, messagesByIdRef st !! i = Some m → Q m).

(** The slot update of [refreshSlots]. *)
Definition refreshed (st : ChatState) (updateMessages : gset string) (m : ChatMessage)
  : ChatMessage :=
  if decide (id m ∈ updateMessages) then default m (messagesByIdRef st !! id m) else m.

(** [messagesByIdRef.current.clear(); messagesRef.current = []] *)
Definition clearStore (st : ChatState) : ChatState :=
  with_messages [] (with_messagesById ∅ st).

(** A store that holds [m1] alone, and a page that brings [m2] alone. *)
Definition loaded1 : ChatState :=
  mergePage initialState (mkCall (Some (mkData [m1] (Some "3"))) None None None).
Definition page2 : MessagesData := mkData [m2] (Some "4").

(** Two merges: a first page, then a page asked around the first slot that
    reaches behind it with the unknown message [m1]. *)
Definition straddlingCalls : list MergeCall :=
  [ mkCall (Some (mkData [m3; m2] (Some "5"))) None None None;
    mkCall (Some (mkData [m4; m3; m2; m1] (Some "6"))) (Some "m3") (Some 2) (Some 2) ].

(** The server reports that [m2] was deleted. *)
Definition deleteM2 : ChatChange := mkChange "8" Delete None (Some "m2").

(** The pending sends are keyed by the id of the message they hold. *)
Definition sentKeyed (st : ChatState) : Prop :=
  NoDup (sentMessagesRef st).*1 ∧
  ∀ k v, (k, v) ∈ sentMessagesRef st → id v = k.

(** The server reports an edit of [m2] and the creation of [s1]. *)
Definition m2edited : ChatMessage := msg "m2" "two, edited" 2000.
Definition updateM2 : ChatChange := mkChange "9" Update (Some m2edited) None.
Definition createS1 : ChatChange := mkChange "10" Create (Some s1) None.

(** ** The loaders: [loadFreshState], [loadMoreMessages], [loadChanges] *)

(** The React state of the hook beside its refs. *)
Record HookState := mkHook {
  refs : ChatState;
  loading : bool;
  isUpdating : bool;
  hasMoreMessages : bool;
  lastReadAt : option Z;
}.

(** The fields of [ChatConfig.chat] that the loaders read. *)
Record LoaderConfig := mkLoader {
  last_read_message_id : option string;
  last_message_id : string;
  last_read_at : Z;
  support_paging : bool;
  messages_changes_url : string;
}.

Definition with_refs (st : ChatState) (h : HookState) : HookState :=
  mkHook st (loading h) (isUpdating h) (hasMoreMessages h) (lastReadAt h).

(** The window that [loadFreshState] asks for (lines 269-278):
    [pageWith], [sliceBefore], [sliceAfter]. *)
Definition freshWindow (cfg : LoaderConfig) : option string * option Z * option Z :=
  if Js.truthyS (last_read_message_id cfg)
  then (last_read_message_id cfg, Some 100, Some 100)
  else (None, None, None).

(** [loadFreshState] before its [await]: [setLoading(true); setError(null)]. *)
Definition loadFreshState_start (h : HookState) : HookState :=
  mkHook (with_error None (refs h)) true (isUpdating h) (hasMoreMessages h) (lastReadAt h).

(** [loadFreshState] after [await loadMessages(...)] returned
    [newMessagesData] (lines 282-306, the [finally] included). *)
Definition loadFreshState_resolved (cfg : LoaderConfig)
    (newMessagesData : option MessagesData) (h : HookState) : HookState :=
  let '(pageWith, sliceBefore, sliceAfter) := freshWindow cfg in
  let st1 := with_lastMarkAsReadId (Js.orNull (last_read_message_id cfg)) (refs h) in
  let st2 := with_lastMessageId (Js.orNull (Some (last_message_id cfg))) st1 in
  let lastReadAt' :=
    if truthyZ (last_read_at cfg) then Some (last_read_at cfg) else lastReadAt h in
  let st3 :=
    with_lastChangeId None
      (with_firstMessagesPageLoaded false (with_messagesById ∅ (with_messages [] st2))) in
  let '(st4, hasMore) :=
    match newMessagesData with
    | Some d =>
        let st := (processNewMessages st3 (Some d) pageWith sliceBefore sliceAfter).2 in
        (st, support_paging cfg && bool_decide (0 < length (messagesRef st))%nat)
    | None => (st3, hasMoreMessages h)
    end in
  mkHook (updateMessagesState st4) false (isUpdating h) hasMore lastReadAt'.

(** The guard of [loadMoreMessages] (lines 457-458). When it passes, the id
    of the last slot and the length of the sequence are captured. *)
Definition loadMoreMessages_start (cfg : option LoaderConfig) (h : HookState)
  : option (string * nat) :=
  match cfg, last (messagesRef (refs h)) with
  | Some c, Some lastMessage =>
      if loading h then None
      else if negb (support_paging c) then None
      else Some (id lastMessage, length (messagesRef (refs h)))
  | _, _ => None
  end.

(** [loadMoreMessages] after [await loadMessages(lastMessage.id, 50)]
    returned [newMessagesData] (lines 466-473). *)
Definition loadMoreMessages_resolved (lastMessageId : string) (beforeCount : nat)
    (newMessagesData : option MessagesData) (h : HookState) : HookState :=
  match newMessagesData with
  | Some d =>
      let st := (processNewMessages (refs h) (Some d) (Some lastMessageId) (Some 50) None).2 in
      mkHook (updateMessagesState st) false (isUpdating h)
        (bool_decide (50 ≤ Z.of_nat (length (messagesRef st)) - Z.of_nat beforeCount))
        (lastReadAt h)
  | None => mkHook (refs h) false (isUpdating h) (hasMoreMessages h) (lastReadAt h)
  end.

(** What [loadChanges] does first (lines 311-322): nothing without a
    configuration, a full reload without a cursor or without a changes
    endpoint, otherwise a fetch of the changes since the cursor. *)
Inductive ChangesPlan :=
  | PlanNothing
  | PlanFreshState
  | PlanFetch (url lastKnownChangeId : string).

Definition loadChanges_start (cfg : option LoaderConfig) (st : ChatState) : ChangesPlan :=
  match cfg with
  | None => PlanNothing
  | Some c =>
      match lastChangeIdRef st with
      | Some cursor =>
          if negb (Js.truthy cursor) || negb (Js.truthy (messages_changes_url c))
          then PlanFreshState
          else PlanFetch (messages_changes_url c) cursor
      | None => PlanFreshState
      end
  end.

(** [ChangesResponse] and what [loadChanges] does with it (lines 330-373):
    [None] stands for the full reload. *)
Record ChangesResponse := mkResponse {
  response_success : bool;
  response_changes : option (list ChatChange);
  response_error_code : option string;
}.

Definition loadChanges_response (r : ChangesResponse) (h : HookState) : option HookState :=
  if negb (response_success r)
     || bool_decide (response_error_code r = Some "too-old-update-id")
  then None
  else Some (mkHook (applyChanges (refs h) (default [] (response_changes r)))
               (loading h) false (hasMoreMessages h) (lastReadAt h)).

(** A page behind [m2], the pivot included, and the loader configuration of
    the examples. *)
Definition olderPage : MessagesData := mkData [m2; m1] (Some "6").
Definition demoLoader : LoaderConfig := mkLoader None "m3" 2500 true "https://chat.example/changes".
Definition demoHook : HookState := mkHook loaded32 false false true None.

(** The refs that describe the timeline, as opposed to the pending sends,
    the error and the render counter. *)
Definition timelineOf (st : ChatState)
  : list ChatMessage * gmap string ChatMessage * bool * option string * option string
    * option string :=
  (messagesRef st, messagesByIdRef st, firstMessagesPageLoadedRef st,
   lastMessageIdRef st, lastChangeIdRef st, lastMarkAsReadIdRef st).

(** A hook whose store went wrong: [m2] sits twice in the sequence. *)
Definition brokenHook : HookState :=
  mkHook (with_messages [m2; m2] loaded32) false false true None.

(** A configuration whose last read message is [zz], which no page of the
    examples holds, and one whose last read message is [m2]. *)
Definition lostAnchor : LoaderConfig :=
  mkLoader (Some "zz") "m3" 2500 true "https://chat.example/changes".
Definition anchorM2 : LoaderConfig :=
  mkLoader (Some "m2") "m3" 2500 true "https://chat.example/changes".

(** ** [getMessageStatus] (lines 520-534) *)

Inductive MessageStatus := StatusSent | StatusRead.

Definition getMessageStatus (lastReadAt_ : option Z) (message : ChatMessage)
  : option MessageStatus :=
  if isOutgoing message then
    match lastReadAt_ with
    | Some readAt =>
        if truthyZ (createdAt message) && truthyZ readAt then
          if bool_decide (readAt < createdAt message) then Some StatusSent
          else Some StatusRead
        else None
    | None => None
    end
  else None.

(** The message that the server confirms for the send of [demoEnv], under
    the id that the client chose, and an outgoing message. *)
Definition confirmed : ChatMessage := msg "1700000000000-abc" "hi" 1700000000123.
Definition outgoing : ChatMessage :=
  mkMessage "out1" "message" "hello" ["hello"] 3000 3 3000 3 demoAuthor true true
    None [] None None None None.

(** ** The socket client: buffered emits, handlers and listeners *)

Module SocketTransport.
Import SocketClient.

(** [emit(event, data, cb)] (lines 94-100): without a connection the emit is
    kept in [pendingEmits]. *)
Definition emit (e : Emit) (s : SocketStore) : SocketStore :=
  match _io s with
  | None => mkStore (rooms s) None (pendingEmits s ++ [e])
  | Some _ => ioEmit e s
  end.

(** [_reconnect()] (lines 47-75) up to the first ['connect'] event: the old
    connection is closed and replaced by a new one, on which nothing was
    emitted yet, and the pending emits are replayed through [emit]. *)
Definition _reconnect (s : SocketStore) : SocketStore :=
  let s1 := mkStore (rooms s) (Some []) (pendingEmits s) in
  if bool_decide (pendingEmits s1 = []) then s1
  else
    let emits := pendingEmits s1 in
    foldl (λ acc e, emit e acc) (mkStore (rooms s1) (_io s1) []) emits.

(** *** [on] and its disposer (lines 102-130)

    A function is named by a number. [debounce(cb, delay)] is [cb] itself
    when [delay] is 0 and a new closure otherwise; the closures created by
    [on] (the disposer and the debounced handler) are numbered by the
    counter [closures]. The connection is the log of the [on] and [off]
    calls made on it. *)
Inductive Handler := Plain (cb : nat) | Bounced (serial cb : nat).

#[global] Instance Handler_eq_dec : EqDecision Handler.
Proof. solve_decision. Defined.

Definition debounced (cb : nat) (ms : Z) (serial : nat) : Handler :=
  if bool_decide (ms = 0) then Plain cb else Bounced serial cb.

Record Listener := mkListener {
  event : string;
  cb : Handler;
  disposer : nat;
}.

Inductive IoCall :=
  | IoOn (event : string) (h : Handler)
  | IoOff (event : string) (h : Handler).

(** [disposed] holds the disposers whose variable [disposed] is [true]. *)
Record Wiring := mkWiring {
  listeners : list Listener;
  io : option (list IoCall);
  disposed : gset nat;
  closures : nat;
}.

(** The disposer returned by [on(event, cb, delay)] with what it captured. *)
Record Disposer := mkDisposer {
  d_serial : nat;
  d_event : string;
  d_cb : nat;
}.

Definition on (event_ : string) (cb_ : nat) (delay : Z) (w : Wiring) : Wiring * Disposer :=
  let serial := closures w in
  let debouncedCb := debounced cb_ delay serial in
  (mkWiring (listeners w ++ [mkListener event_ debouncedCb serial])
            ((λ calls, calls ++ [IoOn event_ debouncedCb]) <$> io w)
            (disposed w) (S serial),
   mkDisposer serial event_ cb_).

Definition dispose (d : Disposer) (w : Wiring) : Wiring :=
  if decide (d_serial d ∈ disposed w) then w
  else
    mkWiring (filter (λ listener, disposer listener ≠ d_serial d) (listeners w))
             ((λ calls, calls ++ [IoOff (d_event d) (Plain (d_cb d))]) <$> io w)
             ({[d_serial d]} ∪ disposed w) (closures w).

(** Every closure in use was numbered by the counter. *)
Definition numbered (w : Wiring) : Prop :=
  (∀ l, l ∈ listeners w → (disposer l < closures w)%nat) ∧
  (∀ k, k ∈ disposed w → (k < closures w)%nat).

(** A store with a live connection and no listener. *)
Definition wired : Wiring := mkWiring [] (Some []) ∅ 0.

(** *** [listen] of the three subscription classes (lines 230-241, 320-331,
    383-394)

    The calls of [open()] and [close()] are logged. *)
Inductive Lifecycle := Opened | Closed.

Record Channel := mkChannel {
  ch_listeners : list nat;
  lifecycle : list Lifecycle;
}.

Definition listen (listener : nat) (ch : Channel) : Channel :=
  let ls := ch_listeners ch ++ [listener] in
  mkChannel ls (lifecycle ch ++ if bool_decide (length ls = 1%nat) then [Opened] else []).

(** The function returned by [listen(listener)]. *)
Definition unlisten (listener : nat) (ch : Channel) : Channel :=
  let ls := filter (λ l, l ≠ listener) (ch_listeners ch) in
  mkChannel ls (lifecycle ch ++ if bool_decide (length ls = 0%nat) then [Closed] else []).

Inductive ChannelCall := Listen (listener : nat) | Unlisten (listener : nat).

Definition channelCall (ch : Channel) (c : ChannelCall) : Channel :=
  match c with
  | Listen l => listen l ch
  | Unlisten l => unlisten l ch
  end.

(** A subscription as its constructor leaves it. *)
Definition created : Channel := mkChannel [] [].

(** *** [TypingSubscription.updateTyping] (lines 296-302)

    The state is [prevTypingCalledAt]; the result lists the instants at
    which ['typing/update'] is emitted. *)
Definition updateTyping (now : Z) (prevTypingCalledAt : option Z) : option Z * list Z :=
  if negb (Js.truthyN prevTypingCalledAt)
     || bool_decide (default 0 prevTypingCalledAt + 2000 < now)
  then (Some now, [now])
  else (prevTypingCalledAt, []).

(** The emits of the calls made at the instants [times], one after the other. *)
Fixpoint typingPulses (times : list Z) (prevTypingCalledAt : option Z) : list Z :=
  match times with
  | [] => []
  | now :: rest =>
      let '(prev, out) := updateTyping now prevTypingCalledAt in
      out ++ typingPulses rest prev
  end.

End SocketTransport.

(** ** [ChatInput.handleSend] (components/chat/ChatInput.tsx, lines 19-29)

    The synchronous prefix: [None] when the handler returns at its guard,
    otherwise the argument passed to [onSend]. An absent [disabled] prop is
    falsy. *)
Definition handleSend (text_ : string) (sending disabled : bool) : option string :=
  if negb (Js.truthy (Js.trim text_)) || sending || disabled then None
  else Some (Js.trim text_).

(** ** The notification manager (components/notifications/AppNotification.tsx) *)

Module Notifications.

(** [NotificationMessage] of [types/notifications.ts]: the fields that are
    data. [onPress] is a function and is left out; [atId] is ['@id']. *)
Record NotificationMessage := mkNotification {
  n_title : option string;
  n_body : option string;
  n_type : option string;
  n_onClick : option string;
  atId : option nat;
}.

(** [{ ...notification, '@id': id }] *)
Definition with_atId (id_ : nat) (n : NotificationMessage) : NotificationMessage :=
  mkNotification (n_title n) (n_body n) (n_type n) (n_onClick n) (Some id_).

(** [listeners] is a [Set] of functions, read in insertion order; a
    listener is named by a number and does not call the manager back. *)
Record NotificationManager := mkManager {
  listeners : list nat;
  currentNotification : option NotificationMessage;
  notificationId : nat;
}.

(** A call of a listener with its argument. *)
Definition Delivery : Type := nat * option NotificationMessage.

Definition notifyListeners (m : NotificationManager) : list Delivery :=
  (λ listener, (listener, currentNotification m)) <$> listeners m.

Definition show (notification : NotificationMessage) (m : NotificationManager)
  : NotificationManager * list Delivery :=
  let id_ := notificationId m in
  let m' := mkManager (listeners m) (Some (with_atId id_ notification)) (S id_) in
  (m', notifyListeners m').

Definition hide (m : NotificationManager) : NotificationManager * list Delivery :=
  let m' := mkManager (listeners m) None (notificationId m) in
  (m', notifyListeners m').

Definition subscribe (listener : nat) (m : NotificationManager)
  : NotificationManager * list Delivery :=
  let added := if decide (listener ∈ listeners m) then listeners m
               else listeners m ++ [listener] in
  (mkManager added (currentNotification m) (notificationId m),
   [(listener, currentNotification m)]).

(** The function returned by [subscribe(listener)]. *)
Definition unsubscribe (listener : nat) (m : NotificationManager)
  : NotificationManager * list Delivery :=
  (mkManager (filter (λ l, l ≠ listener) (listeners m)) (currentNotification m)
     (notificationId m), []).

Inductive ManagerCall :=
  | Show (notification : NotificationMessage)
  | Hide
  | Subscribe (listener : nat)
  | Unsubscribe (listener : nat).

Definition managerCall (acc : NotificationManager * list Delivery) (c : ManagerCall)
  : NotificationManager * list Delivery :=
  let '(m, log) := acc in
  let '(m', out) :=
    match c with
    | Show n => show n m
    | Hide => hide m
    | Subscribe l => subscribe l m
    | Unsubscribe l => unsubscribe l m
    end in
  (m', log ++ out).

(** [new NotificationManager()] *)
Definition notificationManager : NotificationManager := mkManager [] None 0.

Definition run (calls : list ManagerCall) : NotificationManager * list Delivery :=
  foldl managerCall (notificationManager, []) calls.

(** The number of [show] calls among [calls]. *)
Fixpoint shows (calls : list ManagerCall) : nat :=
  match calls with
  | [] => 0
  | Show _ :: rest => S (shows rest)
  | _ :: rest => shows rest
  end.

Definition banner : NotificationMessage :=
  mkNotification (Some "New message") (Some "hi") None None None.

End Notifications.

(** ** The global socket store ([getSocketStore], use-chat.ts lines 16-50)

    The module variables [globalSocketStore] and [globalSocketInitialized].
    The store is one shared object: the calls made on the store that
    [getSocketStore] returned act on [globalSocketStore]. *)

Module SocketGlobals.
Import SocketClient.

Record Globals := mkGlobals {
  globalSocketStore : option SocketStore;
  globalSocketInitialized : bool;
}.

(** The module as it is loaded. *)
Definition loaded : Globals := mkGlobals None false.

(** [new SocketStore(options)] *)
Definition newStore : SocketStore := mkStore ∅ None [].

(** [setBaseURL(baseURL)] stores the URL and calls [_reconnect()]. *)
Definition getSocketStore (g : Globals) : Globals * SocketStore :=
  let store := default newStore (globalSocketStore g) in
  if negb (globalSocketInitialized g)
  then
    let store' := SocketTransport._reconnect store in
    (mkGlobals (Some store') true, store')
  else (mkGlobals (Some store) (globalSocketInitialized g), store).

Inductive StoreCall :=
  | CallGetSocketStore
  | CallJoin (roomName : string)
  | CallLeave (roomName : string)
  | CallEmit (e : Emit)
  | CallReconnect.

Definition onStore (f : SocketStore → SocketStore) (g : Globals) : Globals :=
  mkGlobals (f <$> globalSocketStore g) (globalSocketInitialized g).

Definition storeCall (g : Globals) (c : StoreCall) : Globals :=
  match c with
  | CallGetSocketStore => (getSocketStore g).1
  | CallJoin r => onStore (λ s, (join r s).1) g
  | CallLeave r => onStore (leave r) g
  | CallEmit e => onStore (SocketTransport.emit e) g
  | CallReconnect => onStore SocketTransport._reconnect g
  end.

End SocketGlobals.


(** ** [TypingSubscription]: who is typing (part_001, lines 267-287)

    A pulse of the server is an object: its [uid], a string, and further
    keys ([name], [typedAt], [lastMessageAt], ...) with JSON values, any of
    which a pulse may leave out. The spread [{...old, ...value}] is the
    union of the two objects in which the keys of [value] win. [typings] is
    a [Map] read in insertion order; the [timeoutHandle] of an entry is the
    instant at which its timer runs. Time is a logical clock in
    milliseconds. *)

Module Typing.

Inductive JsonValue :=
  | JNull
  | JNumber (n : Z)
  | JString (s : string)
  | JBool (b : bool).

Record TypingValue := mkTyping {
  uid : string;
  fields : gmap string JsonValue;
}.

Record TypingEntry := mkEntry {
  entry_fields : gmap string JsonValue;
  timeoutAt : Z;
}.

(** [this.typings.get(uid)] *)
Fixpoint get (k : string) (typings : list (string * TypingEntry)) : option TypingEntry :=
  match typings with
  | [] => None
  | (k', e) :: rest => if decide (k' = k) then Some e else get k rest
  end.

(** [_onTypingChange(value)] at the instant [now], for the subscription of
    the user [self] ([typingData.uid]): the entry held for the [uid] is
    merged with the pulse, its timer is cleared and a new one is set. *)
Definition _onTypingChange (self : string) (now : Z) (value : TypingValue)
    (typings : list (string * TypingEntry)) : list (string * TypingEntry) :=
  if bool_decide (uid value ≠ self)
  then
    let held := from_option entry_fields ∅ (get (uid value) typings) in
    Js.map_set (uid value) (mkEntry (fields value ∪ held) (now + 10000)) typings
  else typings.

(** The event loop reaches the instant [now]: every timer that is due has
    run [this.typings.delete(uid)]. *)
Definition timeouts (now : Z) (typings : list (string * TypingEntry))
  : list (string * TypingEntry) :=
  filter (λ kv, now < timeoutAt kv.2) typings.

(** The pulses [pulses] (instant, value) arrive in order; the timers due at
    the instant of a pulse run before it. *)
Fixpoint typingRun (self : string) (pulses : list (Z * TypingValue))
    (typings : list (string * TypingEntry)) : list (string * TypingEntry) :=
  match pulses with
  | [] => typings
  | (now, value) :: rest =>
      typingRun self rest (_onTypingChange self now value (timeouts now typings))
  end.

(** [typings] at the instant [now], after [pulses] on a new subscription. *)
Definition typingsAt (self : string) (pulses : list (Z * TypingValue)) (now : Z)
  : list (string * TypingEntry) :=
  timeouts now (typingRun self pulses []).


(** Ann types; Bob types after his last message, and his second pulse
    carries [typedAt] only. *)
Definition ann : TypingValue :=
  mkTyping "u1" {[ "name" := JString "Ann"; "typedAt" := JNumber 1000 ]}.
Definition bob : TypingValue :=
  mkTyping "u2" {[ "name" := JString "Bob"; "typedAt" := JNumber 4000;
                   "lastMessageAt" := JNumber 3000 ]}.
Definition bobAgain : TypingValue :=
  mkTyping "u2" {[ "typedAt" := JNumber 9000 ]}.
Definition typingDemo : list (Z * TypingValue) :=
  [(1000, ann); (4000, bob); (9000, bobAgain)].

End Typing.

(** * Properties *)

(** ** A rejected merge *)

Lemma findIndexFrom_absent {A} (p : A → bool) (i : Z) (l : list A) :
  (∀ x, x ∈ l → p x = false) → Js.findIndexFrom p i l = -1.
Proof.
  revert i. induction l as [|x l IH]; intros i H; simpl; [done|].
  rewrite (H x) by left. apply IH. intros y Hy. apply H. by right.
Qed.

Lemma findIndexFrom_range {A} (p : A → bool) (i : Z) (l : list A) :
  0 ≤ i →
  Js.findIndexFrom p i l = -1 ∨
  (i ≤ Js.findIndexFrom p i l < i + Z.of_nat (length l)).
Proof.
  revert i. induction l as [|x l IH]; intros i Hi; simpl; [by left|].
  destruct (p x); [right; lia|].
  destruct (IH (i + 1)) as [->|?]; [lia|by left|right; lia].
Qed.

(** C3. A merge whose pivot id is supplied (a non-empty string) and is the
    id of no message of the fetched page returns [false] and leaves the
    whole state, hence the sequence, the index, the pending sends and the
    cursor, as it was. *)
Theorem processNewMessages_absent_pivot (st : ChatState)
    (newMessagesData : option MessagesData) (pivot : string)
    (sliceBefore sliceAfter : option Z) :
  Js.truthy pivot = true →
  (∀ m, m ∈ from_option data_messages [] newMessagesData → id m ≠ pivot) →
  processNewMessages st newMessagesData (Some pivot) sliceBefore sliceAfter = (false, st).
Proof.
  intros Hp Habs. destruct newMessagesData as [d|]; [|done].
  unfold processNewMessages. case_bool_decide; [done|].
  unfold indexOfPageWith. rewrite Hp. unfold Js.findIndex.
  rewrite findIndexFrom_absent; [by rewrite bool_decide_eq_true_2|].
  intros m Hm. apply bool_decide_eq_false_2. by apply Habs.
Qed.

Lemma processNewMessages_absent_pivot_witness :
  processNewMessages loaded32 (Some (mkData [m1] (Some "9"))) (Some "m2") (Some 50) None
  = (false, loaded32).
Proof.
  apply processNewMessages_absent_pivot; [reflexivity|].
  intros m Hm. apply list_elem_of_singleton in Hm as ->. discriminate.
Defined.

(** ** Blank input of [sendMessage] *)

Lemma trimStart_blank (s : string) : blank s = true → Js.trimStart s = "".
Proof.
  induction s as [|c r IH]; simpl; [done|].
  intros [Hc Hr]%andb_true_iff. rewrite Hc. by apply IH.
Qed.

Lemma trim_blank (s : string) : blank s = true → Js.trim s = "".
Proof. intros H. unfold Js.trim. by rewrite trimStart_blank. Qed.

(** C10. On a text that is empty or made of white space only, [sendMessage]
    returns without any effect: the state (pending sends and error
    included) is unchanged and no request is issued. *)
Theorem sendMessage_blank (chatConfig : option ChatConfig) (env : SendEnv)
    (text_ : string) (st : ChatState) :
  blank text_ = true →
  sendMessage chatConfig env text_ st = (st, []).
Proof.
  intros H. unfold sendMessage. destruct chatConfig; [|done].
  by rewrite trim_blank.
Qed.

Lemma sendMessage_blank_witness :
  sendMessage (Some demoConfig) demoEnv "  	 " loaded32 = (loaded32, []).
Proof. apply sendMessage_blank. reflexivity. Defined.

(** ** [markAsRead] *)

(** C6, as amended. When the marker resolves in the id index to a message
    [l], [markAsRead] on a message with the id of [l], or on a message whose
    creation time and that of [l] are both non-zero and which is older than
    [l], is a no-op: the state (the marker included) is unchanged and no
    request is issued. *)
Theorem markAsRead_not_newer (chatConfig : option ChatConfig) (message l : ChatMessage)
    (st : ChatState) :
  lastMarkAsReadOf st = Some l →
  id message = id l ∨
    (createdAt message ≠ 0 ∧ createdAt l ≠ 0 ∧ createdAt message < createdAt l) →
  markAsRead chatConfig message st = (st, []).
Proof.
  intros Hl Hcase. unfold markAsRead. destruct chatConfig as [cfg|]; [|done].
  destruct (Js.truthy (mark_as_read_url cfg)); [|done]. simpl. rewrite Hl. simpl.
  case_bool_decide as Hid; [done|].
  destruct Hcase as [Heq|(Hm & Hl0 & Hlt)]; [by rewrite Heq in Hid|].
  unfold truthyZ.
  rewrite (proj2 (Z.eqb_neq _ _) Hm), (proj2 (Z.eqb_neq _ _) Hl0). simpl.
  by rewrite bool_decide_eq_true_2.
Qed.

Lemma markAsRead_not_newer_witness :
  markAsRead (Some demoConfig) m1 marked2 = (marked2, []).
Proof.
  apply (markAsRead_not_newer (Some demoConfig) m1 m2 marked2).
  - reflexivity.
  - right. vm_compute. repeat split; discriminate.
Defined.

(** C6 fails as stated. A message stamped 0 is older than the marked message
    [m2], yet the marker moves to it and the mark call is issued; and when
    the marked id is not in the index, marking the very same message again
    issues the call again. *)
Lemma markAsRead_counterexample :
  (lastMarkAsReadOf marked2 = Some m2 ∧ createdAt m0 < createdAt m2 ∧
   markAsRead (Some demoConfig) m0 marked2
   = (with_lastMarkAsReadId (Some "m0") marked2,
      [PostMarkAsRead "https://chat.example/read" "m0"])) ∧
  (lastMarkAsReadIdRef markedSent = Some (id s1) ∧
   markAsRead (Some demoConfig) s1 markedSent
   = (markedSent, [PostMarkAsRead "https://chat.example/read" "s1"])).
Proof. vm_compute. repeat split. Qed.

(** ** Rooms *)

(** C7 fails on the code. After two joins and two leaves of a room on a live
    connection only the join was emitted: the first [leave] brings the count
    to 1 and deletes the entry, so the second finds no room and the leave
    event is never sent. *)
Theorem join_join_leave_leave_emits (r : string) :
  SocketClient.emitted
    [SocketClient.Join r; SocketClient.Join r; SocketClient.Leave r; SocketClient.Leave r]
  = [SocketClient.EmitRooms "join" [r]].
Proof.
  unfold SocketClient.emitted. simpl.
  unfold SocketClient.join at 2. unfold SocketClient.roomHeld. simpl.
  rewrite lookup_empty. simpl.
  unfold SocketClient.join, SocketClient.roomHeld. simpl.
  rewrite lookup_insert_eq. simpl.
  unfold SocketClient.leave at 2. unfold SocketClient.roomHeld. simpl.
  rewrite !lookup_insert_eq. simpl.
  unfold SocketClient.leave, SocketClient.roomHeld. simpl.
  by rewrite lookup_delete_eq.
Qed.

(** The entry of a room is gone after the first of two leaves. *)
Lemma leave_forgets_room (r : string) (s : SocketClient.SocketStore) :
  SocketClient.rooms (SocketClient.leave r s) !! r = None ∨
  SocketClient.leave r s = s.
Proof.
  unfold SocketClient.leave.
  destruct (_ && _); [left|by right].
  destruct (_ && _); simpl; apply lookup_delete_eq.
Qed.

(** ** [debounce] *)

Section DebounceProperties.
Context {Args : Type}.
Implicit Types (calls : list (Z * Args)) (d : SocketClient.Debounced (Args := Args)).

Lemma runCalls_armed (ms deadline : Z) (args : Args) calls :
  ms ≠ 0 →
  Forall (λ c, c.1 < deadline) calls →
  SocketClient.runCalls ms calls (SocketClient.mkDebounced true (Some (deadline, args)))
  = (SocketClient.mkDebounced true (Some (deadline, args)), []).
Proof.
  intros Hms. induction 1 as [|[now a] calls Hnow _ IH]; [done|].
  simpl in *. unfold SocketClient.advance, SocketClient.call. simpl.
  rewrite (bool_decide_eq_false_2 (deadline ≤ now)) by lia.
  rewrite (bool_decide_eq_false_2 (ms = 0)) by done. simpl.
  by rewrite IH.
Qed.

(** C8, as amended. With a non-zero interval, a burst of calls that all fall
    within the interval opened by its first call runs the callback exactly
    once, when the interval ends, with the arguments of the first call of
    the burst; the later calls of the burst are dropped. *)
Theorem debounce_burst (ms now : Z) (args : Args) calls :
  0 < ms →
  Forall (λ c, c.1 < now + ms) calls →
  SocketClient.callbackLog ms ((now, args) :: calls) = [(now + ms, args)].
Proof.
  intros Hms Hcalls. unfold SocketClient.callbackLog. simpl.
  unfold SocketClient.advance, SocketClient.call. simpl.
  rewrite (bool_decide_eq_false_2 (ms = 0)) by lia. simpl.
  rewrite runCalls_armed by (done || lia). done.
Qed.

End DebounceProperties.

Lemma debounce_burst_witness :
  SocketClient.callbackLog 100 [(0, "a"); (10, "b"); (99, "c")] = [(100, "a")].
Proof.
  apply (debounce_burst 100 0 "a" [(10, "b"); (99, "c")]); [lia|].
  repeat constructor; simpl; lia.
Defined.

(** C8 fails as stated. Of the two calls of a burst the most recent one
    carries ["b"], and the callback runs with ["a"]. *)
Lemma debounce_counterexample :
  SocketClient.callbackLog 100 [(0, "a"); (10, "b")] = [(100, "a")] ∧
  SocketClient.callbackLog 100 [(0, "a"); (10, "b")] ≠ [(100, "b")].
Proof. split; [reflexivity|]. vm_compute. intros [=]. Qed.

(** ** [debounce]: spacing of the callback runs *)

Section DebounceSpacing.
Context {Args : Type}.
Implicit Types (calls : list (Z * Args)) (d : SocketClient.Debounced (Args := Args)).

Lemma runCalls_spaced (ms : Z) calls d :
  0 < ms →
  (SocketClient.scheduled d = true ↔ is_Some (SocketClient.timer d)) →
  let r := SocketClient.runCalls ms calls d in
  (SocketClient.scheduled r.1 = true ↔ is_Some (SocketClient.timer r.1)) ∧
  StronglySorted (SocketClient.spacedBy ms) r.2 ∧
  (∀ D a, SocketClient.timer d = Some (D, a) → Forall (λ o, D ≤ o.1) r.2) ∧
  (∀ D' a', SocketClient.timer r.1 = Some (D', a') →
     Forall (λ o, o.1 + ms ≤ D') r.2 ∧
     ∀ D a, SocketClient.timer d = Some (D, a) → D ≤ D').
Proof.
  intros Hms. revert d. induction calls as [|[now args] calls IH]; intros d Hwf.
  { simpl. split_and!; [done|constructor|by constructor|].
    intros D' a' HD'. split; [by constructor|]. intros D a HD. rewrite HD in HD'.
    injection HD' as -> _. lia. }
  simpl. unfold SocketClient.advance, SocketClient.call.
  rewrite (bool_decide_eq_false_2 (ms = 0)) by lia.
  destruct d as [sch [[D a0]|]]; simpl in *.
  - case_bool_decide as Hdue; simpl.
    + specialize (IH (SocketClient.mkDebounced true (Some (now + ms, args)))).
      destruct (SocketClient.runCalls ms calls _) as [d3 out3]. simpl in *.
      destruct IH as (Hwf3 & Hsort3 & Hlo3 & Hhi3); [by split; eauto|].
      specialize (Hlo3 _ _ eq_refl).
      split_and!; [done| | |].
      * constructor; [done|]. eapply Forall_impl; [exact Hlo3|].
        intros o Ho. unfold SocketClient.spacedBy. simpl in *. lia.
      * intros ? ? [= <- <-]. constructor; [simpl; lia|].
        eapply Forall_impl; [exact Hlo3|]. intros o Ho. simpl in *. lia.
      * intros D' a' HD'. destruct (Hhi3 D' a' HD') as [Hout Hmono].
        specialize (Hmono _ _ eq_refl). split.
        -- constructor; [simpl; lia|done].
        -- intros ? ? [= <- <-]. lia.
    + assert (sch = true) as -> by (apply Hwf; eauto). simpl.
      specialize (IH (SocketClient.mkDebounced true (Some (D, a0)))).
      destruct (SocketClient.runCalls ms calls _) as [d3 out3]. simpl in *.
      by apply IH.
  - assert (sch = false) as ->.
    { destruct sch; [|done]. destruct Hwf as [Hwf _]. by destruct (Hwf eq_refl). }
    simpl. specialize (IH (SocketClient.mkDebounced true (Some (now + ms, args)))).
    destruct (SocketClient.runCalls ms calls _) as [d3 out3]. simpl in *.
    destruct IH as (Hwf3 & Hsort3 & Hlo3 & Hhi3); [by split; eauto|].
    split_and!; [done|done|by intros ? ? [=]|].
    intros D' a' HD'. destruct (Hhi3 D' a' HD') as [Hout _]. split; [done|].
    by intros ? ? [=].
Qed.

(** Whatever the calls, two runs of the callback of a listener registered
    with a positive interval are at least one interval apart. *)
Lemma callbackLog_spaced (ms : Z) calls :
  0 < ms → StronglySorted (SocketClient.spacedBy ms) (SocketClient.callbackLog ms calls).
Proof.
  intros Hms. unfold SocketClient.callbackLog.
  pose proof (runCalls_spaced ms calls SocketClient.idle Hms) as H.
  destruct (SocketClient.runCalls ms calls SocketClient.idle) as [d out]. simpl in H.
  destruct H as (_ & Hsort & _ & Hhi).
  { split; [done|by intros [? ?]]. }
  unfold SocketClient.fire. destruct (SocketClient.timer d) as [[D a]|] eqn:Ed; simpl.
  - destruct (Hhi D a eq_refl) as [Hout _].
    apply StronglySorted_app_2; [|done|repeat constructor].
    intros o1 o2 Ho1 ->%list_elem_of_singleton. rewrite Forall_forall in Hout.
    by apply Hout.
  - by rewrite app_nil_r.
Qed.

End DebounceSpacing.

(** ** The change channel *)

(** C9, as amended. A push invokes every listener, with no payload, whatever
    the value, and caches the value. An acknowledgment caches the value and
    invokes every listener, with no payload, exactly when a non-empty value
    is already cached, the new value is non-empty and the two differ. *)
Theorem changeChannel_emits (data_ : option string) (s : SocketClient.SocketSubscription) :
  SocketClient.onUpdated data_ s
  = (SocketClient.with_lastUpdatedValue data_ s,
     (λ l, (l, [])) <$> SocketClient.listeners s) ∧
  SocketClient.onSubscribed data_ s
  = (SocketClient.with_lastUpdatedValue data_ s,
     if bool_decide (Js.truthyS (SocketClient.lastUpdatedValue s) = true
                     ∧ Js.truthyS data_ = true
                     ∧ SocketClient.lastUpdatedValue s ≠ data_)
     then (λ l, (l, [])) <$> SocketClient.listeners s else []).
Proof.
  split; [done|]. unfold SocketClient.onSubscribed. f_equal.
  destruct (decide (SocketClient.lastUpdatedValue s ≠ data_)) as [Hne|Heq];
    destruct (Js.truthyS (SocketClient.lastUpdatedValue s)) eqn:E1;
    destruct (Js.truthyS data_) eqn:E2; simpl;
    rewrite ?(bool_decide_eq_true_2 _ Hne), ?(bool_decide_eq_false_2 _ Heq); simpl;
    first [ done
          | by rewrite bool_decide_eq_true_2
          | by rewrite bool_decide_eq_false_2 by (by intros (?&?&?)) ].
Qed.

(** C9 fails as stated. A push of the cached value invokes the listeners
    although the value did not change, and the first acknowledgment invokes
    nobody although its value differs from the empty cache. *)
Lemma changeChannel_counterexample :
  (SocketClient.lastUpdatedValue subCached = Some "v1" ∧
   (SocketClient.onUpdated (Some "v1") subCached).2 = [(1%nat, []); (2%nat, [])]) ∧
  (SocketClient.lastUpdatedValue subFresh ≠ Some "v1" ∧
   (SocketClient.onSubscribed (Some "v1") subFresh).2 = []).
Proof. repeat split. discriminate. Qed.

(** ** Change records *)

(** C4 fails on the code. While the contiguous-from-start flag is set, a
    create record puts its message at the head of the sequence without
    looking it up in the index, so the record applied twice leaves two
    entries with the same id where one application leaves one. *)
Theorem create_twice_duplicates (st : ChatState) (c : ChatChange) (message : ChatMessage) :
  operation c = Create →
  change_message c = Some message →
  firstMessagesPageLoadedRef st = true →
  messagesRef (applyChanges st [c]) = message :: messagesRef st ∧
  messagesRef (applyChanges (applyChanges st [c]) [c])
  = message :: message :: messagesRef st ∧
  storeOf (applyChanges (applyChanges st [c]) [c]) ≠ storeOf (applyChanges st [c]).
Proof.
  intros Hop Hmsg Hflag.
  assert (messagesRef (applyChanges st [c]) = message :: messagesRef st) as H1.
  { unfold applyChanges, applyChange. simpl. rewrite Hop, Hmsg. simpl.
    rewrite Hflag. by destruct (Js.truthy _). }
  assert (firstMessagesPageLoadedRef (applyChanges st [c]) = true) as Hflag'.
  { unfold applyChanges, applyChange. simpl. rewrite Hop, Hmsg. simpl.
    rewrite Hflag. by destruct (Js.truthy _). }
  assert (messagesRef (applyChanges (applyChanges st [c]) [c])
          = message :: message :: messagesRef st) as H2.
  { rewrite <-H1. unfold applyChanges at 1. unfold applyChange. simpl.
    rewrite Hop, Hmsg. simpl. rewrite Hflag'. by destruct (Js.truthy _). }
  split; [done|]. split; [done|].
  unfold storeOf. rewrite H1, H2. intros [= Hl _ _ _].
  apply (f_equal length) in Hl. simpl in Hl. lia.
Qed.

Lemma create_twice_duplicates_witness :
  messagesRef (applyChanges loaded32 [createM4]) = [m4; m3; m2] ∧
  messagesRef (applyChanges (applyChanges loaded32 [createM4]) [createM4])
  = [m4; m4; m3; m2] ∧
  storeOf (applyChanges (applyChanges loaded32 [createM4]) [createM4])
  ≠ storeOf (applyChanges loaded32 [createM4]).
Proof. apply (create_twice_duplicates loaded32 createM4 m4); reflexivity. Defined.

Lemma map_delete_idemp {V} (k : string) (m : list (string * V)) :
  Js.map_delete k (Js.map_delete k m) = Js.map_delete k m.
Proof.
  unfold Js.map_delete. induction m as [|[k' v] m IH]; [done|].
  rewrite filter_cons. case_decide; [|done].
  rewrite filter_cons. case_decide; [|done]. by rewrite IH.
Qed.

(** A create record is idempotent on the store while the flag is unset. *)
Lemma create_idempotent_unflagged (st : ChatState) (c : ChatChange) (message : ChatMessage) :
  operation c = Create →
  change_message c = Some message →
  firstMessagesPageLoadedRef st = false →
  storeOf (applyChanges (applyChanges st [c]) [c]) = storeOf (applyChanges st [c]).
Proof.
  intros Hop Hmsg Hflag. unfold applyChanges, applyChange, storeOf. simpl.
  rewrite Hop, Hmsg. simpl. rewrite Hflag. simpl.
  destruct (Js.truthy _); simpl; rewrite Hflag; simpl;
    by rewrite insert_insert_eq, map_delete_idemp.
Qed.

Lemma filter_idemp {A} (P : A → Prop) `{∀ x, Decision (P x)} (l : list A) :
  filter P (filter P l) = filter P l.
Proof.
  induction l as [|x l IH]; [done|].
  rewrite filter_cons. case_decide; [|done].
  rewrite filter_cons. case_decide; [|done]. by rewrite IH.
Qed.

(** A delete record is idempotent on the store. *)
Lemma delete_idempotent (st : ChatState) (c : ChatChange) :
  operation c = Delete →
  storeOf (applyChanges (applyChanges st [c]) [c]) = storeOf (applyChanges st [c]).
Proof.
  intros Hop. unfold applyChanges, applyChange, storeOf. simpl.
  destruct st. rewrite Hop.
  destruct (change_messageId c) as [k|]; simpl;
    [destruct (Js.truthy k) eqn:Hk; simpl|];
    destruct (Js.truthy (change_id c)) eqn:Hc; simpl;
    rewrite ?Hop, ?Hk, ?Hc; simpl; rewrite ?Hc; simpl; try done.
  all: by rewrite delete_delete_eq, filter_idemp.
Qed.

Lemma findIndexFrom_insert {A} (p : A → bool) (i : Z) (l : list A) (x : A) :
  p x = true →
  Js.findIndexFrom p i l ≠ -1 → 0 ≤ i →
  Js.findIndexFrom p i (<[Z.to_nat (Js.findIndexFrom p i l - i) := x]> l)
  = Js.findIndexFrom p i l.
Proof.
  intros Hx. revert i. induction l as [|y l IH]; intros i Hne Hi; simpl in *; [done|].
  destruct (p y) eqn:Hy.
  - rewrite Z.sub_diag. simpl. by rewrite Hx.
  - destruct (findIndexFrom_range p (i + 1) l) as [E|E]; [lia|done|].
    replace (Z.to_nat (Js.findIndexFrom p (i + 1) l - i))
      with (S (Z.to_nat (Js.findIndexFrom p (i + 1) l - (i + 1)))) by lia.
    simpl. rewrite Hy. apply IH; [done|lia].
Qed.

(** An update record is idempotent on the store. *)
Lemma update_idempotent (st : ChatState) (c : ChatChange) :
  operation c = Update →
  storeOf (applyChanges (applyChanges st [c]) [c]) = storeOf (applyChanges st [c]).
Proof.
  intros Hop. unfold applyChanges, applyChange, storeOf. simpl.
  destruct st as [msgs byId sent flag lm lc lr err ver]. rewrite Hop.
  destruct (change_message c) as [message|]; simpl;
    destruct (Js.truthy (change_id c)) eqn:Hc; simpl;
    rewrite ?Hop, ?Hc; simpl; try done.
  all: set (p := λ m : ChatMessage, bool_decide (id m = id message)).
  all: destruct (bool_decide (Js.findIndex p msgs ≠ -1)) eqn:Hidx; simpl.
  all: rewrite insert_insert_eq.
  all: try (rewrite Hidx; simpl; done).
  all: apply bool_decide_eq_true_1 in Hidx as Hne.
  all: pose proof (findIndexFrom_insert p 0 msgs message) as E.
  all: rewrite Z.sub_0_r in E; unfold Js.findIndex in *.
  all: rewrite E; [|by apply bool_decide_eq_true_2|done|done].
  all: rewrite Hidx; simpl; by rewrite list_insert_insert_eq.
Qed.

(** ** The derived list *)

Lemma foldl_pushUnseen (l : list ChatMessage) (seen : gset string) (acc : list ChatMessage) :
  ∃ new,
    foldl pushUnseen (seen, acc) l = (list_to_set (ids new) ∪ seen, acc ++ new) ∧
    new `sublist_of` l ∧
    NoDup (ids new) ∧
    (∀ m, m ∈ new → id m ∉ seen) ∧
    (∀ m, m ∈ l → id m ∈ seen ∨ id m ∈ ids new).
Proof.
  revert seen acc. induction l as [|m l IH]; intros seen acc.
  { exists []. simpl. rewrite app_nil_r. split_and!; try done.
    - by rewrite (left_id_L ∅ (∪)).
    - constructor.
    - by intros m ?%elem_of_nil.
    - by intros m ?%elem_of_nil. }
  simpl. case_decide as Hm.
  - destruct (IH seen acc) as (new & -> & Hsub & Hnd & Hfresh & Hall).
    exists new. split_and!; try done.
    + by apply sublist_cons.
    + intros m' [->|Hm']%elem_of_cons; [by left|by apply Hall].
  - destruct (IH ({[id m]} ∪ seen) (acc ++ [m])) as (new & -> & Hsub & Hnd & Hfresh & Hall).
    exists (m :: new). split_and!.
    + f_equal; [|by rewrite <-app_assoc]. simpl. set_solver.
    + by apply sublist_skip.
    + simpl. apply NoDup_cons. split; [|done].
      intros (m' & Hid & Hm')%list_elem_of_fmap. apply (Hfresh m' Hm'). set_solver.
    + intros m' [->|Hm']%elem_of_cons; [done|].
      intros Hin. apply (Hfresh m' Hm'). set_solver.
    + intros m' [->|Hm']%elem_of_cons; [right; simpl; left|].
      destruct (Hall m' Hm') as [Hs|Hn]; [|right; simpl; by right].
      apply elem_of_union in Hs as [Hs|Hs]; [|by left].
      apply elem_of_singleton in Hs. right. simpl. rewrite Hs. left.
Qed.

Lemma foldl_pushUnseen_all (l : list ChatMessage) (seen : gset string) (acc : list ChatMessage) :
  NoDup (ids l) → (∀ m, m ∈ l → id m ∉ seen) →
  foldl pushUnseen (seen, acc) l = (list_to_set (ids l) ∪ seen, acc ++ l).
Proof.
  revert seen acc. induction l as [|m l IH]; intros seen acc Hnd Hfresh.
  { simpl. rewrite app_nil_r. f_equal. set_solver. }
  simpl in *. apply NoDup_cons in Hnd as [Hm Hnd].
  rewrite decide_False by (apply Hfresh; left).
  rewrite IH; [|done|].
  - f_equal; [set_solver|by rewrite <-app_assoc].
  - intros m' Hm' Hin. apply elem_of_union in Hin as [Hin|Hin].
    + apply elem_of_singleton in Hin. apply Hm. rewrite <-Hin.
      by apply list_elem_of_fmap_2.
    + apply (Hfresh m'); [by right|done].
Qed.

(** C5. The derived list is a block of pending sends followed by a block of
    canonical messages. The pending block runs through the pending sends
    from the most recently queued to the oldest and shows the id of every
    pending send, whether or not the index holds it (it is the whole
    reversed queue when the pending ids are distinct); the canonical block
    keeps the canonical order and drops the entries whose id is already
    shown; no id occurs twice in the list. *)
Theorem messages_overlay (st : ChatState) :
  ∃ pending canonical,
    messages st = pending ++ canonical ∧
    pending `sublist_of` reverse (Js.map_values (sentMessagesRef st)) ∧
    (∀ s, s ∈ Js.map_values (sentMessagesRef st) → id s ∈ ids pending) ∧
    (NoDup (ids (Js.map_values (sentMessagesRef st))) →
       pending = reverse (Js.map_values (sentMessagesRef st))) ∧
    canonical `sublist_of` messagesRef st ∧
    (∀ c, c ∈ canonical → id c ∉ ids pending) ∧
    (∀ c, c ∈ messagesRef st → id c ∈ ids pending ∨ id c ∈ ids canonical) ∧
    NoDup (ids (messages st)).
Proof.
  unfold messages.
  destruct (foldl_pushUnseen (reverse (Js.map_values (sentMessagesRef st))) ∅ [])
    as (pending & E1 & Hsub1 & Hnd1 & _ & Hall1).
  rewrite E1. simpl.
  destruct (foldl_pushUnseen (messagesRef st) (list_to_set (ids pending) ∪ ∅) pending)
    as (canonical & E2 & Hsub2 & Hnd2 & Hfresh2 & Hall2).
  rewrite E2. simpl.
  assert (∀ c, c ∈ canonical → id c ∉ ids pending) as Hdisj.
  { intros c Hc Hin. apply (Hfresh2 c Hc). set_solver. }
  exists pending, canonical. split_and!; try done.
  - intros s Hs. destruct (Hall1 s) as [[]%elem_of_empty|]; [|done].
    by apply elem_of_reverse.
  - intros Hnd.
    assert (foldl pushUnseen (∅, []) (reverse (Js.map_values (sentMessagesRef st)))
            = (list_to_set (ids (reverse (Js.map_values (sentMessagesRef st)))) ∪ ∅,
               [] ++ reverse (Js.map_values (sentMessagesRef st)))) as E.
    { apply foldl_pushUnseen_all; [|set_solver].
      unfold ids. rewrite fmap_reverse. by rewrite reverse_Permutation. }
    rewrite E1 in E. by injection E.
  - intros c Hc. destruct (Hall2 c Hc) as [Hs|]; [left|by right]. set_solver.
  - unfold ids. rewrite fmap_app. apply NoDup_app. split_and!; [done| |done].
    intros i Hi (c & -> & Hc)%list_elem_of_fmap. by apply (Hdisj c Hc).
Qed.

(** The derived list on [overlayState]: the pending sends come first, the
    last queued first, and the canonical [m4] is hidden by the pending
    one. *)
Example overlayState_messages : ids (messages overlayState) = ["m4"; "s1"; "m3"; "m2"].
Proof. reflexivity. Qed.

(** ** The pending sends are keyed by message id *)

Lemma map_set_keys {V} (k : string) (v : V) (m : list (string * V)) :
  (Js.map_set k v m).*1 = if decide (k ∈ m.*1) then m.*1 else m.*1 ++ [k].
Proof.
  induction m as [|[k' v'] m IH]; [done|]. cbn [Js.map_set].
  destruct (decide (k' = k)) as [->|Hk]; rewrite !fmap_cons; cbn [fst].
  - by rewrite decide_True by left.
  - rewrite IH. destruct (decide (k ∈ m.*1)) as [Hin|Hin].
    + by rewrite decide_True by (by right).
    + rewrite decide_False; [done|]. intros [?|?]%elem_of_cons; by subst.
Qed.

Lemma map_set_elem_of {V} (k : string) (v : V) (m : list (string * V)) (kv : string * V) :
  kv ∈ Js.map_set k v m → kv = (k, v) ∨ kv ∈ m.
Proof.
  induction m as [|[k' v'] m IH]; cbn [Js.map_set].
  - intros ->%list_elem_of_singleton. by left.
  - destruct (decide (k' = k)) as [->|Hk]; intros [->|H']%elem_of_cons;
      [by left|right; by right|right; by left|].
    destruct (IH H') as [->|?]; [by left|right; by right].
Qed.

Lemma sentKeyed_set (k : string) (v : ChatMessage) (st : ChatState) :
  id v = k → sentKeyed st →
  sentKeyed (with_sentMessages (Js.map_set k v (sentMessagesRef st)) st).
Proof.
  intros Hk [Hnd Hkey]. split; simpl.
  - rewrite map_set_keys. case_decide as Hin; [done|].
    apply NoDup_app. split_and!; [done| |apply NoDup_singleton].
    by intros i Hi ->%list_elem_of_singleton.
  - intros k' v' [[= -> ->]|H']%map_set_elem_of; [done|by apply Hkey].
Qed.

Lemma sentKeyed_sublist (st st' : ChatState) :
  sentMessagesRef st' `sublist_of` sentMessagesRef st → sentKeyed st → sentKeyed st'.
Proof.
  intros Hsub [Hnd Hkey]. split.
  - apply (sublist_NoDup _ (sentMessagesRef st).*1); [done|by apply fmap_sublist].
  - intros k v Hkv. apply Hkey. by eapply elem_of_sublist.
Qed.

Lemma map_delete_sublist {V} (k : string) (m : list (string * V)) :
  Js.map_delete k m `sublist_of` m.
Proof. apply sublist_filter. Qed.

Lemma sendMessage_sentKeyed (chatConfig : option ChatConfig) (env : SendEnv)
    (text_ : string) (st : ChatState) :
  sentKeyed st → sentKeyed (sendMessage chatConfig env text_ st).1.
Proof.
  intros H. unfold sendMessage. destruct chatConfig as [cfg|]; [|done].
  destruct (negb _); [done|]. by apply (sentKeyed_set (generatedId env)).
Qed.

Lemma sendMessage_added_sentKeyed (added : ChatMessage) (st : ChatState) :
  sentKeyed st → sentKeyed (sendMessage_added added st).
Proof. intros H. by apply (sentKeyed_set (id added) added) in H. Qed.

Lemma sendMessage_failed_sentKeyed (messageId err : string) (st : ChatState) :
  sentKeyed st → sentKeyed (sendMessage_failed messageId err st).
Proof. apply sentKeyed_sublist. simpl. apply map_delete_sublist. Qed.

Lemma mergeLoop_sent (addType : AddType) (xs : list ChatMessage) (st : ChatState)
    (upd : gset string) :
  sentMessagesRef (foldl (mergeStep addType) (st, upd) xs).1 `sublist_of` sentMessagesRef st.
Proof.
  revert st upd. induction xs as [|m xs IH]; intros st upd; [done|].
  simpl.
  assert (sentMessagesRef (mergeStep addType (st, upd) m).1
          `sublist_of` sentMessagesRef st) as Hstep.
  { unfold mergeStep. destruct (Js.truthy (id m)); [|done].
    destruct (messagesByIdRef st !! id m); [by case_decide|].
    simpl. apply map_delete_sublist. }
  destruct (mergeStep addType (st, upd) m) as [st' upd']. by etrans; [apply IH|].
Qed.

Lemma processNewMessages_sentKeyed (st : ChatState) (newMessagesData : option MessagesData)
    (pageWith : option string) (sliceBefore sliceAfter : option Z) :
  sentKeyed st →
  sentKeyed (processNewMessages st newMessagesData pageWith sliceBefore sliceAfter).2.
Proof.
  apply sentKeyed_sublist. unfold processNewMessages.
  destruct newMessagesData as [d|]; [|done].
  repeat (case_bool_decide; [done|]).
  set (mode := addTypeOf _ _ _ _ _).
  set (flag := firstPageLoadedOf _ _ _ _ _).
  destruct (decide (mode = Replace)).
  - pose proof (mergeLoop_sent Append (visitOrder Append (data_messages d))
                  (with_messages [] (with_messagesById ∅ (with_firstMessagesPageLoaded flag st)))
                  ∅) as Hsub.
    destruct (foldl _ _ _) as [st3 upd]. simpl in *.
    unfold refreshSlots. by repeat destruct (_ && _), (bool_decide _), (Js.truthyS _).
  - pose proof (mergeLoop_sent mode (visitOrder mode (data_messages d))
                  (with_firstMessagesPageLoaded flag st) ∅) as Hsub.
    destruct (foldl _ _ _) as [st3 upd]. simpl in *.
    unfold refreshSlots. by repeat destruct (_ && _), (bool_decide _), (Js.truthyS _).
Qed.

Lemma applyChanges_sentKeyed (st : ChatState) (changes : list ChatChange) :
  sentKeyed st → sentKeyed (applyChanges st changes).
Proof.
  apply sentKeyed_sublist.
  assert (∀ cs acc, sentMessagesRef (foldl applyChange acc cs).1
                    `sublist_of` sentMessagesRef acc.1) as Hloop.
  { clear. intros cs. induction cs as [|c cs IH]; intros [s l]; [done|].
    simpl.
    assert (sentMessagesRef (applyChange (s, l) c).1 `sublist_of` sentMessagesRef s)
      as Hstep.
    { unfold applyChange.
      destruct (operation c), (change_message c) as [message|]; simpl; try done.
      - destruct (firstMessagesPageLoadedRef s); simpl; apply map_delete_sublist.
      - by case_bool_decide.
      - destruct (change_messageId c) as [k|]; [|done]. by destruct (Js.truthy k).
      - destruct (change_messageId c) as [k|]; [|done]. by destruct (Js.truthy k). }
    by etrans; [apply IH|]. }
  unfold applyChanges. case_bool_decide; [|done].
  specialize (Hloop changes (st, None)). destruct (foldl applyChange _ _) as [st1 l].
  simpl in *. by destruct (Js.truthyS l).
Qed.

(** In a state whose pending sends are keyed by message id, the pending
    block of the derived list is the queue of pending sends read from its
    most recent entry to its oldest. *)
Lemma sentKeyed_distinct (st : ChatState) :
  sentKeyed st → NoDup (ids (Js.map_values (sentMessagesRef st))).
Proof.
  intros [Hnd Hkey]. unfold ids, Js.map_values.
  replace (id <$> (sentMessagesRef st).*2) with (sentMessagesRef st).*1; [done|].
  rewrite <-list_fmap_compose. apply list_fmap_ext.
  intros i [k v] Hkv%list_elem_of_lookup_2. simpl. symmetry. by apply Hkey.
Qed.

(** ** The merge loop *)

Lemma mergeStep_cases (addType : AddType) (st : ChatState) (upd : gset string)
    (m : ChatMessage) :
  let r := mergeStep addType (st, upd) m in
  (r = (st, upd) ∧
   (Js.truthy (id m) = false ∨ messagesByIdRef st !! id m = Some m)) ∨
  (Js.truthy (id m) = true ∧ is_Some (messagesByIdRef st !! id m) ∧
   messagesRef r.1 = messagesRef st ∧
   messagesByIdRef r.1 = <[id m := m]> (messagesByIdRef st) ∧
   r.2 = {[id m]} ∪ upd) ∨
  (Js.truthy (id m) = true ∧ messagesByIdRef st !! id m = None ∧
   messagesRef r.1
   = (if decide (addType = Append) then messagesRef st ++ [m] else m :: messagesRef st) ∧
   messagesByIdRef r.1 = <[id m := m]> (messagesByIdRef st) ∧
   r.2 = upd).
Proof.
  unfold mergeStep. destruct (Js.truthy (id m)) eqn:Hid; [|left; by auto].
  destruct (messagesByIdRef st !! id m) as [ex|] eqn:Hex.
  - case_decide as Hne.
    + right; left. by eauto.
    + left. split; [done|]. right. f_equal. by destruct (decide (ex = m)).
  - right; right. simpl. by destruct (decide (addType = Append)).
Qed.

Lemma mergeStep_loopInv (addType : AddType) (st : ChatState) (upd : gset string)
    (m : ChatMessage) :
  loopInv st upd →
  loopInv (mergeStep addType (st, upd) m).1 (mergeStep addType (st, upd) m).2.
Proof.
  intros (Hnd & Hidx & Hslot & Hkey & Hupd).
  destruct (mergeStep_cases addType st upd m)
    as [[-> _]|[(Hid & Hex & Em & Ei & Eu)|(Hid & Hex & Em & Ei & Eu)]];
    [done| |]; unfold loopInv; rewrite Em, Ei, Eu.
  - split_and!.
    + done.
    + intros x Hx. apply lookup_insert_is_Some'. right. by apply Hidx.
    + intros x Hx Hnot. rewrite lookup_insert_ne; [apply Hslot; [done|]|]; set_solver.
    + intros i y. rewrite lookup_insert.
      destruct (decide (id m = i)) as [<-|]; [by intros [= ->]|apply Hkey].
    + intros i Hi. apply lookup_insert_is_Some'.
      apply elem_of_union in Hi as [->%elem_of_singleton|Hi]; [by left|right; by apply Hupd].
  - assert (id m ∉ ids (messagesRef st)) as Hfresh.
    { intros (x & Hxid & Hx)%list_elem_of_fmap. apply Hidx in Hx.
      rewrite <-Hxid, Hex in Hx. by destruct Hx. }
    assert (∀ x, x ∈ messagesRef st → id x ≠ id m) as Hother.
    { intros x Hx E. apply Hfresh. rewrite <-E. by apply list_elem_of_fmap_2. }
    assert (∀ x, x ∈ (if decide (addType = Append) then messagesRef st ++ [m]
                      else m :: messagesRef st) → x = m ∨ x ∈ messagesRef st) as Hin.
    { intros x. case_decide; set_solver. }
    split_and!.
    + unfold ids. case_decide.
      * rewrite fmap_app. apply NoDup_app. split_and!; [done| |apply NoDup_singleton].
        intros i Hi ->%list_elem_of_singleton. done.
      * rewrite fmap_cons. by apply NoDup_cons.
    + intros x [->|Hx]%Hin; apply lookup_insert_is_Some'; [by left|right; by apply Hidx].
    + intros x [->|Hx]%Hin Hnot; [by rewrite lookup_insert_eq|].
      rewrite lookup_insert_ne by (by apply not_eq_sym, Hother). by apply Hslot.
    + intros i y. rewrite lookup_insert.
      destruct (decide (id m = i)) as [<-|]; [by intros [= ->]|apply Hkey].
    + intros i Hi. apply lookup_insert_is_Some'. right. by apply Hupd.
Qed.

Lemma mergeLoop_loopInv (addType : AddType) (xs : list ChatMessage) (st : ChatState)
    (upd : gset string) :
  loopInv st upd →
  loopInv (foldl (mergeStep addType) (st, upd) xs).1
          (foldl (mergeStep addType) (st, upd) xs).2.
Proof.
  revert st upd. induction xs as [|m xs IH]; intros st upd Hinv; [done|].
  simpl. pose proof (mergeStep_loopInv addType st upd m Hinv) as Hstep.
  destruct (mergeStep addType (st, upd) m) as [st' upd']. by apply IH.
Qed.

(** The non-null assertion of line 241 holds: an updated id is indexed. *)
Lemma mergeLoop_updated_indexed (addType : AddType) (xs : list ChatMessage)
    (st : ChatState) (i : string) :
  wellFormed st →
  i ∈ (foldl (mergeStep addType) (st, ∅) xs).2 →
  is_Some (messagesByIdRef (foldl (mergeStep addType) (st, ∅) xs).1 !! i).
Proof.
  intros (Hnd & Hslot & Hkey) Hi.
  assert (loopInv st ∅) as Hinv.
  { split_and!; [done| |by auto|done|set_solver]. intros m Hm. by rewrite Hslot. }
  apply (mergeLoop_loopInv addType xs) in Hinv as (_ & _ & _ & _ & Hupd).
  by apply Hupd.
Qed.

Lemma loopInv_wellFormed (st : ChatState) : wellFormed st → loopInv st ∅.
Proof.
  intros (Hnd & Hslot & Hkey).
  split_and!; [done| |by auto|done|set_solver]. intros m Hm. by rewrite Hslot.
Qed.

Lemma mergeStep_allMessages (Q : ChatMessage → Prop) (addType : AddType)
    (st : ChatState) (upd : gset string) (m : ChatMessage) :
  Q m → allMessages Q st → allMessages Q (mergeStep addType (st, upd) m).1.
Proof.
  intros Hm [Hseq Hidx].
  destruct (mergeStep_cases addType st upd m)
    as [[-> _]|[(_ & _ & Em & Ei & _)|(_ & _ & Em & Ei & _)]];
    [done| |]; unfold allMessages; rewrite Em, Ei; split.
  - done.
  - intros i y. rewrite lookup_insert.
    destruct (decide (id m = i)) as [<-|]; [by intros [= <-]|apply Hidx].
  - intros x. case_decide; set_solver.
  - intros i y. rewrite lookup_insert.
    destruct (decide (id m = i)) as [<-|]; [by intros [= <-]|apply Hidx].
Qed.

Lemma mergeLoop_allMessages (Q : ChatMessage → Prop) (addType : AddType)
    (xs : list ChatMessage) (st : ChatState) (upd : gset string) :
  (∀ m, m ∈ xs → Q m) → allMessages Q st →
  allMessages Q (foldl (mergeStep addType) (st, upd) xs).1.
Proof.
  revert st upd. induction xs as [|m xs IH]; intros st upd Hxs Hall; [done|].
  simpl. pose proof (mergeStep_allMessages Q addType st upd m) as Hstep.
  destruct (mergeStep addType (st, upd) m) as [st' upd']. apply IH.
  - intros x Hx. apply Hxs. by right.
  - apply Hstep; [|done]. apply Hxs. by left.
Qed.

(** The slots that the loop adds: they are taken from the visited messages
    in the order of the visit, and they were not indexed before. *)
Lemma mergeLoop_shape (addType : AddType) (xs : list ChatMessage) (st : ChatState)
    (upd : gset string) :
  ∃ new,
    new `sublist_of` xs ∧
    (∀ m, m ∈ new → Js.truthy (id m) = true ∧ messagesByIdRef st !! id m = None) ∧
    messagesRef (foldl (mergeStep addType) (st, upd) xs).1
    = (if decide (addType = Append) then messagesRef st ++ new
       else reverse new ++ messagesRef st).
Proof.
  revert st upd. induction xs as [|m xs IH]; intros st upd.
  { exists []. split_and!; [done|by intros m ?%elem_of_nil|].
    simpl. case_decide; [by rewrite app_nil_r|done]. }
  simpl.
  destruct (mergeStep_cases addType st upd m)
    as [[E _]|[(_ & _ & Em & Ei & _)|(Hid & Hex & Em & Ei & _)]].
  - rewrite E. destruct (IH st upd) as (new & Hsub & Hnew & ->).
    exists new. split_and!; [by apply sublist_cons|done|done].
  - destruct (mergeStep addType (st, upd) m) as [st' upd']. simpl in *.
    destruct (IH st' upd') as (new & Hsub & Hnew & ->).
    exists new. split_and!; [by apply sublist_cons| |by rewrite Em].
    intros x Hx. destruct (Hnew x Hx) as [Hx1 Hx2]. split; [done|].
    rewrite Ei in Hx2. by apply lookup_insert_None in Hx2 as [? _].
  - destruct (mergeStep addType (st, upd) m) as [st' upd']. simpl in *.
    destruct (IH st' upd') as (new & Hsub & Hnew & ->).
    exists (m :: new). split_and!; [by apply sublist_skip| |].
    + intros x [->|Hx]%elem_of_cons; [done|].
      destruct (Hnew x Hx) as [Hx1 Hx2]. split; [done|].
      rewrite Ei in Hx2. by apply lookup_insert_None in Hx2 as [? _].
    + rewrite Em. case_decide; [by rewrite <-app_assoc|].
      by rewrite reverse_cons, <-app_assoc.
Qed.

(** Every visited message with a non-empty id is indexed after the loop,
    and the loop never removes an id from the index. *)
Lemma mergeLoop_indexed (addType : AddType) (xs : list ChatMessage) (st : ChatState)
    (upd : gset string) (i : string) :
  is_Some (messagesByIdRef st !! i) ∨ (∃ m, m ∈ xs ∧ Js.truthy (id m) = true ∧ id m = i) →
  is_Some (messagesByIdRef (foldl (mergeStep addType) (st, upd) xs).1 !! i).
Proof.
  revert st upd. induction xs as [|m xs IH]; intros st upd H.
  { destruct H as [H|(m & []%elem_of_nil & _)]. done. }
  simpl.
  destruct (mergeStep_cases addType st upd m)
    as [[E Hc]|[(_ & _ & _ & Ei & _)|(_ & _ & _ & Ei & _)]].
  - rewrite E. apply IH. destruct H as [H|(x & [->|Hx]%elem_of_cons & Hid & <-)];
      [by left| |right; by eauto].
    left. destruct Hc as [Hc|Hc]; [congruence|by rewrite Hc].
  - destruct (mergeStep addType (st, upd) m) as [st' upd']. simpl in *.
    apply IH. rewrite Ei.
    destruct H as [H|(x & [->|Hx]%elem_of_cons & Hid & <-)].
    + left. apply lookup_insert_is_Some'. by right.
    + left. apply lookup_insert_is_Some'. by left.
    + right. by eauto.
  - destruct (mergeStep addType (st, upd) m) as [st' upd']. simpl in *.
    apply IH. rewrite Ei.
    destruct H as [H|(x & [->|Hx]%elem_of_cons & Hid & <-)].
    + left. apply lookup_insert_is_Some'. by right.
    + left. apply lookup_insert_is_Some'. by left.
    + right. by eauto.
Qed.

(** ** The slot refresh *)

Lemma refreshSlots_messages (st : ChatState) (upd : gset string) :
  messagesRef (refreshSlots st upd) = refreshed st upd <$> messagesRef st.
Proof.
  unfold refreshSlots. case_bool_decide as Hsize; [done|].
  assert (upd = ∅) as -> by (apply leibniz_equiv, size_empty_iff; lia).
  rewrite <-(list_fmap_id (messagesRef st)) at 1. apply list_fmap_ext.
  intros _ m _. unfold refreshed. by rewrite decide_False by set_solver.
Qed.

Lemma refreshSlots_messagesById (st : ChatState) (upd : gset string) :
  messagesByIdRef (refreshSlots st upd) = messagesByIdRef st.
Proof. unfold refreshSlots. by case_bool_decide. Qed.

Lemma refreshed_id (st : ChatState) (upd : gset string) (m : ChatMessage) :
  loopInv st upd → id (refreshed st upd m) = id m.
Proof.
  intros (_ & _ & _ & Hkey & Hupd). unfold refreshed. case_decide as Hin; [|done].
  destruct (Hupd _ Hin) as [y Hy]. rewrite Hy. simpl. by apply Hkey.
Qed.

Lemma refreshed_indexed (st : ChatState) (upd : gset string) (m : ChatMessage) :
  loopInv st upd → m ∈ messagesRef st →
  messagesByIdRef st !! id m = Some (refreshed st upd m).
Proof.
  intros (_ & _ & Hslot & _ & Hupd) Hm. unfold refreshed. case_decide as Hin.
  - destruct (Hupd _ Hin) as [y Hy]. by rewrite Hy.
  - by apply Hslot.
Qed.

Lemma refreshSlots_ids (st : ChatState) (upd : gset string) :
  loopInv st upd → ids (messagesRef (refreshSlots st upd)) = ids (messagesRef st).
Proof.
  intros Hinv. rewrite refreshSlots_messages. unfold ids.
  rewrite <-list_fmap_compose. apply list_fmap_ext.
  intros _ m _. simpl. by apply refreshed_id.
Qed.

Lemma refreshSlots_wellFormed (st : ChatState) (upd : gset string) :
  loopInv st upd → wellFormed (refreshSlots st upd).
Proof.
  intros Hinv. unfold wellFormed.
  rewrite refreshSlots_ids, refreshSlots_messagesById, refreshSlots_messages by done.
  pose proof Hinv as (Hnd & _ & _ & Hkey & _). split_and!; [done| |done].
  intros y (m & -> & Hm)%list_elem_of_fmap.
  rewrite refreshed_id by done. by apply refreshed_indexed.
Qed.

Lemma refreshSlots_allMessages (Q : ChatMessage → Prop) (st : ChatState)
    (upd : gset string) :
  allMessages Q st → allMessages Q (refreshSlots st upd).
Proof.
  intros [Hseq Hidx]. unfold allMessages.
  rewrite refreshSlots_messages, refreshSlots_messagesById. split; [|done].
  intros y (m & -> & Hm)%list_elem_of_fmap. unfold refreshed.
  case_decide; [|by apply Hseq].
  destruct (messagesByIdRef st !! id m) as [z|] eqn:Hz; simpl; [by eapply Hidx|by apply Hseq].
Qed.

(** ** [processNewMessages] as a loop between two bookkeeping phases *)

Lemma processNewMessages_applied (st : ChatState) (d : MessagesData)
    (pageWith : option string) (sliceBefore sliceAfter : option Z) :
  let r := processNewMessages st (Some d) pageWith sliceBefore sliceAfter in
  let mode := addTypeOf st (data_messages d) pageWith sliceBefore sliceAfter in
  r = (false, st) ∨
  ∃ st2 addType st3 upd,
    r.1 = true ∧
    ((mode = Replace ∧ addType = Append ∧
      messagesRef st2 = [] ∧ messagesByIdRef st2 = ∅) ∨
     (mode ≠ Replace ∧ addType = mode ∧
      messagesRef st2 = messagesRef st ∧ messagesByIdRef st2 = messagesByIdRef st)) ∧
    foldl (mergeStep addType) (st2, ∅) (visitOrder addType (data_messages d)) = (st3, upd) ∧
    messagesRef r.2 = messagesRef (refreshSlots st3 upd) ∧
    messagesByIdRef r.2 = messagesByIdRef st3.
Proof.
  intros r mode. subst r. unfold processNewMessages.
  case_bool_decide; [by left|]. case_bool_decide; [by left|]. right.
  fold mode. destruct (decide (mode = Replace)) as [Hmode|Hmode].
  - destruct (foldl (mergeStep Append) _ _) as [st3 upd] eqn:Eloop.
    eexists _, Append, st3, upd. split_and!; [| |exact Eloop| |].
    + done.
    + left. by split_and!.
    + simpl. by repeat destruct (_ && _), (Js.truthyS _).
    + simpl. rewrite <-(refreshSlots_messagesById st3 upd).
      by repeat destruct (_ && _), (Js.truthyS _).
  - destruct (foldl (mergeStep mode) _ _) as [st3 upd] eqn:Eloop.
    eexists _, mode, st3, upd. split_and!; [| |exact Eloop| |].
    + done.
    + right. by split_and!.
    + simpl. by repeat destruct (_ && _), (Js.truthyS _).
    + simpl. rewrite <-(refreshSlots_messagesById st3 upd).
      by repeat destruct (_ && _), (Js.truthyS _).
Qed.

Lemma wellFormed_ext (st st' : ChatState) :
  messagesRef st' = messagesRef st → messagesByIdRef st' = messagesByIdRef st →
  wellFormed st → wellFormed st'.
Proof. unfold wellFormed. by intros -> ->. Qed.

Lemma allMessages_ext (Q : ChatMessage → Prop) (st st' : ChatState) :
  messagesRef st' = messagesRef st → messagesByIdRef st' = messagesByIdRef st →
  allMessages Q st → allMessages Q st'.
Proof. unfold allMessages. by intros -> ->. Qed.

Lemma wellFormed_empty (st : ChatState) :
  messagesRef st = [] → messagesByIdRef st = ∅ → wellFormed st.
Proof.
  intros Hm Hi. unfold wellFormed. rewrite Hm, Hi. split_and!.
  - constructor.
  - by intros m ?%elem_of_nil.
  - intros i m. by rewrite lookup_empty.
Qed.

(** A merge keeps the store well formed, whatever the page and the pivot. *)
Lemma processNewMessages_wellFormed (st : ChatState) (newMessagesData : option MessagesData)
    (pageWith : option string) (sliceBefore sliceAfter : option Z) :
  wellFormed st →
  wellFormed (processNewMessages st newMessagesData pageWith sliceBefore sliceAfter).2.
Proof.
  intros Hwf. destruct newMessagesData as [d|]; [|done].
  destruct (processNewMessages_applied st d pageWith sliceBefore sliceAfter)
    as [->|(st2 & addType & st3 & upd & _ & Hst2 & Eloop & Em & Ei)]; [done|].
  assert (wellFormed st2) as Hwf2.
  { destruct Hst2 as [(_ & _ & E1 & E2)|(_ & _ & E1 & E2)];
      [by apply wellFormed_empty|by apply (wellFormed_ext st)]. }
  pose proof (mergeLoop_loopInv addType (visitOrder addType (data_messages d)) st2 ∅
                (loopInv_wellFormed st2 Hwf2)) as Hinv.
  rewrite Eloop in Hinv. simpl in Hinv.
  apply (wellFormed_ext (refreshSlots st3 upd)); [done| |by apply refreshSlots_wellFormed].
  by rewrite refreshSlots_messagesById.
Qed.

Lemma mergeLoop_covered (addType : AddType) (xs : list ChatMessage) (st : ChatState)
    (upd : gset string) :
  (∀ i, is_Some (messagesByIdRef st !! i) → i ∈ ids (messagesRef st)) →
  ∀ i, is_Some (messagesByIdRef (foldl (mergeStep addType) (st, upd) xs).1 !! i) →
       i ∈ ids (messagesRef (foldl (mergeStep addType) (st, upd) xs).1).
Proof.
  revert st upd. induction xs as [|m xs IH]; intros st upd Hcov; [done|].
  simpl.
  destruct (mergeStep_cases addType st upd m)
    as [[E _]|[(_ & Hex & Em & Ei & _)|(_ & _ & Em & Ei & _)]].
  - rewrite E. by apply IH.
  - destruct (mergeStep addType (st, upd) m) as [st' upd']. simpl in *.
    apply IH. rewrite Em, Ei. intros i [Hi|Hi]%lookup_insert_is_Some'; [|by apply Hcov].
    subst i. by apply Hcov.
  - destruct (mergeStep addType (st, upd) m) as [st' upd']. simpl in *.
    apply IH. rewrite Em, Ei. intros i Hi. unfold ids.
    assert (i = id m ∨ i ∈ ids (messagesRef st)) as Hcase.
    { apply lookup_insert_is_Some' in Hi as [Hi|Hi]; [by left|right; by apply Hcov]. }
    case_decide; [rewrite fmap_app|rewrite fmap_cons]; set_solver.
Qed.

(** ** A page without pivot whose last message is not indexed *)

(** C2, as amended. On a non-empty store, a page merged with no pivot whose
    last message id is not in the id index is classified as replace: the
    merge is the merge of the page into the store with its sequence and its
    index cleared. It is applied, the resulting sequence is made of
    messages of the page only, in the order of the page, and shows every
    non-empty id of the page in exactly one slot; a message held before
    stays only if the page brings it. *)
Theorem processNewMessages_no_pivot_unindexed (st : ChatState) (d : MessagesData)
    (pageWith : option string) (sliceBefore sliceAfter : option Z) (lastMessage : ChatMessage) :
  messagesRef st ≠ [] →
  Js.truthyS pageWith = false →
  last (data_messages d) = Some lastMessage →
  messagesByIdRef st !! id lastMessage = None →
  let r := processNewMessages st (Some d) pageWith sliceBefore sliceAfter in
  addTypeOf st (data_messages d) pageWith sliceBefore sliceAfter = Replace ∧
  r = processNewMessages (clearStore st) (Some d) pageWith sliceBefore sliceAfter ∧
  r.1 = true ∧
  (∀ m, m ∈ messagesRef r.2 → m ∈ data_messages d) ∧
  ids (messagesRef r.2) `sublist_of` ids (data_messages d) ∧
  (∀ m, m ∈ data_messages d → Js.truthy (id m) = true → id m ∈ ids (messagesRef r.2)) ∧
  NoDup (ids (messagesRef r.2)).
Proof.
  intros Hne Hpw Hlast Hidx r.
  assert (addTypeOf st (data_messages d) pageWith sliceBefore sliceAfter = Replace) as Hmode.
  { unfold addTypeOf. rewrite bool_decide_eq_false_2, Hpw, Hlast; simpl.
    - unfold has. rewrite Hidx. by rewrite bool_decide_eq_false_2 by (by intros [? ?]).
    - by destruct (messagesRef st). }
  assert (indexOfPageWith (data_messages d) pageWith = None) as Hpivot.
  { unfold indexOfPageWith. destruct pageWith as [p|]; [|done]. simpl in Hpw. by rewrite Hpw. }
  assert (data_messages d ≠ []) as Hpage by (by intros E; rewrite E in Hlast).
  assert (r = processNewMessages (clearStore st) (Some d) pageWith sliceBefore sliceAfter) as Er.
  { subst r. unfold processNewMessages. rewrite Hmode, Hpivot.
    rewrite !(bool_decide_eq_false_2 (length _ = 0%nat))
      by (by destruct (data_messages d)).
    rewrite bool_decide_eq_false_2 by done.
    unfold addTypeOf at 1. simpl. unfold firstPageLoadedOf. rewrite Hpw.
    by rewrite !andb_false_r. }
  destruct (processNewMessages_applied st d pageWith sliceBefore sliceAfter)
    as [E|(st2 & addType & st3 & upd & Hfst & Hst2 & Eloop & Em & Ei)].
  { exfalso. fold r in E. unfold r, processNewMessages in E. rewrite Hpivot in E.
    rewrite !bool_decide_eq_false_2 in E; [|done|]; [|by destruct (data_messages d)].
    by destruct (decide _), (foldl _ _ _). }
  fold r in Hfst, Em, Ei.
  destruct Hst2 as [(_ & -> & E1 & E2)|[Hno _]]; [|done].
  unfold visitOrder in Eloop. rewrite decide_True in Eloop by done.
  assert (wellFormed st2) as Hwf2 by (by apply wellFormed_empty).
  pose proof (mergeLoop_loopInv Append (data_messages d) st2 ∅
                (loopInv_wellFormed st2 Hwf2)) as Hinv.
  pose proof (mergeLoop_shape Append (data_messages d) st2 ∅) as (new & Hsub & _ & Hshape).
  rewrite Eloop in Hinv, Hshape. simpl in Hinv, Hshape. rewrite E1 in Hshape. simpl in Hshape.
  assert (ids (messagesRef r.2) = ids new) as Hids.
  { by rewrite Em, refreshSlots_ids, Hshape. }
  split_and!; [done..| | | |].
  - assert (allMessages (λ m, m ∈ data_messages d) st2) as Hall.
    { split; [rewrite E1; by intros m ?%elem_of_nil|].
      intros i m. by rewrite E2, lookup_empty. }
    apply (mergeLoop_allMessages _ Append (data_messages d) st2 ∅) in Hall; [|done].
    rewrite Eloop in Hall. apply (refreshSlots_allMessages _ st3 upd) in Hall as [Hseq _].
    intros m. rewrite Em. apply Hseq.
  - rewrite Hids. unfold ids. by apply fmap_sublist.
  - intros m Hm Hid.
    pose proof (mergeLoop_covered Append (data_messages d) st2 ∅) as Hcov.
    pose proof (mergeLoop_indexed Append (data_messages d) st2 ∅ (id m)) as Hin.
    rewrite Eloop in Hcov, Hin. simpl in Hcov, Hin.
    rewrite Em, refreshSlots_ids by done. apply Hcov.
    + intros i. rewrite E2, lookup_empty. by intros [? ?].
    + apply Hin. right. by eauto.
  - rewrite Er.
    by destruct (processNewMessages_wellFormed (clearStore st) (Some d) pageWith sliceBefore
                   sliceAfter (wellFormed_empty (clearStore st) eq_refl eq_refl)) as [Hnd _].
Qed.

Lemma processNewMessages_no_pivot_unindexed_witness :
  let r := processNewMessages loaded1 (Some page2) None None None in
  addTypeOf loaded1 (data_messages page2) None None None = Replace ∧
  r = processNewMessages (clearStore loaded1) (Some page2) None None None ∧
  r.1 = true ∧
  (∀ m, m ∈ messagesRef r.2 → m ∈ data_messages page2) ∧
  ids (messagesRef r.2) `sublist_of` ids (data_messages page2) ∧
  (∀ m, m ∈ data_messages page2 → Js.truthy (id m) = true → id m ∈ ids (messagesRef r.2)) ∧
  NoDup (ids (messagesRef r.2)).
Proof.
  apply (processNewMessages_no_pivot_unindexed loaded1 page2 None None None m2).
  - vm_compute. discriminate.
  - reflexivity.
  - reflexivity.
  - vm_compute. reflexivity.
Defined.

(** C2 fails as stated. The store holds [m1]; the page [m2], merged with no
    pivot, is not indexed; the merge is a replace and [m1] is no longer in
    the sequence. *)
Lemma processNewMessages_no_pivot_counterexample :
  messagesRef loaded1 = [m1] ∧
  messagesByIdRef loaded1 !! id m2 = None ∧
  addTypeOf loaded1 (data_messages page2) None None None = Replace ∧
  messagesRef (processNewMessages loaded1 (Some page2) None None None).2 = [m2] ∧
  m1 ∉ messagesRef (processNewMessages loaded1 (Some page2) None None None).2.
Proof.
  split_and!; [reflexivity|by vm_compute|reflexivity|reflexivity|].
  intros Hin. apply list_elem_of_singleton in Hin. discriminate.
Qed.

(** ** Chronological order *)

Lemma StronglySorted_sublist {A} (R : relation A) (l1 l2 : list A) :
  l1 `sublist_of` l2 → StronglySorted R l2 → StronglySorted R l1.
Proof.
  induction 1 as [|x l1 l2 Hsub IH|x l1 l2 Hsub IH]; [done| |].
  - rewrite !StronglySorted_cons. intros [Hx Hl2]. split; [|by apply IH].
    apply Forall_forall. intros y Hy. rewrite Forall_forall in Hx.
    apply Hx. by eapply elem_of_sublist.
  - rewrite StronglySorted_cons. intros [_ Hl2]. by apply IH.
Qed.

Lemma sublist_reverse {A} (l1 l2 : list A) :
  l1 `sublist_of` l2 → reverse l1 `sublist_of` reverse l2.
Proof.
  induction 1 as [|x l1 l2 Hsub IH|x l1 l2 Hsub IH]; [done| |].
  - rewrite !reverse_cons. by apply sublist_app.
  - rewrite reverse_cons. by apply sublist_inserts_r.
Qed.

Section Chronological.
Context (R : relation Z) `{!Transitive R}.

Lemma chronological_sublist (l1 l2 : list ChatMessage) :
  l1 `sublist_of` l2 → chronological R l2 → chronological R l1.
Proof.
  intros Hsub. apply StronglySorted_sublist. by apply fmap_sublist.
Qed.

Lemma chronological_app (l1 l2 : list ChatMessage) :
  chronological R l1 → chronological R l2 →
  (∀ a b, a ∈ l1 → b ∈ l2 → R (createdAt a) (createdAt b)) →
  chronological R (l1 ++ l2).
Proof.
  intros H1 H2 Hcross. unfold chronological. rewrite fmap_app.
  apply StronglySorted_app_2; [|done..].
  intros t1 t2 (a & -> & Ha)%list_elem_of_fmap (b & -> & Hb)%list_elem_of_fmap.
  by apply Hcross.
Qed.

Lemma chronological_last (l : list ChatMessage) (tl a : ChatMessage) :
  chronological R l → last l = Some tl → a ∈ l →
  a = tl ∨ R (createdAt a) (createdAt tl).
Proof.
  intros Hl [l' ->]%last_Some Ha. unfold chronological in Hl. rewrite fmap_app in Hl.
  apply elem_of_app in Ha as [Ha|Ha%list_elem_of_singleton]; [right|by left].
  apply (StronglySorted_app_1_elem_of _ _ _ (createdAt a) (createdAt tl)) in Hl; [done|..].
  - by apply list_elem_of_fmap_2.
  - by apply list_elem_of_singleton.
Qed.

Lemma chronological_head (l : list ChatMessage) (hd a : ChatMessage) :
  chronological R l → head l = Some hd → a ∈ l →
  a = hd ∨ R (createdAt hd) (createdAt a).
Proof.
  intros Hl [l' ->]%head_Some Ha. unfold chronological in Hl. rewrite fmap_cons in Hl.
  apply StronglySorted_cons in Hl as [Hhd _]. rewrite Forall_forall in Hhd.
  apply elem_of_cons in Ha as [->|Ha]; [by left|right].
  apply Hhd. by apply list_elem_of_fmap_2.
Qed.

Lemma refreshSlots_times (U : list ChatMessage) (st : ChatState) (upd : gset string) :
  stableTimes U → loopInv st upd → allMessages (λ m, m ∈ U) st →
  createdAt <$> messagesRef (refreshSlots st upd) = createdAt <$> messagesRef st.
Proof.
  intros Hstable Hinv [Hseq Hidx]. rewrite refreshSlots_messages.
  rewrite <-list_fmap_compose. apply list_fmap_ext. intros _ m Hm%list_elem_of_lookup_2.
  simpl. pose proof (refreshed_indexed st upd m Hinv Hm) as Hr.
  apply Hstable; [by eapply Hidx|by apply Hseq|by apply refreshed_id].
Qed.

(** A merge keeps the sequence in chronological order when the new messages
    of the page belong at the end chosen by the classification. *)
Lemma mergePage_chronological (U : list ChatMessage) (st : ChatState) (c : MergeCall) :
  stableTimes U → (∀ m, m ∈ pageOf c → m ∈ U) →
  wellFormed st → allMessages (λ m, m ∈ U) st → chronological R (messagesRef st) →
  chronological R (pageOf c) → anchored R st c →
  allMessages (λ m, m ∈ U) (mergePage st c) ∧ chronological R (messagesRef (mergePage st c)).
Proof.
  intros Hstable Hpage Hwf Hall Hchron Hsorted Hanch.
  unfold mergePage, anchored, pageOf in *. destruct (call_data c) as [d|]; [|done].
  cbn [from_option] in *.
  destruct (processNewMessages_applied st d (call_pageWith c) (call_sliceBefore c)
              (call_sliceAfter c))
    as [->|(st2 & addType & st3 & upd & _ & Hst2 & Eloop & Em & Ei)]; [done|].
  set (page := data_messages d) in *.
  assert (wellFormed st2 ∧ allMessages (λ m, m ∈ U) st2 ∧ chronological R (messagesRef st2))
    as (Hwf2 & Hall2 & Hchron2).
  { destruct Hst2 as [(_ & _ & E1 & E2)|(_ & _ & E1 & E2)].
    - split_and!; [by apply wellFormed_empty| |rewrite E1; constructor].
      split; [rewrite E1; by intros m ?%elem_of_nil|].
      intros i m. by rewrite E2, lookup_empty.
    - split_and!; [by apply (wellFormed_ext st)|by apply (allMessages_ext _ st)|].
      by rewrite E1. }
  pose proof (mergeLoop_loopInv addType (visitOrder addType page) st2 ∅
                (loopInv_wellFormed st2 Hwf2)) as Hinv.
  assert (∀ m, m ∈ visitOrder addType page → m ∈ U) as Hvisit.
  { intros m. unfold visitOrder. case_decide; [apply Hpage|].
    intros Hm. by apply Hpage, (proj1 (elem_of_reverse _ _)). }
  pose proof (mergeLoop_allMessages _ addType (visitOrder addType page) st2 ∅ Hvisit Hall2)
    as Hall3.
  pose proof (mergeLoop_shape addType (visitOrder addType page) st2 ∅)
    as (new & Hsub & Hnew & Hshape).
  rewrite Eloop in Hinv, Hall3, Hshape. simpl in Hinv, Hall3, Hshape.
  split.
  { apply (allMessages_ext _ (refreshSlots st3 upd));
      [done|by rewrite refreshSlots_messagesById|by apply refreshSlots_allMessages]. }
  unfold chronological. rewrite Em, (refreshSlots_times U) by done.
  fold (chronological R (messagesRef st3)). rewrite Hshape.
  destruct Hst2 as [(Hmode & -> & E1 & E2)|(Hmode & -> & E1 & E2)].
  - rewrite decide_True by done. rewrite E1. simpl.
    apply (chronological_sublist _ page); [|done].
    unfold visitOrder in Hsub. by rewrite decide_True in Hsub.
  - unfold visitOrder in Hsub.
    destruct (addTypeOf st page (call_pageWith c) (call_sliceBefore c) (call_sliceAfter c))
      eqn:Emode; [| |done].
    + rewrite decide_True in Hsub |- * by done.
      apply chronological_app; [done|by apply (chronological_sublist _ page)|].
      intros a b Ha Hb. destruct (Hnew b Hb) as [Hid Hfresh]. rewrite E2 in Hfresh.
      rewrite E1 in Ha. destruct (last (messagesRef st)) as [tl|] eqn:Htl.
      * assert (R (createdAt tl) (createdAt b)) as Htlb.
        { apply (Hanch b tl); [by eapply elem_of_sublist|done..]. }
        destruct (chronological_last (messagesRef st) tl a) as [->|Hatl]; [done..| |];
          [done|by etrans].
      * apply last_None in Htl. rewrite Htl in Ha. by apply elem_of_nil in Ha.
    + rewrite decide_False in Hsub |- * by done.
      apply sublist_reverse in Hsub. rewrite reverse_involutive in Hsub.
      apply chronological_app; [by apply (chronological_sublist _ page)|done|].
      intros a b Ha Hb. apply (proj1 (elem_of_reverse _ _)) in Ha.
      destruct (Hnew a Ha) as [Hid Hfresh].
      rewrite E2 in Hfresh. rewrite E1 in Hb.
      destruct (head (messagesRef st)) as [hd|] eqn:Hhd.
      * assert (R (createdAt a) (createdAt hd)) as Hahd.
        { apply (Hanch a hd); [|done..].
          apply (elem_of_sublist (reverse new)); [|done].
          by apply (proj2 (elem_of_reverse _ _)). }
        destruct (chronological_head (messagesRef st) hd b) as [->|Hhdb]; [done..| |];
          [done|by etrans].
      * apply head_None in Hhd. rewrite Hhd in Hb. by apply elem_of_nil in Hb.
Qed.

(** A merge whose pivot is not in the page changes nothing. *)
Lemma processNewMessages_rejects (st : ChatState) (d : MessagesData) (p : string)
    (sliceBefore sliceAfter : option Z) :
  Js.truthy p = true → (∀ m, m ∈ data_messages d → id m ≠ p) →
  processNewMessages st (Some d) (Some p) sliceBefore sliceAfter = (false, st).
Proof.
  intros Hp Habs. unfold processNewMessages. case_bool_decide; [done|].
  unfold indexOfPageWith. rewrite Hp. unfold Js.findIndex.
  rewrite findIndexFrom_absent; [by rewrite bool_decide_eq_true_2|].
  intros m Hm. apply bool_decide_eq_false_2. by apply Habs.
Qed.

(** The unknown messages of a page that meets the first slot stand before
    the first slot. *)
Lemma meetsHead_before (U : list ChatMessage) (st : ChatState) (page : list ChatMessage) :
  stableTimes U → (∀ m, m ∈ page → m ∈ U) →
  wellFormed st → allMessages (λ m, m ∈ U) st →
  chronological R page → meetsHead st page →
  ∀ m hd, m ∈ page → Js.truthy (id m) = true → messagesByIdRef st !! id m = None →
          head (messagesRef st) = Some hd → R (createdAt m) (createdAt hd).
Proof.
  intros Hstable Hpage (_ & Hslot & _) [Hseq _] Hchron
    (hd' & l1 & x & l2 & Hhd & -> & Hx & Hknown) m hd Hm Hid Hfresh Hhd2.
  rewrite Hhd in Hhd2. injection Hhd2 as ->.
  assert (hd ∈ messagesRef st) as Hin.
  { apply head_Some in Hhd as [l' ->]. left. }
  assert (messagesByIdRef st !! id x = Some hd) as Hheld.
  { rewrite Hx. by apply Hslot. }
  assert (createdAt x = createdAt hd) as Htime.
  { apply Hstable; [apply Hpage, elem_of_app; right; left|by apply Hseq|done]. }
  apply elem_of_app in Hm as [Hm|Hm]; [|apply elem_of_cons in Hm as [->|Hm]].
  - rewrite <-Htime.
    assert (chronological R (l1 ++ [x])) as Hpre.
    { apply (chronological_sublist _ (l1 ++ x :: l2)); [|done].
      apply sublist_app; [done|]. apply sublist_skip, sublist_nil_l. }
    destruct (chronological_last (l1 ++ [x]) x m Hpre) as [->|Hlt]; [|set_solver| |done].
    + by rewrite last_snoc.
    + congruence.
  - congruence.
  - destruct (Hknown m Hm Hid) as [? ?]. congruence.
Qed.

(** The unknown messages of a page that meets the last slot stand behind
    the last slot. *)
Lemma meetsTail_behind (U : list ChatMessage) (st : ChatState) (page : list ChatMessage) :
  stableTimes U → (∀ m, m ∈ page → m ∈ U) →
  wellFormed st → allMessages (λ m, m ∈ U) st →
  chronological R page → meetsTail st page →
  ∀ m tl, m ∈ page → Js.truthy (id m) = true → messagesByIdRef st !! id m = None →
          last (messagesRef st) = Some tl → R (createdAt tl) (createdAt m).
Proof.
  intros Hstable Hpage (_ & Hslot & _) [Hseq _] Hchron
    (tl' & l1 & x & l2 & Htl & -> & Hx & Hknown) m tl Hm Hid Hfresh Htl2.
  rewrite Htl in Htl2. injection Htl2 as ->.
  assert (tl ∈ messagesRef st) as Hin.
  { apply last_Some in Htl as [l' ->]. apply elem_of_app. right. left. }
  assert (messagesByIdRef st !! id x = Some tl) as Hheld.
  { rewrite Hx. by apply Hslot. }
  assert (createdAt x = createdAt tl) as Htime.
  { apply Hstable; [apply Hpage, elem_of_app; right; left|by apply Hseq|done]. }
  apply elem_of_app in Hm as [Hm|Hm]; [|apply elem_of_cons in Hm as [->|Hm]].
  - destruct (Hknown m Hm Hid) as [? ?]. congruence.
  - congruence.
  - rewrite <-Htime.
    assert (chronological R (x :: l2)) as Hsuf.
    { apply (chronological_sublist _ (l1 ++ x :: l2)); [|done]. by apply sublist_inserts_l. }
    destruct (chronological_head (x :: l2) x m Hsuf) as [->|Hlt]; [done|by right| |done].
    congruence.
Qed.

(** A one-sided page is put at the end where it belongs, or the merge is
    rejected. This is where the branches of [addTypeOf] are used. *)
Lemma oneSided_anchored (U : list ChatMessage) (st : ChatState) (c : MergeCall) :
  stableTimes U → (∀ m, m ∈ pageOf c → m ∈ U) →
  wellFormed st → allMessages (λ m, m ∈ U) st →
  chronological R (pageOf c) → oneSided st c →
  mergePage st c = st ∨ anchored R st c.
Proof.
  intros Hstable Hpage Hwf Hall Hchron Hside. unfold anchored, addTypeOf.
  destruct (decide (messagesRef st = [])) as [Hempty|Hne].
  { right. rewrite Hempty. simpl. intros m tl _ _ _ Htl. done. }
  destruct Hside as [?|Hside]; [done|].
  rewrite bool_decide_eq_false_2 by (by destruct (messagesRef st)).
  unfold pivotOf in Hside. destruct (Js.truthyS (call_pageWith c)) eqn:Hpw; simpl.
  - destruct (call_pageWith c) as [p|] eqn:Ep; [|done]. simpl in Hpw.
    destruct (decide (Exists (λ x, id x = p) (pageOf c))) as [Hex|Hnex].
    + apply Exists_exists in Hex. destruct (Hside Hex) as [Hh Ht]. right.
      destruct (bool_decide (id <$> head (messagesRef st) = Some p)
                && Js.truthyN (call_sliceAfter c)) eqn:E1.
      * apply andb_true_iff in E1 as [E1a%bool_decide_eq_true_1 E1b].
        by apply (meetsHead_before U), Hh.
      * destruct (bool_decide (id <$> last (messagesRef st) = Some p)
                  && Js.truthyN (call_sliceBefore c)) eqn:E2; [|done].
        apply andb_true_iff in E2 as [E2a%bool_decide_eq_true_1 E2b].
        apply (meetsTail_behind U); try done. apply Ht; [|done..].
        intros [Ha Hb]. by rewrite bool_decide_eq_true_2, Hb in E1.
    + left. unfold mergePage, pageOf in *. rewrite Ep.
      destruct (call_data c) as [d|]; [|done]. simpl in Hnex.
      rewrite processNewMessages_rejects; [done..|].
      intros m Hm Hid. apply Hnex, Exists_exists. by exists m.
  - right. destruct (last (pageOf c)) as [l|] eqn:El; simpl; [|done].
    destruct (has (messagesByIdRef st) (id l)) eqn:Hhas; [|done].
    apply bool_decide_eq_true_1 in Hhas.
    apply (meetsHead_before U); try done. apply Hside. by exists l.
Qed.

(** One consistent merge keeps the sequence in chronological order. *)
Lemma mergePage_consistent (U : list ChatMessage) (st : ChatState) (c : MergeCall) :
  stableTimes U → (∀ m, m ∈ pageOf c → m ∈ U) →
  wellFormed st → allMessages (λ m, m ∈ U) st → chronological R (messagesRef st) →
  consistentCall R st c →
  allMessages (λ m, m ∈ U) (mergePage st c) ∧ chronological R (messagesRef (mergePage st c)).
Proof.
  intros Hstable Hpage Hwf Hall Hchron [Hsorted Hside].
  destruct (oneSided_anchored U st c) as [->|Hanch]; [done..| |]; [done|].
  by apply mergePage_chronological.
Qed.

Lemma mergePages_wellFormed (calls : list MergeCall) (st : ChatState) :
  wellFormed st → wellFormed (mergePages st calls).
Proof.
  revert st. induction calls as [|c calls IH]; intros st Hwf; [done|].
  simpl. apply IH. by apply processNewMessages_wellFormed.
Qed.

Lemma mergePages_chronological (U : list ChatMessage) (calls : list MergeCall)
    (st : ChatState) :
  stableTimes U → (∀ m, m ∈ allPages calls → m ∈ U) →
  wellFormed st → allMessages (λ m, m ∈ U) st → chronological R (messagesRef st) →
  consistentRun R st calls →
  chronological R (messagesRef (mergePages st calls)).
Proof.
  intros Hstable. revert st.
  induction calls as [|c calls IH]; intros st Hpages Hwf Hall Hchron Hrun; [done|].
  destruct Hrun as [Hcall Hrun]. unfold allPages in Hpages. rewrite bind_cons in Hpages.
  destruct (mergePage_consistent U st c) as [Hall' Hchron']; try done.
  { intros m Hm. apply Hpages, elem_of_app. by left. }
  simpl. apply IH; try done.
  - intros m Hm. apply Hpages, elem_of_app. by right.
  - by apply processNewMessages_wellFormed.
Qed.

End Chronological.

(** C1, as amended. From a store whose sequence and index are empty, after
    any sequence of merges the sequence holds at most one entry per message
    id. If moreover the pages give each message one creation time, every
    page is in chronological order and every page continues the sequence on
    one side only ([oneSided]: a page merged at the first slot holds the
    first slot and nothing unknown behind it, a page merged at the last slot
    holds the last slot and nothing unknown before it), the sequence is in
    chronological order after the merges. The order is any transitive
    relation on creation times; the application uses [newestFirst]. *)
Theorem mergePages_unique_chronological (R : relation Z) `{!Transitive R}
    (st : ChatState) (calls : list MergeCall) :
  messagesRef st = [] → messagesByIdRef st = ∅ →
  NoDup (ids (messagesRef (mergePages st calls))) ∧
  (stableTimes (allPages calls) → consistentRun R st calls →
   chronological R (messagesRef (mergePages st calls))).
Proof.
  intros Hm Hi. pose proof (wellFormed_empty st Hm Hi) as Hwf. split.
  - by apply (mergePages_wellFormed calls) in Hwf as [Hnd _].
  - intros Hstable Hrun.
    apply (mergePages_chronological R (allPages calls)); try done.
    + split; [rewrite Hm; by intros m ?%elem_of_nil|].
      intros i m. by rewrite Hi, lookup_empty.
    + rewrite Hm. constructor.
Qed.

Lemma stableTimes_Forall (U : list ChatMessage) :
  Forall (λ a, Forall (λ b, id a = id b → createdAt a = createdAt b) U) U →
  stableTimes U.
Proof.
  intros H a b Ha Hb. rewrite Forall_forall in H. specialize (H a Ha).
  rewrite Forall_forall in H. by apply H.
Qed.

Lemma mergePages_unique_chronological_witness :
  NoDup (ids (messagesRef (mergePages initialState demoCalls))) ∧
  chronological newestFirst (messagesRef (mergePages initialState demoCalls)).
Proof.
  split.
  - apply (mergePages_unique_chronological newestFirst initialState demoCalls); reflexivity.
  - apply (mergePages_unique_chronological newestFirst initialState demoCalls);
      [reflexivity..| |].
    + apply stableTimes_Forall. apply (bool_decide_unpack _). vm_compute. exact I.
    + split; [split|split; [split|split; [split|exact I]]].
      * apply (bool_decide_unpack _). vm_compute. exact I.
      * left. reflexivity.
      * apply (bool_decide_unpack _). vm_compute. exact I.
      * right. vm_compute. intros _. split; [intros [=]|]. intros _ _ _.
        exists m2, [], m2, [m1]. split_and!; [reflexivity..|].
        intros m Hm. by apply elem_of_nil in Hm.
      * apply (bool_decide_unpack _). vm_compute. exact I.
      * right. vm_compute. intros _. split; [|intros Hn; exfalso; by apply Hn].
        intros _ _. exists m3, [m4], m3, []. split_and!; [reflexivity..|].
        intros m Hm. by apply elem_of_nil in Hm.
Defined.

(** C1 fails as stated. After a first page [m3; m2], the page
    [m4; m3; m2; m1] is merged with the id of the first slot as pivot and
    both slice counts. Every page is in chronological order, every message
    has one creation time and each pivot is consistent in the plain reading,
    yet the whole page is put before the first slot: the older message [m1]
    lands between [m4] and [m3]. The sequence still has one slot per id. *)
Lemma mergePages_counterexample :
  Forall (λ c, chronological newestFirst (pageOf c)) straddlingCalls ∧
  stableTimes (allPages straddlingCalls) ∧
  pivotConsistent initialState (mkCall (Some (mkData [m3; m2] (Some "5"))) None None None) ∧
  pivotConsistent loaded32
    (mkCall (Some (mkData [m4; m3; m2; m1] (Some "6"))) (Some "m3") (Some 2) (Some 2)) ∧
  addTypeOf loaded32 [m4; m3; m2; m1] (Some "m3") (Some 2) (Some 2) = Prepend ∧
  messagesRef (mergePages initialState straddlingCalls) = [m4; m1; m3; m2] ∧
  ¬ chronological newestFirst (messagesRef (mergePages initialState straddlingCalls)) ∧
  ¬ consistentRun newestFirst initialState straddlingCalls.
Proof.
  assert (messagesRef (mergePages initialState straddlingCalls) = [m4; m1; m3; m2]) as E
    by (vm_compute; reflexivity).
  assert (¬ chronological newestFirst [m4; m1; m3; m2]) as Hno.
  { unfold chronological. intros H. apply StronglySorted_inv in H as [H _].
    apply StronglySorted_inv in H as [_ H]. apply Forall_inv in H.
    vm_compute in H. by apply H. }
  split_and!.
  - repeat constructor; vm_compute; discriminate.
  - apply stableTimes_Forall. apply (bool_decide_unpack _). vm_compute. exact I.
  - by left.
  - right. split; [exists m3; split; [|reflexivity]; right; left|left; by split].
  - reflexivity.
  - exact E.
  - by rewrite E.
  - intros Hrun. apply Hno. rewrite <-E.
    apply (mergePages_chronological newestFirst (allPages straddlingCalls)); try done.
    + apply stableTimes_Forall. apply (bool_decide_unpack _). vm_compute. exact I.
    + by apply wellFormed_empty.
    + split; [by intros m ?%elem_of_nil|]. intros i m. simpl. by rewrite lookup_empty.
    + constructor.
Qed.

(** ** Scenarios *)

(** A first page merged into the empty store is appended and its change id
    becomes the cursor. *)
Example scenario_first_page :
  addTypeOf initialState [m3; m2] None None None = Append ∧
  messagesRef loaded32 = [m3; m2] ∧
  lastChangeIdRef loaded32 = Some "5".
Proof. vm_compute. by split_and!. Qed.

(** The three merges of [demoCalls] are an append, an append behind the
    last slot and a prepend before the first slot. *)
Example scenario_demoCalls :
  ids (messagesRef (mergePages initialState demoCalls)) = ["m4"; "m3"; "m2"; "m1"].
Proof. vm_compute. reflexivity. Qed.

(** A delete record removes the message from the sequence and the index. *)
Example scenario_delete :
  messagesRef (applyChanges loaded32 [deleteM2]) = [m3] ∧
  messagesByIdRef (applyChanges loaded32 [deleteM2]) !! "m2" = None ∧
  lastChangeIdRef (applyChanges loaded32 [deleteM2]) = Some "8".
Proof. vm_compute. by split_and!. Qed.

(** One join and one leave of a room emit both events. *)
Example scenario_join_leave (r : string) :
  SocketClient.emitted [SocketClient.Join r; SocketClient.Leave r]
  = [SocketClient.EmitRooms "join" [r]; SocketClient.EmitRooms "leave" [r]].
Proof.
  unfold SocketClient.emitted. simpl.
  unfold SocketClient.join, SocketClient.roomHeld. simpl. rewrite lookup_empty. simpl.
  unfold SocketClient.leave, SocketClient.roomHeld. simpl.
  rewrite !lookup_insert_eq. simpl. done.
Qed.

(** After a successful send the confirmed message is shown once, in the
    pending block, until a change record or a page indexes it. *)
Example scenario_send :
  let '(st1, requests) := sendMessage (Some demoConfig) demoEnv "hi" loaded32 in
  requests = [PostAddMessage "https://chat.example/add" "1700000000000-abc" "hi"] ∧
  ids (messages st1) = ["1700000000000-abc"; "m3"; "m2"] ∧
  ids (messages (sendMessage_added (tempMessage demoConfig demoEnv "hi") st1))
  = ["1700000000000-abc"; "m3"; "m2"].
Proof. vm_compute. by split_and!. Qed.

(** * Further properties of the engine *)

(** ** Change records, one by one *)

Lemma findIndexFrom_found {A} (p : A → bool) (i : Z) (l : list A) :
  Js.findIndexFrom p i l ≠ -1 → 0 ≤ i →
  ∃ x, l !! Z.to_nat (Js.findIndexFrom p i l - i) = Some x ∧ p x = true.
Proof.
  revert i. induction l as [|y l IH]; intros i Hne Hi; simpl in *; [done|].
  destruct (p y) eqn:Hy.
  - rewrite Z.sub_diag. by exists y.
  - destruct (findIndexFrom_range p (i + 1) l) as [E|E]; [lia|done|].
    destruct (IH (i + 1)) as (x & Hx & Hpx); [done|lia|].
    exists x. split; [|done].
    replace (Z.to_nat (Js.findIndexFrom p (i + 1) l - i))
      with (S (Z.to_nat (Js.findIndexFrom p (i + 1) l - (i + 1)))) by lia.
    done.
Qed.

Lemma findIndexFrom_none {A} (p : A → bool) (i : Z) (l : list A) :
  Js.findIndexFrom p i l = -1 → 0 ≤ i → ∀ x, x ∈ l → p x = false.
Proof.
  revert i. induction l as [|y l IH]; intros i He Hi x Hx; simpl in *.
  { by apply elem_of_nil in Hx. }
  destruct (p y) eqn:Hy; [lia|].
  apply elem_of_cons in Hx as [->|Hx]; [done|]. apply (IH (i + 1)); [done|lia|done].
Qed.

Lemma applyChange_cursor_local (acc : ChatState * option string) (c : ChatChange) :
  (applyChange acc c).2 = Some (change_id c) ∧
  lastChangeIdRef (applyChange acc c).1 = lastChangeIdRef acc.1.
Proof.
  destruct acc as [st l]. unfold applyChange.
  destruct (operation c), (change_message c) as [message|]; simpl; try done.
  - by destruct (firstMessagesPageLoadedRef st).
  - by case_bool_decide.
  - destruct (change_messageId c) as [k|]; [|done]. by destruct (Js.truthy k).
  - destruct (change_messageId c) as [k|]; [|done]. by destruct (Js.truthy k).
Qed.

Lemma applyChange_loop_cursor (changes : list ChatChange) (acc : ChatState * option string) :
  (foldl applyChange acc changes).2 = from_option (λ c, Some (change_id c)) acc.2 (last changes) ∧
  lastChangeIdRef (foldl applyChange acc changes).1 = lastChangeIdRef acc.1.
Proof.
  revert acc. induction changes as [|c changes IH]; intros acc; [done|].
  simpl. destruct (IH (applyChange acc c)) as [E1 E2].
  destruct (applyChange_cursor_local acc c) as [E3 E4].
  rewrite E1, E2, E3, E4. split; [|done].
  rewrite last_cons. by destruct (last changes).
Qed.

(** X1. After a batch of change records the cursor is the id of the last
    record of the batch; when that id is the empty string, and when the
    batch is empty, the cursor stays as it was. *)
Theorem applyChanges_cursor (st : ChatState) (changes : list ChatChange) :
  lastChangeIdRef (applyChanges st changes)
  = match last changes with
    | Some c => if Js.truthy (change_id c) then Some (change_id c) else lastChangeIdRef st
    | None => lastChangeIdRef st
    end.
Proof.
  unfold applyChanges. case_bool_decide as Hlen.
  - destruct (applyChange_loop_cursor changes (st, None)) as [E1 E2].
    destruct (foldl applyChange (st, None) changes) as [st1 l]. simpl in *. subst l.
    destruct (last changes) as [c|] eqn:Hlast; simpl.
    + by destruct (Js.truthy (change_id c)).
    + apply last_None in Hlast. subst. simpl in Hlen. lia.
  - destruct changes; [done|]. simpl in Hlen. lia.
Qed.

Lemma applyChanges_single (st : ChatState) (c : ChatChange) :
  messagesRef (applyChanges st [c]) = messagesRef (applyChange (st, None) c).1 ∧
  messagesByIdRef (applyChanges st [c]) = messagesByIdRef (applyChange (st, None) c).1 ∧
  sentMessagesRef (applyChanges st [c]) = sentMessagesRef (applyChange (st, None) c).1.
Proof.
  unfold applyChanges. rewrite bool_decide_eq_true_2 by (simpl; lia).
  cbn [foldl]. destruct (applyChange (st, None) c) as [st1 l].
  by destruct (Js.truthyS l).
Qed.

(** X2. A delete record with a non-empty message id removes that id from
    the sequence and from the index and touches nothing else: the other
    slots stay, in their order, and the other index entries and the pending
    sends are unchanged. *)
Theorem applyChanges_delete (st : ChatState) (c : ChatChange) (k : string) :
  operation c = Delete → change_messageId c = Some k → Js.truthy k = true →
  (k ∉ ids (messagesRef (applyChanges st [c]))) ∧
  messagesByIdRef (applyChanges st [c]) !! k = None ∧
  messagesRef (applyChanges st [c]) `sublist_of` messagesRef st ∧
  (∀ m, m ∈ messagesRef st → id m ≠ k → m ∈ messagesRef (applyChanges st [c])) ∧
  (∀ j, j ≠ k → messagesByIdRef (applyChanges st [c]) !! j = messagesByIdRef st !! j) ∧
  sentMessagesRef (applyChanges st [c]) = sentMessagesRef st.
Proof.
  intros Hop Hk Hid. destruct (applyChanges_single st c) as (-> & -> & ->).
  unfold applyChange. rewrite Hop, Hk, Hid. simpl. split_and!.
  - intros (m & Hm & Hin)%list_elem_of_fmap.
    apply list_elem_of_filter in Hin as [Hne _]. by apply Hne.
  - apply lookup_delete_eq.
  - apply sublist_filter.
  - intros m Hm Hne. by apply list_elem_of_filter.
  - intros j Hj. by apply lookup_delete_ne.
  - done.
Qed.

Lemma applyChanges_delete_witness :
  ("m2" ∉ ids (messagesRef (applyChanges loaded32 [deleteM2]))) ∧
  messagesByIdRef (applyChanges loaded32 [deleteM2]) !! "m2" = None ∧
  messagesRef (applyChanges loaded32 [deleteM2]) `sublist_of` messagesRef loaded32 ∧
  (∀ m, m ∈ messagesRef loaded32 → id m ≠ "m2" →
        m ∈ messagesRef (applyChanges loaded32 [deleteM2])) ∧
  (∀ j, j ≠ "m2" → messagesByIdRef (applyChanges loaded32 [deleteM2]) !! j
                   = messagesByIdRef loaded32 !! j) ∧
  sentMessagesRef (applyChanges loaded32 [deleteM2]) = sentMessagesRef loaded32.
Proof. apply (applyChanges_delete loaded32 deleteM2 "m2"); reflexivity. Defined.

Lemma update_slot (l : list ChatMessage) (message : ChatMessage) :
  let idx := Js.findIndex (λ m, bool_decide (id m = id message)) l in
  let l' := if bool_decide (idx ≠ -1) then <[Z.to_nat idx := message]> l else l in
  ids l' = ids l ∧
  (id message ∈ ids l → message ∈ l') ∧
  (∀ m, m ∈ l' → m = message ∨ (m ∈ l ∧ (NoDup (ids l) → id m ≠ id message))).
Proof.
  intros idx l'. subst l'. unfold Js.findIndex in idx.
  case_bool_decide as Hidx.
  - destruct (findIndexFrom_found _ 0 l Hidx) as (x & Hx & Hpx); [done|].
    rewrite Z.sub_0_r in Hx. fold idx in Hx. apply bool_decide_eq_true_1 in Hpx.
    split_and!.
    + unfold ids. rewrite list_fmap_insert, <-Hpx.
      apply list_insert_id. by rewrite list_lookup_fmap, Hx.
    + intros _. apply list_elem_of_lookup. exists (Z.to_nat idx).
      apply list_lookup_insert_eq. by eapply lookup_lt_Some.
    + intros m (j & Hj)%list_elem_of_lookup.
      destruct (decide (j = Z.to_nat idx)) as [->|Hne].
      * rewrite list_lookup_insert_eq in Hj by (by eapply lookup_lt_Some). left. congruence.
      * rewrite list_lookup_insert_ne in Hj by done. right. split.
        { by eapply list_elem_of_lookup_2. }
        intros Hnd E. apply Hne. eapply NoDup_lookup; [exact Hnd| |].
        -- unfold ids. by rewrite list_lookup_fmap, Hj.
        -- unfold ids. rewrite list_lookup_fmap, Hx. simpl. congruence.
  - assert (Js.findIndexFrom (λ m, bool_decide (id m = id message)) 0 l = -1) as Hnone.
    { destruct (decide (idx = -1)); [done|]. by contradict Hidx. }
    pose proof (findIndexFrom_none _ 0 l Hnone) as Habs.
    split_and!; [done| |].
    + intros (m & Hm & Hin)%list_elem_of_fmap.
      specialize (Habs ltac:(done) m Hin). apply bool_decide_eq_false_1 in Habs. done.
    + intros m Hm. right. split; [done|]. intros _.
      specialize (Habs ltac:(done) m Hm). by apply bool_decide_eq_false_1 in Habs.
Qed.

(** X3. An update record never moves, adds or removes a slot: the ids of
    the sequence are the same before and after. The index holds the new
    payload under its id, and when the id is in the sequence the new
    payload is in the sequence too. *)
Theorem applyChanges_update (st : ChatState) (c : ChatChange) (message : ChatMessage) :
  operation c = Update → change_message c = Some message →
  ids (messagesRef (applyChanges st [c])) = ids (messagesRef st) ∧
  messagesByIdRef (applyChanges st [c]) !! id message = Some message ∧
  (id message ∈ ids (messagesRef st) → message ∈ messagesRef (applyChanges st [c])) ∧
  sentMessagesRef (applyChanges st [c]) = sentMessagesRef st.
Proof.
  intros Hop Hmsg. destruct (applyChanges_single st c) as (-> & -> & ->).
  unfold applyChange. rewrite Hop, Hmsg. cbn [fst].
  destruct (update_slot (messagesRef st) message) as (Hids & Hin & _).
  simpl. case_bool_decide; simpl in *; rewrite ?lookup_insert_eq;
    rewrite ?bool_decide_eq_true_2 in * by done;
    rewrite ?bool_decide_eq_false_2 in * by done; by split_and!.
Qed.

Lemma applyChanges_update_witness :
  ids (messagesRef (applyChanges loaded32 [updateM2])) = ids (messagesRef loaded32) ∧
  messagesByIdRef (applyChanges loaded32 [updateM2]) !! id m2edited = Some m2edited ∧
  (id m2edited ∈ ids (messagesRef loaded32) →
   m2edited ∈ messagesRef (applyChanges loaded32 [updateM2])) ∧
  sentMessagesRef (applyChanges loaded32 [updateM2]) = sentMessagesRef loaded32.
Proof. apply (applyChanges_update loaded32 updateM2 m2edited); reflexivity. Defined.

Lemma applyChange_wellFormed (acc : ChatState * option string) (c : ChatChange) :
  operation c ≠ Create → wellFormed acc.1 → wellFormed (applyChange acc c).1.
Proof.
  destruct acc as [st l]. intros Hop (Hnd & Hslot & Hkey). unfold applyChange.
  destruct (operation c) eqn:Eop; [done| |].
  - destruct (change_message c) as [message|]; [|done]. cbn [fst].
    destruct (update_slot (messagesRef st) message) as (Hids & _ & Hin).
    assert (∀ i m, <[id message:=message]> (messagesByIdRef st) !! i = Some m → id m = i)
      as Hkey'.
    { intros i m. rewrite lookup_insert.
      destruct (decide (id message = i)) as [<-|]; [by intros [= ->]|apply Hkey]. }
    unfold wellFormed. simpl in *. case_bool_decide; simpl.
    + rewrite Hids. split_and!; [done| |done].
      intros m [->|[Hm Hne]]%Hin; [by rewrite lookup_insert_eq|].
      rewrite lookup_insert_ne by (apply not_eq_sym; by apply Hne). by apply Hslot.
    + split_and!; [done| |done].
      intros m [->|[Hm Hne]]%Hin; [by rewrite lookup_insert_eq|].
      rewrite lookup_insert_ne by (apply not_eq_sym; by apply Hne). by apply Hslot.
  - destruct (change_messageId c) as [k|]; [|by destruct (change_message c)].
    destruct (Js.truthy k); [|by destruct (change_message c)].
    assert (wellFormed
              (with_messages (filter (λ m, id m ≠ k) (messagesRef st))
                 (with_messagesById (delete k (messagesByIdRef st)) st))) as Hwf.
    { unfold wellFormed. simpl. split_and!.
      - apply (sublist_NoDup _ (ids (messagesRef st))); [done|].
        unfold ids. apply fmap_sublist, sublist_filter.
      - intros m [Hne Hm]%list_elem_of_filter.
        rewrite lookup_delete_ne by (by apply not_eq_sym). by apply Hslot.
      - intros i m [_ Hm]%lookup_delete_Some. by apply Hkey. }
    by destruct (change_message c).
Qed.

(** X4. A batch of update and delete records keeps the store well formed:
    one slot per id, every slot holding the payload that the index has for
    its id, and the index keyed by the id of its payloads. *)
Theorem applyChanges_wellFormed (st : ChatState) (changes : list ChatChange) :
  Forall (λ c, operation c ≠ Create) changes →
  wellFormed st → wellFormed (applyChanges st changes).
Proof.
  intros Hops Hwf.
  assert (∀ acc, wellFormed acc.1 → wellFormed (foldl applyChange acc changes).1) as Hloop.
  { clear Hwf. induction Hops as [|c cs Hc _ IH]; intros acc Hacc; [done|].
    cbn [foldl]. apply IH. by apply applyChange_wellFormed. }
  specialize (Hloop (st, None) Hwf).
  unfold applyChanges. case_bool_decide; [|done].
  destruct (foldl applyChange (st, None) changes) as [st1 l].
  apply (wellFormed_ext st1); [by destruct (Js.truthyS l)..|done].
Qed.

Lemma applyChanges_wellFormed_witness :
  wellFormed (applyChanges loaded32 [updateM2; deleteM2]).
Proof.
  apply applyChanges_wellFormed.
  - repeat constructor; discriminate.
  - apply processNewMessages_wellFormed. by apply wellFormed_empty.
Defined.

(** X5. A change record applied twice leaves the store (sequence, index,
    pending sends, cursor) as one application does, unless it is a create
    record met while the contiguous-from-start flag is set. *)
Theorem applyChanges_idempotent (st : ChatState) (c : ChatChange) :
  operation c ≠ Create ∨ firstMessagesPageLoadedRef st = false →
  storeOf (applyChanges (applyChanges st [c]) [c]) = storeOf (applyChanges st [c]).
Proof.
  intros Hcase. destruct (operation c) eqn:Hop.
  - destruct Hcase as [?|Hflag]; [done|].
    destruct (change_message c) as [message|] eqn:Hmsg.
    + by apply (create_idempotent_unflagged st c message).
    + unfold applyChanges, applyChange, storeOf. simpl. rewrite ?Hop, ?Hmsg. simpl.
      destruct (Js.truthy (change_id c)) eqn:Hc; simpl; by rewrite ?Hop, ?Hmsg, ?Hc.
  - by apply update_idempotent.
  - by apply delete_idempotent.
Qed.

Lemma applyChanges_idempotent_witness :
  storeOf (applyChanges (applyChanges loaded32 [updateM2]) [updateM2])
  = storeOf (applyChanges loaded32 [updateM2]).
Proof. apply applyChanges_idempotent. left. discriminate. Defined.

(** ** Pagination and reload *)


Lemma processNewMessages_true (st : ChatState) (d : MessagesData)
    (pageWith : option string) (sliceBefore sliceAfter : option Z) :
  (processNewMessages st (Some d) pageWith sliceBefore sliceAfter).1 = true →
  data_messages d ≠ [] ∧ indexOfPageWith (data_messages d) pageWith ≠ Some (-1).
Proof.
  unfold processNewMessages. case_bool_decide as H1; [done|].
  case_bool_decide as H2; [done|]. intros _. split; [|done].
  intros E. by rewrite E in H1.
Qed.

Lemma sublist_length_lt {A} (l1 l2 : list A) (x : A) :
  l1 `sublist_of` l2 → x ∈ l2 → x ∉ l1 → (length l1 < length l2)%nat.
Proof.
  induction 1 as [|y l1 l2 Hsub IH|y l1 l2 Hsub IH]; intros Hin Hout.
  - by apply elem_of_nil in Hin.
  - simpl. apply elem_of_cons in Hin as [->|Hin]; [exfalso; apply Hout; by left|].
    apply Nat.succ_lt_mono in IH; [done..|]. intros ?. apply Hout. by right.
  - simpl. apply sublist_length in Hsub. lia.
Qed.

Lemma loadMore_merge (st : ChatState) (d : MessagesData) (tl : ChatMessage) :
  wellFormed st → last (messagesRef st) = Some tl → Js.truthy (id tl) = true →
  let r := processNewMessages st (Some d) (Some (id tl)) (Some 50) None in
  ∃ new, new `sublist_of` data_messages d ∧
         ids (messagesRef r.2) = ids (messagesRef st) ++ ids new ∧
         (length new ≤ length (data_messages d) - 1)%nat.
Proof.
  intros Hwf Hlast Hid r.
  destruct (processNewMessages_applied st d (Some (id tl)) (Some 50) None)
    as [E|(st2 & addType & st3 & upd & Hfst & Hst2 & Eloop & Em & Ei)];
    fold r in E || fold r in Hfst, Em, Ei.
  { exists []. rewrite E. simpl. rewrite app_nil_r. split_and!; [apply sublist_nil_l|done|lia]. }
  assert (addTypeOf st (data_messages d) (Some (id tl)) (Some 50) None = Append) as Hmode.
  { unfold addTypeOf. rewrite bool_decide_eq_false_2.
    - simpl. rewrite Hid. simpl. rewrite andb_false_r.
      rewrite Hlast. simpl. by rewrite bool_decide_eq_true_2.
    - intros E. apply length_zero_iff_nil in E. by rewrite E in Hlast. }
  rewrite Hmode in Hst2. destruct Hst2 as [[? _]|(_ & -> & E1 & E2)]; [done|].
  unfold visitOrder in Eloop. rewrite decide_True in Eloop by done.
  assert (wellFormed st2) as Hwf2 by (by apply (wellFormed_ext st)).
  pose proof (mergeLoop_loopInv Append (data_messages d) st2 ∅
                (loopInv_wellFormed st2 Hwf2)) as Hinv.
  pose proof (mergeLoop_shape Append (data_messages d) st2 ∅)
    as (new & Hsub & Hnew & Hshape).
  rewrite Eloop in Hinv, Hshape. simpl in Hinv, Hshape.
  exists new. split_and!; [done| |].
  - rewrite Em, refreshSlots_ids, Hshape, E1 by done. unfold ids. by rewrite fmap_app.
  - apply processNewMessages_true in Hfst as [_ Hpivot].
    unfold indexOfPageWith in Hpivot. rewrite Hid in Hpivot.
    assert (Js.findIndex (λ m, bool_decide (id m = id tl)) (data_messages d) ≠ -1) as Hfound.
    { intros E. apply Hpivot. by rewrite E. }
    destruct (findIndexFrom_found _ 0 _ Hfound) as (x & Hx & Hpx); [done|].
    apply bool_decide_eq_true_1 in Hpx. apply list_elem_of_lookup_2 in Hx.
    assert (x ∉ new) as Hout.
    { intros Hin. destruct (Hnew x Hin) as [_ Hfresh].
      destruct Hwf as (_ & Hslot & _).
      rewrite E2, Hpx, (Hslot tl) in Hfresh; [done|]. by apply last_Some_elem_of. }
    pose proof (sublist_length_lt new (data_messages d) x Hsub Hx Hout). lia.
Qed.

(** X6. Loading an older page never drops or reorders what is held: when
    the captured pivot is the id of the last slot of a well-formed store,
    the ids of the sequence after the merge are the ids before it followed
    by the ids of new messages of the page, in page order, and the store is
    still well formed. This holds whatever the page is, also when it misses
    the pivot. *)
Theorem loadMoreMessages_keeps_history (h : HookState) (d : MessagesData) (tl : ChatMessage) :
  wellFormed (refs h) →
  last (messagesRef (refs h)) = Some tl →
  Js.truthy (id tl) = true →
  let h' := loadMoreMessages_resolved (id tl) (length (messagesRef (refs h))) (Some d) h in
  wellFormed (refs h') ∧
  ∃ new, new `sublist_of` data_messages d ∧
         ids (messagesRef (refs h')) = ids (messagesRef (refs h)) ++ ids new.
Proof.
  intros Hwf Hlast Hid h'. subst h'. unfold loadMoreMessages_resolved. simpl. split.
  - apply (wellFormed_ext
             (processNewMessages (refs h) (Some d) (Some (id tl)) (Some 50) None).2);
      [done..|]. by apply processNewMessages_wellFormed.
  - destruct (loadMore_merge (refs h) d tl Hwf Hlast Hid) as (new & Hsub & Hids & _).
    by exists new.
Qed.

Lemma wellFormed_loaded32 : wellFormed loaded32.
Proof. apply processNewMessages_wellFormed. by apply wellFormed_empty. Qed.

Lemma loadMoreMessages_keeps_history_witness :
  let h' := loadMoreMessages_resolved (id m2) (length (messagesRef (refs demoHook)))
              (Some olderPage) demoHook in
  wellFormed (refs h') ∧
  ∃ new, new `sublist_of` data_messages olderPage ∧
         ids (messagesRef (refs h')) = ids (messagesRef (refs demoHook)) ++ ids new.
Proof.
  apply (loadMoreMessages_keeps_history demoHook olderPage m2).
  - apply wellFormed_loaded32.
  - vm_compute. reflexivity.
  - reflexivity.
Defined.



Lemma mergeStep_timeline (addType : AddType) (st st' : ChatState) (upd : gset string)
    (m : ChatMessage) :
  timelineOf st = timelineOf st' →
  timelineOf (mergeStep addType (st, upd) m).1 = timelineOf (mergeStep addType (st', upd) m).1 ∧
  (mergeStep addType (st, upd) m).2 = (mergeStep addType (st', upd) m).2.
Proof.
  destruct st, st'. unfold timelineOf, mergeStep. simpl. intros [= -> -> -> -> -> ->].
  destruct (Js.truthy (id m)); [|done].
  destruct (_ !! id m); [by case_decide|done].
Qed.

Lemma mergeLoop_timeline (addType : AddType) (xs : list ChatMessage) (st st' : ChatState)
    (upd : gset string) :
  timelineOf st = timelineOf st' →
  timelineOf (foldl (mergeStep addType) (st, upd) xs).1
  = timelineOf (foldl (mergeStep addType) (st', upd) xs).1 ∧
  (foldl (mergeStep addType) (st, upd) xs).2 = (foldl (mergeStep addType) (st', upd) xs).2.
Proof.
  revert st st' upd. induction xs as [|m xs IH]; intros st st' upd E; [done|].
  cbn [foldl]. destruct (mergeStep_timeline addType st st' upd m E) as [E1 E2].
  destruct (mergeStep addType (st, upd) m) as [s1 u1].
  destruct (mergeStep addType (st', upd) m) as [s2 u2]. simpl in *. subst u2.
  by apply IH.
Qed.

(** The timeline after a merge is a function of the timeline before it: the
    pending sends, the error and the render counter play no part. *)
Lemma processNewMessages_timeline (st st' : ChatState) (newMessagesData : option MessagesData)
    (pageWith : option string) (sliceBefore sliceAfter : option Z) :
  timelineOf st = timelineOf st' →
  (processNewMessages st newMessagesData pageWith sliceBefore sliceAfter).1
  = (processNewMessages st' newMessagesData pageWith sliceBefore sliceAfter).1 ∧
  timelineOf (processNewMessages st newMessagesData pageWith sliceBefore sliceAfter).2
  = timelineOf (processNewMessages st' newMessagesData pageWith sliceBefore sliceAfter).2.
Proof.
  intros E. destruct newMessagesData as [d|]; [|done].
  unfold processNewMessages.
  case_bool_decide; [done|]. case_bool_decide; [done|].
  assert (addTypeOf st (data_messages d) pageWith sliceBefore sliceAfter
          = addTypeOf st' (data_messages d) pageWith sliceBefore sliceAfter) as <-.
  { unfold addTypeOf. by injection E as -> -> _ _ _ _. }
  assert (firstPageLoadedOf st (data_messages d) pageWith sliceBefore sliceAfter
          = firstPageLoadedOf st' (data_messages d) pageWith sliceBefore sliceAfter) as <-.
  { unfold firstPageLoadedOf. by injection E as -> _ -> _ _ _. }
  set (mode := addTypeOf _ _ _ _ _). set (flag := firstPageLoadedOf _ _ _ _ _).
  assert (∀ s s' a, timelineOf s = timelineOf s' →
            let r := foldl (mergeStep a) (s, ∅) (visitOrder a (data_messages d)) in
            let r' := foldl (mergeStep a) (s', ∅) (visitOrder a (data_messages d)) in
            timelineOf
              (let st4 := refreshSlots r.1 r.2 in
               let st5 :=
                 if firstMessagesPageLoadedRef st4
                    && bool_decide (0 < length (messagesRef st4))%nat
                 then with_lastMessageId (id <$> head (messagesRef st4)) st4 else st4 in
               if Js.truthyS (Js.orNull (data_lastChangeId d))
               then with_lastChangeId (Js.orNull (data_lastChangeId d)) st5 else st5)
            = timelineOf
              (let st4 := refreshSlots r'.1 r'.2 in
               let st5 :=
                 if firstMessagesPageLoadedRef st4
                    && bool_decide (0 < length (messagesRef st4))%nat
                 then with_lastMessageId (id <$> head (messagesRef st4)) st4 else st4 in
               if Js.truthyS (Js.orNull (data_lastChangeId d))
               then with_lastChangeId (Js.orNull (data_lastChangeId d)) st5 else st5))
    as Htail.
  { intros s s' a Es r r'.
    destruct (mergeLoop_timeline a (visitOrder a (data_messages d)) s s' ∅ Es) as [E1 E2].
    fold r r' in E1, E2. destruct r as [s3 u3], r' as [s3' u3']. simpl in E1, E2. subst u3'.
    destruct s3, s3'. unfold timelineOf in E1. simpl in E1.
    injection E1 as -> -> -> -> -> ->.
    unfold refreshSlots. simpl.
    by repeat destruct (bool_decide _), (_ && _), (Js.truthyS _). }
  destruct (decide (mode = Replace)).
  - specialize (Htail
      (with_messages [] (with_messagesById ∅ (with_firstMessagesPageLoaded flag st)))
      (with_messages [] (with_messagesById ∅ (with_firstMessagesPageLoaded flag st')))
      Append).
    destruct (foldl _ _ _) as [s3 u3], (foldl _ _ _) as [s3' u3']. split; [done|].
    apply Htail. unfold timelineOf in *. simpl.
    by injection E as _ _ _ -> -> ->.
  - specialize (Htail (with_firstMessagesPageLoaded flag st)
                  (with_firstMessagesPageLoaded flag st') mode).
    destruct (foldl _ _ _) as [s3 u3], (foldl _ _ _) as [s3' u3']. split; [done|].
    apply Htail. unfold timelineOf in *. simpl.
    by injection E as -> -> _ -> -> ->.
Qed.

(** X8. A full reload resets the timeline: the sequence, the index, the
    contiguous-from-start flag, the cursor and the two message pointers
    after [loadFreshState] are determined by the configuration and the
    fetched page alone, whatever the hook held before, and the store is
    well formed even if it was not. *)
Theorem loadFreshState_resets (cfg : LoaderConfig) (newMessagesData : option MessagesData)
    (h1 h2 : HookState) :
  timelineOf (refs (loadFreshState_resolved cfg newMessagesData h1))
  = timelineOf (refs (loadFreshState_resolved cfg newMessagesData h2)) ∧
  wellFormed (refs (loadFreshState_resolved cfg newMessagesData h1)).
Proof.
  unfold loadFreshState_resolved. destruct (freshWindow cfg) as [[pw sb] sa].
  destruct newMessagesData as [d|]; cbn [refs].
  - split.
    + set (s1 := with_lastChangeId None _). set (s2 := with_lastChangeId None _).
      destruct (processNewMessages_timeline s1 s2 (Some d) pw sb sa) as [_ E]; [done|].
      unfold timelineOf in *. by simpl.
    + set (s1 := with_lastChangeId None _).
      apply (wellFormed_ext (processNewMessages s1 (Some d) pw sb sa).2); [done..|].
      apply processNewMessages_wellFormed. by apply wellFormed_empty.
  - split; [done|]. by apply wellFormed_empty.
Qed.

(** The reload on [brokenHook], whose sequence holds [m2] twice. *)
Example loadFreshState_heals :
  ids (messagesRef (refs (loadFreshState_resolved demoLoader
                            (Some (mkData [m3; m2] (Some "5"))) brokenHook)))
  = ["m3"; "m2"].
Proof. vm_compute. reflexivity. Qed.

Lemma processNewMessages_applies (st : ChatState) (d : MessagesData)
    (pageWith : option string) (sliceBefore sliceAfter : option Z) :
  data_messages d ≠ [] →
  (∀ p, pageWith = Some p → Js.truthy p = true → ∃ m, m ∈ data_messages d ∧ id m = p) →
  (processNewMessages st (Some d) pageWith sliceBefore sliceAfter).1 = true.
Proof.
  intros Hpage Hpivot. unfold processNewMessages.
  rewrite bool_decide_eq_false_2 by (by destruct (data_messages d)).
  rewrite bool_decide_eq_false_2.
  - by destruct (decide _), (foldl _ _ _).
  - unfold indexOfPageWith. destruct pageWith as [p|]; [|done].
    destruct (Js.truthy p) eqn:Hp; [|done]. intros [= E].
    destruct (Hpivot p eq_refl Hp) as (m & Hm & Hid).
    pose proof (findIndexFrom_none _ 0 _ E ltac:(done) m Hm) as Hno.
    by apply bool_decide_eq_false_1 in Hno.
Qed.

Lemma mergeLoop_cursor (addType : AddType) (xs : list ChatMessage) (st : ChatState)
    (upd : gset string) :
  lastChangeIdRef (foldl (mergeStep addType) (st, upd) xs).1 = lastChangeIdRef st.
Proof.
  revert st upd. induction xs as [|m xs IH]; intros st upd; [done|].
  cbn [foldl].
  assert (lastChangeIdRef (mergeStep addType (st, upd) m).1 = lastChangeIdRef st) as E.
  { unfold mergeStep. destruct (Js.truthy (id m)); [|done].
    destruct (_ !! id m); [by case_decide|done]. }
  destruct (mergeStep addType (st, upd) m) as [s u]. by rewrite IH.
Qed.

Lemma processNewMessages_cursor (st : ChatState) (d : MessagesData)
    (pageWith : option string) (sliceBefore sliceAfter : option Z) :
  (processNewMessages st (Some d) pageWith sliceBefore sliceAfter).1 = true →
  lastChangeIdRef (processNewMessages st (Some d) pageWith sliceBefore sliceAfter).2
  = if Js.truthyS (data_lastChangeId d) then data_lastChangeId d else lastChangeIdRef st.
Proof.
  unfold processNewMessages. case_bool_decide; [done|]. case_bool_decide; [done|].
  intros _. set (mode := addTypeOf _ _ _ _ _). set (flag := firstPageLoadedOf _ _ _ _ _).
  assert (∀ s a, lastChangeIdRef s = lastChangeIdRef st →
            lastChangeIdRef
              (let r := foldl (mergeStep a) (s, ∅) (visitOrder a (data_messages d)) in
               let st4 := refreshSlots r.1 r.2 in
               let st5 :=
                 if firstMessagesPageLoadedRef st4
                    && bool_decide (0 < length (messagesRef st4))%nat
                 then with_lastMessageId (id <$> head (messagesRef st4)) st4 else st4 in
               if Js.truthyS (Js.orNull (data_lastChangeId d))
               then with_lastChangeId (Js.orNull (data_lastChangeId d)) st5 else st5)
            = if Js.truthyS (data_lastChangeId d) then data_lastChangeId d
              else lastChangeIdRef st) as Htail.
  { intros s a Es. pose proof (mergeLoop_cursor a (visitOrder a (data_messages d)) s ∅) as E.
    destruct (foldl _ _ _) as [s3 u3]. simpl in *. unfold Js.orNull, refreshSlots.
    destruct (Js.truthyS (data_lastChangeId d)) eqn:Hlc; rewrite ?Hlc; simpl.
    - by repeat destruct (bool_decide _), (_ && _).
    - rewrite <-Es, <-E. by repeat destruct (bool_decide _), (_ && _). }
  destruct (decide (mode = Replace)).
  - specialize (Htail
      (with_messages [] (with_messagesById ∅ (with_firstMessagesPageLoaded flag st))) Append).
    destruct (foldl _ _ _) as [s3 u3]. by apply Htail.
  - specialize (Htail (with_firstMessagesPageLoaded flag st) mode).
    destruct (foldl _ _ _) as [s3 u3]. by apply Htail.
Qed.

(** X9. A reload wipes the timeline when nothing can be merged: if the
    fetch gave no data, or an empty page, or a page that does not hold the
    last read message asked for, the sequence and the index are empty and
    the cursor is null afterwards, whatever was held before, and the next
    [loadChanges] is a full reload again. *)
Theorem loadFreshState_nothing_merged (cfg : LoaderConfig)
    (newMessagesData : option MessagesData) (h : HookState) :
  from_option
    (λ d, data_messages d = [] ∨
          ∃ p, last_read_message_id cfg = Some p ∧ Js.truthy p = true ∧
               ∀ m, m ∈ data_messages d → id m ≠ p)
    True newMessagesData →
  let h' := loadFreshState_resolved cfg newMessagesData h in
  messagesRef (refs h') = [] ∧
  messagesByIdRef (refs h') = ∅ ∧
  lastChangeIdRef (refs h') = None ∧
  loadChanges_start (Some cfg) (refs h') = PlanFreshState.
Proof.
  intros Hrej h'.
  assert (messagesRef (refs h') = [] ∧ messagesByIdRef (refs h') = ∅ ∧
          lastChangeIdRef (refs h') = None) as (Hm & Hi & Hc).
  { subst h'. unfold loadFreshState_resolved.
    destruct newMessagesData as [d|]; simpl in Hrej.
    - set (s := with_lastChangeId None _).
      assert (∀ pw sb sa,
                (pw = None ∧ data_messages d = []) ∨
                (∃ p, pw = Some p ∧
                      (data_messages d = [] ∨
                       (Js.truthy p = true ∧ ∀ m, m ∈ data_messages d → id m ≠ p))) →
                processNewMessages s (Some d) pw sb sa = (false, s)) as Hno.
      { intros pw sb sa Hcase. unfold processNewMessages.
        destruct (decide (data_messages d = [])) as [E|Hne].
        { by rewrite E. }
        rewrite bool_decide_eq_false_2 by (by destruct (data_messages d)).
        destruct Hcase as [[_ ?]|(p & -> & [?|[Hp Habs]])]; [done..|].
        unfold indexOfPageWith. rewrite Hp. unfold Js.findIndex.
        rewrite findIndexFrom_absent; [by rewrite bool_decide_eq_true_2|].
        intros m Hm. apply bool_decide_eq_false_2. by apply Habs. }
      unfold freshWindow.
      destruct (Js.truthyS (last_read_message_id cfg)) eqn:Hlr.
      + rewrite Hno; [done|]. destruct (last_read_message_id cfg) as [p|]; [|done].
        right. exists p. split; [done|].
        destruct Hrej as [?|(p' & [= <-] & ? & ?)]; [by left|by right].
      + rewrite Hno; [done|]. left. split; [done|].
        destruct Hrej as [?|(p' & E & Hp & _)]; [done|].
        rewrite E in Hlr. simpl in Hlr. congruence.
    - by destruct (freshWindow cfg) as [[? ?] ?]. }
  split_and!; [done..|]. unfold loadChanges_start. by rewrite Hc.
Qed.

Lemma loadFreshState_nothing_merged_witness :
  let h' := loadFreshState_resolved lostAnchor (Some (mkData [m3; m2] (Some "5"))) demoHook in
  messagesRef (refs h') = [] ∧
  messagesByIdRef (refs h') = ∅ ∧
  lastChangeIdRef (refs h') = None ∧
  loadChanges_start (Some lostAnchor) (refs h') = PlanFreshState.
Proof.
  apply (loadFreshState_nothing_merged lostAnchor). simpl. right.
  exists "zz". split_and!; [reflexivity..|].
  intros m Hm. repeat (apply elem_of_cons in Hm as [->|Hm]); [discriminate..|].
  by apply elem_of_nil in Hm.
Defined.

(** X10. After a reload that could merge its page, the cursor is the change
    id that came with the page, and [loadChanges] then asks the changes
    endpoint for the records since that id. *)
Theorem loadFreshState_then_loadChanges (cfg : LoaderConfig) (d : MessagesData)
    (h : HookState) (c : string) :
  data_messages d ≠ [] →
  (∀ p, last_read_message_id cfg = Some p → Js.truthy p = true →
        ∃ m, m ∈ data_messages d ∧ id m = p) →
  data_lastChangeId d = Some c → Js.truthy c = true →
  Js.truthy (messages_changes_url cfg) = true →
  let h' := loadFreshState_resolved cfg (Some d) h in
  lastChangeIdRef (refs h') = Some c ∧
  loadChanges_start (Some cfg) (refs h') = PlanFetch (messages_changes_url cfg) c.
Proof.
  intros Hpage Hpivot Hlc Hc Hurl h'.
  assert (lastChangeIdRef (refs h') = Some c) as Hcur.
  { subst h'. unfold loadFreshState_resolved.
    assert (∀ s sb sa,
              lastChangeIdRef
                (processNewMessages s (Some d)
                   (if Js.truthyS (last_read_message_id cfg)
                    then last_read_message_id cfg else None) sb sa).2 = Some c) as Hcur.
    { intros s sb sa. rewrite processNewMessages_cursor.
      - by rewrite Hlc; simpl; rewrite Hc.
      - apply processNewMessages_applies; [done|].
        intros p Hp Htruthy. apply Hpivot; [|done].
        by destruct (Js.truthyS (last_read_message_id cfg)). }
    unfold freshWindow. destruct (Js.truthyS (last_read_message_id cfg)) eqn:Hlr; cbn [refs].
    - specialize (Hcur (with_lastChangeId None
        (with_firstMessagesPageLoaded false (with_messagesById ∅ (with_messages []
           (with_lastMessageId (Js.orNull (Some (last_message_id cfg)))
              (with_lastMarkAsReadId (Js.orNull (last_read_message_id cfg)) (refs h)))))))
        (Some 100) (Some 100)).
      exact Hcur.
    - specialize (Hcur (with_lastChangeId None
        (with_firstMessagesPageLoaded false (with_messagesById ∅ (with_messages []
           (with_lastMessageId (Js.orNull (Some (last_message_id cfg)))
              (with_lastMarkAsReadId (Js.orNull (last_read_message_id cfg)) (refs h)))))))
        None None).
      exact Hcur. }
  split; [done|]. unfold loadChanges_start. by rewrite Hcur, Hc, Hurl.
Qed.

Lemma loadFreshState_then_loadChanges_witness :
  let h' := loadFreshState_resolved anchorM2 (Some (mkData [m3; m2] (Some "5"))) demoHook in
  lastChangeIdRef (refs h') = Some "5" ∧
  loadChanges_start (Some anchorM2) (refs h')
  = PlanFetch (messages_changes_url anchorM2) "5".
Proof.
  apply (loadFreshState_then_loadChanges anchorM2 (mkData [m3; m2] (Some "5")) demoHook "5");
    [discriminate| |reflexivity..].
  intros p [= <-] _. exists m2. split; [|reflexivity]. right. left.
Defined.

(** ** Sending *)

Lemma trimStart_not_blank (s : string) :
  blank s = false → ∃ c r, Js.trimStart s = String c r ∧ Js.isWhiteSpace c = false.
Proof.
  induction s as [|c r IH]; simpl; [done|].
  destruct (Js.isWhiteSpace c) eqn:Hc; simpl; [exact IH|]. intros _. by exists c, r.
Qed.

Lemma trim_not_blank (s : string) : blank s = false → Js.truthy (Js.trim s) = true.
Proof.
  intros (c & r & E & Hc)%trimStart_not_blank. unfold Js.trim. rewrite E. simpl.
  rewrite Hc. by destruct (Js.trimEnd r).
Qed.

Lemma map_set_fresh {V} (k : string) (v : V) (m : list (string * V)) :
  k ∉ m.*1 → Js.map_set k v m = m ++ [(k, v)].
Proof.
  induction m as [|[k' v'] m IH]; [done|]. rewrite fmap_cons. cbn [fst Js.map_set].
  intros Hk. rewrite decide_False by (intros ->; apply Hk; left).
  rewrite IH; [done|]. intros ?. apply Hk. by right.
Qed.

Lemma map_delete_fresh {V} (k : string) (m : list (string * V)) :
  k ∉ m.*1 → Js.map_delete k m = m.
Proof.
  unfold Js.map_delete. induction m as [|[k' v'] m IH]; [done|]. rewrite fmap_cons.
  intros Hk. rewrite filter_cons_True by (simpl; intros ->; apply Hk; left).
  rewrite IH; [done|]. intros ?. apply Hk. by right.
Qed.

Lemma map_delete_set_fresh {V} (k : string) (v : V) (m : list (string * V)) :
  k ∉ m.*1 → Js.map_delete k (Js.map_set k v m) = m.
Proof.
  intros Hk. rewrite map_set_fresh by done. unfold Js.map_delete.
  rewrite filter_app, filter_cons_False, filter_nil, app_nil_r by (simpl; tauto).
  by apply map_delete_fresh.
Qed.

Lemma foldl_pushUnseen_cons (l : list ChatMessage) (seen : gset string)
    (a : ChatMessage) (acc : list ChatMessage) :
  foldl pushUnseen (seen, a :: acc) l
  = ((foldl pushUnseen (seen, acc) l).1, a :: (foldl pushUnseen (seen, acc) l).2).
Proof.
  revert seen acc. induction l as [|m l IH]; intros seen acc; [done|].
  cbn [foldl]. unfold pushUnseen at 2 4 6. case_decide; [apply IH|].
  rewrite <-app_comm_cons. apply IH.
Qed.

(** The derived list when the most recent pending send is [x]. *)
Lemma messages_last_pending (st : ChatState) (sent : list (string * ChatMessage))
    (k : string) (x : ChatMessage) :
  sentMessagesRef st = sent ++ [(k, x)] →
  messages st
  = x :: (foldl pushUnseen
            (foldl pushUnseen ({[id x]} ∪ ∅, []) (reverse (Js.map_values sent)))
            (messagesRef st)).2.
Proof.
  intros E. unfold messages, Js.map_values. rewrite E, fmap_app, reverse_app. simpl.
  rewrite decide_False by set_solver. simpl.
  rewrite foldl_pushUnseen_cons.
  destruct (foldl pushUnseen _ (reverse sent.*2)) as [seen acc] eqn:E1. simpl.
  by rewrite foldl_pushUnseen_cons.
Qed.

(** X11. A text that is not blank is queued at once: [sendMessage] issues
    one add request carrying the generated id and the trimmed text, leaves
    the timeline untouched, and when the generated id is not already pending
    the optimistic message is the first entry of the derived list. *)
Theorem sendMessage_optimistic (cfg : ChatConfig) (env : SendEnv) (text_ : string)
    (st : ChatState) :
  blank text_ = false →
  generatedId env ∉ (sentMessagesRef st).*1 →
  let r := sendMessage (Some cfg) env text_ st in
  r.2 = [PostAddMessage (messages_add_url cfg) (generatedId env) (Js.trim text_)] ∧
  timelineOf r.1 = timelineOf st ∧
  head (messages r.1) = Some (tempMessage cfg env text_) ∧
  Js.truthy (text (tempMessage cfg env text_)) = true.
Proof.
  intros Hblank Hfresh r. subst r. unfold sendMessage.
  rewrite (trim_not_blank _ Hblank). simpl. split_and!; [done..| |by apply trim_not_blank].
  rewrite (messages_last_pending _ (sentMessagesRef st) (generatedId env)
             (tempMessage cfg env text_)); [done|].
  simpl. by apply map_set_fresh.
Qed.

Lemma sendMessage_optimistic_witness :
  let r := sendMessage (Some demoConfig) demoEnv " hi " loaded32 in
  r.2 = [PostAddMessage (messages_add_url demoConfig) (generatedId demoEnv) (Js.trim " hi ")] ∧
  timelineOf r.1 = timelineOf loaded32 ∧
  head (messages r.1) = Some (tempMessage demoConfig demoEnv " hi ") ∧
  Js.truthy (text (tempMessage demoConfig demoEnv " hi ")) = true.
Proof.
  apply sendMessage_optimistic; [reflexivity|].
  vm_compute. intros H. by apply elem_of_nil in H.
Defined.

(** X12. A failed send is undone: when the generated id was not pending
    before, [sendMessage] followed by its [catch] branch leaves the pending
    sends, the timeline and the derived list as they were before the send,
    and records the error. *)
Theorem sendMessage_failed_undoes (chatConfig : option ChatConfig) (env : SendEnv)
    (text_ err : string) (st : ChatState) :
  generatedId env ∉ (sentMessagesRef st).*1 →
  let st' := sendMessage_failed (generatedId env) err (sendMessage chatConfig env text_ st).1 in
  sentMessagesRef st' = sentMessagesRef st ∧
  timelineOf st' = timelineOf st ∧
  messages st' = messages st ∧
  error st' = Some err.
Proof.
  intros Hfresh st'.
  assert (sentMessagesRef st' = sentMessagesRef st ∧ timelineOf st' = timelineOf st
          ∧ error st' = Some err) as (Hs & Ht & He).
  { subst st'. unfold sendMessage, sendMessage_failed.
    destruct chatConfig as [cfg|]; [destruct (negb _)|]; simpl;
      by rewrite ?map_delete_set_fresh, ?map_delete_fresh. }
  split_and!; [done..| |done]. unfold messages. rewrite Hs.
  unfold timelineOf in Ht. injection Ht as Hm _ _ _ _ _.
  by replace (messagesRef st') with (messagesRef st) by (symmetry; exact Hm).
Qed.

Lemma sendMessage_failed_undoes_witness :
  let st' := sendMessage_failed (generatedId demoEnv) "TypeError: Network request failed"
               (sendMessage (Some demoConfig) demoEnv "hi" loaded32).1 in
  sentMessagesRef st' = sentMessagesRef loaded32 ∧
  timelineOf st' = timelineOf loaded32 ∧
  messages st' = messages loaded32 ∧
  error st' = Some "TypeError: Network request failed".
Proof.
  apply sendMessage_failed_undoes. vm_compute. intros H. by apply elem_of_nil in H.
Defined.

Lemma map_set_last {V} (k : string) (v v0 : V) (m : list (string * V)) :
  k ∉ m.*1 → Js.map_set k v (m ++ [(k, v0)]) = m ++ [(k, v)].
Proof.
  induction m as [|[k' v'] m IH]; intros Hk.
  { simpl. by rewrite decide_True. }
  rewrite fmap_cons in Hk. rewrite <-!app_comm_cons. cbn [fst Js.map_set].
  rewrite decide_False by (intros ->; apply Hk; left).
  rewrite IH; [done|]. intros ?. apply Hk. by right.
Qed.

(** X13. When the server confirms a send under the id that the client
    generated, the confirmed message takes the place of the optimistic one:
    the derived list differs in its first entry only, and both the
    last-message id and the read marker point at the confirmed id. *)
Theorem sendMessage_added_in_place (cfg : ChatConfig) (env : SendEnv) (text_ : string)
    (added : ChatMessage) (st : ChatState) :
  blank text_ = false →
  generatedId env ∉ (sentMessagesRef st).*1 →
  id added = generatedId env →
  let st1 := (sendMessage (Some cfg) env text_ st).1 in
  let st2 := sendMessage_added added st1 in
  ∃ rest,
    messages st1 = tempMessage cfg env text_ :: rest ∧
    messages st2 = added :: rest ∧
    (sentMessagesRef st2).*1 = (sentMessagesRef st1).*1 ∧
    lastMessageIdRef st2 = Some (generatedId env) ∧
    lastMarkAsReadIdRef st2 = Some (generatedId env).
Proof.
  intros Hblank Hfresh Hid st1 st2.
  assert (sentMessagesRef st1 = sentMessagesRef st ++ [(generatedId env, tempMessage cfg env text_)]
          ∧ messagesRef st1 = messagesRef st) as [Hs1 Hm1].
  { subst st1. unfold sendMessage. rewrite (trim_not_blank _ Hblank). simpl.
    by rewrite map_set_fresh. }
  assert (sentMessagesRef st2 = sentMessagesRef st ++ [(generatedId env, added)]
          ∧ messagesRef st2 = messagesRef st
          ∧ lastMessageIdRef st2 = Some (generatedId env)
          ∧ lastMarkAsReadIdRef st2 = Some (generatedId env)) as (Hs2 & Hm2 & Hl & Hr).
  { subst st2. unfold sendMessage_added. simpl. rewrite Hs1, Hid, Hm1.
    by rewrite map_set_last. }
  eexists. split_and!; [| |by rewrite Hs1, Hs2, !fmap_app|done..].
  - rewrite (messages_last_pending st1 _ _ _ Hs1). simpl. rewrite Hm1. reflexivity.
  - rewrite (messages_last_pending st2 _ _ _ Hs2). by rewrite Hid, Hm2.
Qed.

Lemma sendMessage_added_in_place_witness :
  let st1 := (sendMessage (Some demoConfig) demoEnv "hi" loaded32).1 in
  let st2 := sendMessage_added confirmed st1 in
  ∃ rest,
    messages st1 = tempMessage demoConfig demoEnv "hi" :: rest ∧
    messages st2 = confirmed :: rest ∧
    (sentMessagesRef st2).*1 = (sentMessagesRef st1).*1 ∧
    lastMessageIdRef st2 = Some (generatedId demoEnv) ∧
    lastMarkAsReadIdRef st2 = Some (generatedId demoEnv).
Proof.
  apply sendMessage_added_in_place; [reflexivity| |reflexivity].
  vm_compute. intros H. by apply elem_of_nil in H.
Defined.

(** X14. The success branch of [sendMessage] never removes the optimistic
    entry: when the server confirms the send under an id of its own, which
    is not pending either, the derived list shows the confirmed message
    followed by the optimistic one, and both stay in the pending sends. *)
Theorem sendMessage_added_other_id (cfg : ChatConfig) (env : SendEnv) (text_ : string)
    (added : ChatMessage) (st : ChatState) :
  blank text_ = false →
  generatedId env ∉ (sentMessagesRef st).*1 →
  id added ∉ (sentMessagesRef st).*1 →
  id added ≠ generatedId env →
  let st2 := sendMessage_added added (sendMessage (Some cfg) env text_ st).1 in
  sentMessagesRef st2
  = sentMessagesRef st ++ [(generatedId env, tempMessage cfg env text_); (id added, added)] ∧
  ∃ rest, messages st2 = added :: tempMessage cfg env text_ :: rest.
Proof.
  intros Hblank Hfresh Hfresh' Hne st2.
  assert (sentMessagesRef st2
          = (sentMessagesRef st ++ [(generatedId env, tempMessage cfg env text_)])
              ++ [(id added, added)]) as Hs2.
  { subst st2. unfold sendMessage, sendMessage_added.
    rewrite (trim_not_blank _ Hblank). simpl. rewrite (map_set_fresh (generatedId env)) by done.
    apply map_set_fresh. rewrite fmap_app. simpl.
    intros [?|?%list_elem_of_singleton]%elem_of_app; [by apply Hfresh'|congruence]. }
  split; [by rewrite Hs2, <-app_assoc|].
  rewrite (messages_last_pending st2 _ _ _ Hs2).
  unfold Js.map_values. rewrite fmap_app, reverse_app. simpl.
  rewrite decide_False by set_solver. simpl. rewrite foldl_pushUnseen_cons. simpl.
  rewrite foldl_pushUnseen_cons. simpl. by eexists.
Qed.

Lemma sendMessage_added_other_id_witness :
  let st2 := sendMessage_added s1 (sendMessage (Some demoConfig) demoEnv "hi" loaded32).1 in
  sentMessagesRef st2
  = sentMessagesRef loaded32
      ++ [(generatedId demoEnv, tempMessage demoConfig demoEnv "hi"); (id s1, s1)] ∧
  ∃ rest, messages st2 = s1 :: tempMessage demoConfig demoEnv "hi" :: rest.
Proof.
  apply sendMessage_added_other_id; [reflexivity| | |].
  - vm_compute. intros H. by apply elem_of_nil in H.
  - vm_compute. intros H. by apply elem_of_nil in H.
  - apply (bool_decide_unpack _). vm_compute. exact I.
Defined.

(** ** Read marker and delivery status *)

Lemma markAsRead_cases (cfg : ChatConfig) (message : ChatMessage) (st : ChatState) :
  markAsRead (Some cfg) message st = (st, []) ∨
  (Js.truthy (mark_as_read_url cfg) = true ∧
   markAsRead (Some cfg) message st
   = (with_lastMarkAsReadId (Some (id message)) st,
      [PostMarkAsRead (mark_as_read_url cfg) (id message)])).
Proof.
  unfold markAsRead. destruct (Js.truthy (mark_as_read_url cfg)); simpl; [|by left].
  case_bool_decide; [by left|].
  match goal with |- context [if ?b then (st, []) else _] => destruct b end;
    [by left|by right].
Qed.

(** X15. Marking the same message twice posts at most once: when the
    message has a non-empty id that the index holds, a second [markAsRead]
    right after the first changes nothing and issues no request. *)
Theorem markAsRead_repeat (chatConfig : option ChatConfig) (message : ChatMessage)
    (st : ChatState) :
  Js.truthy (id message) = true →
  is_Some (messagesByIdRef st !! id message) →
  (∀ i m, messagesByIdRef st !! i = Some m → id m = i) →
  let st' := (markAsRead chatConfig message st).1 in
  markAsRead chatConfig message st' = (st', []).
Proof.
  intros Hid [x Hx] Hkey st'. subst st'. destruct chatConfig as [cfg|]; [|done].
  destruct (markAsRead_cases cfg message st) as [E|[Hurl E]]; rewrite E; [exact E|].
  cbn [fst]. unfold markAsRead. rewrite Hurl. cbn zeta. cbn [negb].
  assert (lastMarkAsReadOf (with_lastMarkAsReadId (Some (id message)) st) = Some x) as ->.
  { unfold lastMarkAsReadOf. destruct st. simpl in *. by rewrite Hid. }
  rewrite bool_decide_true; [done|]. simpl. f_equal. by apply (Hkey _ _ Hx).
Qed.

Lemma markAsRead_repeat_witness :
  let st' := (markAsRead (Some demoConfig) m2 loaded32).1 in
  markAsRead (Some demoConfig) m2 st' = (st', []).
Proof.
  apply markAsRead_repeat; [reflexivity| |].
  - exists m2. reflexivity.
  - apply wellFormed_loaded32.
Defined.

(** X16. A delivery status never goes back from read to sent: once an
    outgoing message shows as read for some read time, it shows as read for
    every later non-zero read time (and has no status for a zero one). *)
Theorem getMessageStatus_read_stays (message : ChatMessage) (readAt readAt' : Z) :
  getMessageStatus (Some readAt) message = Some StatusRead →
  readAt ≤ readAt' →
  getMessageStatus (Some readAt') message
  = if truthyZ readAt' then Some StatusRead else None.
Proof.
  unfold getMessageStatus. destruct (isOutgoing message); [|done].
  destruct (truthyZ (createdAt message)); [|done]. simpl.
  destruct (truthyZ readAt); [|done]. case_bool_decide; [done|]. intros _ Hle.
  destruct (truthyZ readAt'); [|done]. rewrite bool_decide_false; [done|lia].
Qed.

Lemma getMessageStatus_read_stays_witness :
  getMessageStatus (Some 4000) outgoing = Some StatusRead.
Proof.
  apply (getMessageStatus_read_stays outgoing 3000 4000); [reflexivity|lia].
Defined.

(** ** Buffered emits, handlers and listeners of the socket client *)

Lemma emits_buffered (es : list SocketClient.Emit) (s : SocketClient.SocketStore) :
  foldl (λ acc e, SocketTransport.emit e acc) s es
  = match SocketClient._io s with
    | None => SocketClient.mkStore (SocketClient.rooms s) None (SocketClient.pendingEmits s ++ es)
    | Some sent => SocketClient.mkStore (SocketClient.rooms s) (Some (sent ++ es))
                     (SocketClient.pendingEmits s)
    end.
Proof.
  revert s. induction es as [|e es IH]; intros [r [sent|] p]; simpl.
  - by rewrite app_nil_r.
  - by rewrite app_nil_r.
  - rewrite IH. unfold SocketTransport.emit, SocketClient.ioEmit. simpl.
    by rewrite <-app_assoc.
  - rewrite IH. unfold SocketTransport.emit. simpl. by rewrite <-app_assoc.
Qed.

(** X17. Emits made while there is no connection are neither lost nor
    reordered: after any emits and a [_reconnect], the new connection was
    asked to emit exactly the emits that were pending, in the order of the
    calls, and nothing is pending; emits made on an earlier connection do not
    reach the new one. Rooms are untouched. *)
Theorem reconnect_replays_pending (es : list SocketClient.Emit)
    (s : SocketClient.SocketStore) :
  let s' := SocketTransport._reconnect (foldl (λ acc e, SocketTransport.emit e acc) s es) in
  SocketClient._io s'
  = Some (SocketClient.pendingEmits s
          ++ match SocketClient._io s with None => es | Some _ => [] end) ∧
  SocketClient.pendingEmits s' = [] ∧
  SocketClient.rooms s' = SocketClient.rooms s.
Proof.
  intros s'. subst s'. rewrite emits_buffered. unfold SocketTransport._reconnect.
  destruct s as [r [sent|] p]; cbn [SocketClient._io SocketClient.pendingEmits
    SocketClient.rooms]; case_bool_decide as Hp; cbn [SocketClient._io
    SocketClient.pendingEmits SocketClient.rooms];
    rewrite ?emits_buffered; simpl; rewrite ?app_nil_r; rewrite ?Hp; done.
Qed.

Lemma filter_all {A} (P : A → Prop) `{!∀ x, Decision (P x)} (l : list A) :
  (∀ x, x ∈ l → P x) → filter P l = l.
Proof.
  induction l as [|x l IH]; intros Hall; [done|].
  rewrite filter_cons_True by (apply Hall; left). f_equal. apply IH.
  intros y Hy. apply Hall. by right.
Qed.

Lemma filter_none {A} (P : A → Prop) `{!∀ x, Decision (P x)} (l : list A) :
  (∀ x, x ∈ l → ¬ P x) → filter P l = [].
Proof.
  induction l as [|x l IH]; intros Hall; [done|].
  rewrite filter_cons_False by (apply Hall; left). apply IH.
  intros y Hy. apply Hall. by right.
Qed.

Lemma on_numbered (event_ : string) (cb_ : nat) (delay : Z) (w : SocketTransport.Wiring) :
  SocketTransport.numbered w → SocketTransport.numbered (SocketTransport.on event_ cb_ delay w).1.
Proof.
  intros [Hl Hd]. split; simpl.
  - intros l [H|H%list_elem_of_singleton]%elem_of_app; [apply Hl in H|subst l; simpl]; lia.
  - intros k H%Hd. lia.
Qed.

Lemma dispose_numbered (d : SocketTransport.Disposer) (w : SocketTransport.Wiring) :
  (SocketTransport.d_serial d < SocketTransport.closures w)%nat →
  SocketTransport.numbered w → SocketTransport.numbered (SocketTransport.dispose d w).
Proof.
  intros Hlt [Hl Hd]. unfold SocketTransport.dispose. case_decide as Hin; [done|].
  split; simpl.
  - intros l [_ H]%list_elem_of_filter. by apply Hl.
  - intros k [H%elem_of_singleton|H]%elem_of_union; [by subst k|by apply Hd].
Qed.

(** X18. Registering a handler and disposing of it restores the listeners;
    the connection is asked to attach the debounced handler and to detach
    the handler as it was passed in, which are the same function exactly
    when the delay is 0; and a second call of the disposer does nothing. *)
Theorem on_dispose (event_ : string) (cb_ : nat) (delay : Z) (w : SocketTransport.Wiring) :
  SocketTransport.numbered w →
  let attached := SocketTransport.debounced cb_ delay (SocketTransport.closures w) in
  let r := SocketTransport.on event_ cb_ delay w in
  let w2 := SocketTransport.dispose r.2 r.1 in
  SocketTransport.listeners w2 = SocketTransport.listeners w ∧
  SocketTransport.io w2
  = (λ calls, calls ++ [SocketTransport.IoOn event_ attached;
                        SocketTransport.IoOff event_ (SocketTransport.Plain cb_)])
      <$> SocketTransport.io w ∧
  (attached = SocketTransport.Plain cb_ ↔ delay = 0) ∧
  SocketTransport.dispose r.2 w2 = w2.
Proof.
  intros [Hl Hd] attached r w2.
  assert (SocketTransport.closures w ∉ SocketTransport.disposed w) as Hfresh.
  { intros H%Hd. lia. }
  subst w2 r attached. unfold SocketTransport.dispose, SocketTransport.on. cbn.
  rewrite decide_False by done. cbn. rewrite decide_True by set_solver.
  split_and!; [| | |done].
  - rewrite filter_app, filter_cons_False, filter_nil, app_nil_r by (simpl; tauto).
    apply filter_all. intros l H%Hl. lia.
  - destruct (SocketTransport.io w); [|done]. simpl. by rewrite <-app_assoc.
  - unfold SocketTransport.debounced. case_bool_decide; split; done.
Qed.

Lemma on_dispose_witness :
  let r := SocketTransport.on "connect" 7 250 SocketTransport.wired in
  let w2 := SocketTransport.dispose r.2 r.1 in
  SocketTransport.listeners w2 = [] ∧
  SocketTransport.io w2
  = Some [SocketTransport.IoOn "connect" (SocketTransport.Bounced 0 7);
          SocketTransport.IoOff "connect" (SocketTransport.Plain 7)] ∧
  (SocketTransport.Bounced 0 7 = SocketTransport.Plain 7 ↔ 250 = 0) ∧
  SocketTransport.dispose r.2 w2 = w2.
Proof.
  apply (on_dispose "connect" 7 250 SocketTransport.wired).
  split; simpl; [intros l H; by apply elem_of_nil in H|intros k H; by apply elem_of_empty in H].
Defined.

(** X19. A subscription is open exactly while it has listeners: after any
    calls of [listen] and of the functions it returned, in any order and any
    number of times, the listener list is non-empty if and only if the last
    lifecycle call was [open()]. *)
Theorem listen_open_while_listened (calls : list SocketTransport.ChannelCall) :
  let ch := foldl SocketTransport.channelCall SocketTransport.created calls in
  SocketTransport.ch_listeners ch ≠ []
  ↔ last (SocketTransport.lifecycle ch) = Some SocketTransport.Opened.
Proof.
  induction calls as [|c calls IH] using rev_ind; [done|].
  rewrite foldl_app. cbn [foldl]. cbn zeta in *.
  destruct (foldl SocketTransport.channelCall SocketTransport.created calls) as [ls log].
  simpl in IH. destruct c as [l|l]; simpl.
  - case_bool_decide as Hlen.
    + rewrite last_snoc. split; [done|]. intros _. by destruct ls.
    + rewrite app_nil_r, <-IH. rewrite length_app in Hlen. simpl in Hlen.
      destruct ls; simpl in *; [lia|]. split; [done|]. intros _. by destruct ls.
  - case_bool_decide as Hlen.
    + rewrite last_snoc. apply nil_length_inv in Hlen. rewrite Hlen. split; done.
    + rewrite app_nil_r, <-IH. split.
      * intros Hne ->. by rewrite filter_nil in Hne.
      * intros _ Hnil. by rewrite Hnil in Hlen.
Qed.

Lemma listen_all (ls l0 : list nat) (log : list SocketTransport.Lifecycle) :
  foldl SocketTransport.channelCall (SocketTransport.mkChannel l0 log)
    (SocketTransport.Listen <$> ls)
  = SocketTransport.mkChannel (l0 ++ ls)
      (log ++ if bool_decide (l0 = [] ∧ ls ≠ []) then [SocketTransport.Opened] else []).
Proof.
  revert l0 log. induction ls as [|l ls IH]; intros l0 log.
  { simpl. rewrite bool_decide_false by (by intros [_ ?]). by rewrite !app_nil_r. }
  rewrite fmap_cons. cbn [foldl SocketTransport.channelCall]. unfold SocketTransport.listen.
  cbn [SocketTransport.ch_listeners SocketTransport.lifecycle]. rewrite IH.
  rewrite <-!app_assoc. f_equal. f_equal.
  rewrite (bool_decide_false (_ ++ _ = [] ∧ _)) by (intros [H _]; by destruct l0).
  rewrite app_nil_r. destruct l0 as [|x l0].
  - rewrite bool_decide_true by done. by rewrite bool_decide_true.
  - rewrite bool_decide_false by (rewrite length_app; simpl; lia).
    by rewrite bool_decide_false by (by intros [? _]).
Qed.

Lemma unlisten_all (us l0 : list nat) (log : list SocketTransport.Lifecycle) :
  NoDup us → us ≠ [] →
  (∀ u, u ∈ us → u ∈ l0) → (∀ x, x ∈ l0 → x ∈ us) →
  foldl SocketTransport.channelCall (SocketTransport.mkChannel l0 log)
    (SocketTransport.Unlisten <$> us)
  = SocketTransport.mkChannel [] (log ++ [SocketTransport.Closed]).
Proof.
  revert l0 log. induction us as [|u us IH]; intros l0 log Hnd Hne Hsub Hsup; [done|].
  apply NoDup_cons in Hnd as [Hu Hnd].
  rewrite fmap_cons. cbn [foldl SocketTransport.channelCall]. unfold SocketTransport.unlisten.
  cbn [SocketTransport.ch_listeners SocketTransport.lifecycle].
  destruct us as [|u' us'].
  - assert (filter (λ l, l ≠ u) l0 = []) as ->.
    { apply filter_none. intros x Hx%Hsup.
      apply list_elem_of_singleton in Hx. by intros ?. }
    simpl. done.
  - assert (u' ∈ filter (λ l, l ≠ u) l0) as Hin.
    { apply list_elem_of_filter. split; [|apply Hsub; right; left].
      intros ->. apply Hu. left. }
    rewrite bool_decide_false by (intros Hlen%nil_length_inv; rewrite Hlen in Hin;
                                   by apply elem_of_nil in Hin).
    rewrite app_nil_r. apply IH; [done|done| |].
    + intros x Hx. apply list_elem_of_filter. split; [|apply Hsub; by right].
      intros ->. by apply Hu.
    + intros x [Hxu Hx%Hsup]%list_elem_of_filter.
      apply elem_of_cons in Hx as [->|Hx]; done.
Qed.

(** X20. With distinct listeners the reference counting is exact: when a
    non-empty list of distinct listeners is registered and then each of them
    is removed once, in any order, [open()] is called once, [close()] is
    called once, after the last removal, and no listener is left. *)
Theorem listen_distinct_opens_once (ls us : list nat) :
  NoDup ls → ls ≠ [] → us ≡ₚ ls →
  foldl SocketTransport.channelCall SocketTransport.created
    ((SocketTransport.Listen <$> ls) ++ (SocketTransport.Unlisten <$> us))
  = SocketTransport.mkChannel [] [SocketTransport.Opened; SocketTransport.Closed].
Proof.
  intros Hnd Hne Hperm. rewrite foldl_app. unfold SocketTransport.created.
  rewrite listen_all. rewrite bool_decide_true by done. simpl.
  apply (unlisten_all us ls [SocketTransport.Opened]).
  - by rewrite Hperm.
  - intros ->. by apply Permutation_nil_l in Hperm.
  - intros u. by rewrite Hperm.
  - intros u. by rewrite Hperm.
Qed.

Lemma listen_distinct_opens_once_witness :
  foldl SocketTransport.channelCall SocketTransport.created
    ((SocketTransport.Listen <$> [1; 2; 3]%nat) ++ (SocketTransport.Unlisten <$> [2; 3; 1]%nat))
  = SocketTransport.mkChannel [] [SocketTransport.Opened; SocketTransport.Closed].
Proof.
  apply listen_distinct_opens_once.
  - apply (bool_decide_unpack _). vm_compute. exact I.
  - discriminate.
  - apply (bool_decide_unpack _). vm_compute. exact I.
Defined.

(** The same listener registered twice is removed by its first disposer,
    which closes the subscription under the second registration; the second
    disposer then calls [close()] once more. *)
Example listen_same_listener_twice :
  foldl SocketTransport.channelCall SocketTransport.created
    [SocketTransport.Listen 1; SocketTransport.Listen 1; SocketTransport.Unlisten 1]%nat
  = SocketTransport.mkChannel [] [SocketTransport.Opened; SocketTransport.Closed] ∧
  foldl SocketTransport.channelCall SocketTransport.created
    [SocketTransport.Listen 1; SocketTransport.Listen 1; SocketTransport.Unlisten 1;
     SocketTransport.Unlisten 1]%nat
  = SocketTransport.mkChannel []
      [SocketTransport.Opened; SocketTransport.Closed; SocketTransport.Closed].
Proof. split; reflexivity. Qed.

(** ** Typing pulses *)

Lemma typingPulses_spaced (times : list Z) (prev : Z) :
  prev ≠ 0 → Forall (λ t, t ≠ 0) times →
  StronglySorted (λ a b, a + 2000 < b)
    (prev :: SocketTransport.typingPulses times (Some prev)).
Proof.
  revert prev. induction times as [|t times IH]; intros prev Hp Ht.
  { repeat constructor. }
  apply Forall_cons in Ht as [Ht0 Ht]. cbn [SocketTransport.typingPulses].
  unfold SocketTransport.updateTyping. simpl.
  rewrite (proj2 (Z.eqb_neq prev 0)) by done. simpl.
  case_bool_decide as Hlt; simpl; [|by apply IH].
  specialize (IH t Ht0 Ht). constructor; [done|].
  constructor; [done|]. apply StronglySorted_inv in IH as [_ Hall].
  eapply Forall_impl; [exact Hall|]. simpl. lia.
Qed.

Lemma typingPulses_cover (times : list Z) (prev : Z) :
  prev ≠ 0 → Forall (λ t, t ≠ 0) times →
  ∀ t, t ∈ times →
    ∃ p, p ∈ prev :: SocketTransport.typingPulses times (Some prev) ∧ t ≤ p + 2000.
Proof.
  revert prev. induction times as [|t0 times IH]; intros prev Hp Ht t Hin.
  { by apply elem_of_nil in Hin. }
  apply Forall_cons in Ht as [Ht0 Ht]. cbn [SocketTransport.typingPulses].
  unfold SocketTransport.updateTyping. simpl.
  rewrite (proj2 (Z.eqb_neq prev 0)) by done. simpl.
  apply elem_of_cons in Hin as [->|Hin].
  - case_bool_decide as Hlt; simpl.
    + exists t0. split; [right; left|lia].
    + exists prev. split; [left|lia].
  - case_bool_decide as Hlt; simpl.
    + destruct (IH t0 Ht0 Ht t Hin) as (p & Hp' & Hle). exists p. split; [by right|done].
    + by apply IH.
Qed.

(** X21. Typing pulses are throttled: when [updateTyping] is called at
    non-zero instants on a new subscription, the first call emits, any two
    emits are more than 2000 ms apart, and every call is at most 2000 ms
    after an emit (its own or an earlier one). *)
Theorem updateTyping_throttled (times : list Z) :
  Forall (λ t, t ≠ 0) times →
  let pulses := SocketTransport.typingPulses times None in
  StronglySorted (λ a b, a + 2000 < b) pulses ∧
  head pulses = head times ∧
  (∀ t, t ∈ times → ∃ p, p ∈ pulses ∧ t ≤ p + 2000).
Proof.
  intros Ht pulses. subst pulses. destruct times as [|t0 times].
  { split_and!; [constructor|done|]. intros t Hin. by apply elem_of_nil in Hin. }
  apply Forall_cons in Ht as [Ht0 Ht]. cbn [SocketTransport.typingPulses].
  unfold SocketTransport.updateTyping. simpl. split_and!; [by apply typingPulses_spaced|done|].
  intros t [->|Hin]%elem_of_cons; [exists t0; split; [left|lia]|].
  by apply typingPulses_cover.
Qed.

Lemma updateTyping_throttled_witness :
  let pulses := SocketTransport.typingPulses [1000; 2500; 3000; 3001; 9000] None in
  StronglySorted (λ a b, a + 2000 < b) pulses ∧
  head pulses = head [1000; 2500; 3000; 3001; 9000] ∧
  (∀ t, t ∈ [1000; 2500; 3000; 3001; 9000] → ∃ p, p ∈ pulses ∧ t ≤ p + 2000).
Proof.
  apply updateTyping_throttled. repeat constructor; discriminate.
Defined.

(** The throttle compares with a strict inequality: a call exactly 2000 ms
    after an emit is dropped, and a call at the instant 0 leaves a falsy
    time stamp, after which the next call emits at once. *)
Example updateTyping_edges :
  SocketTransport.typingPulses [1000; 3000; 3001] None = [1000; 3001] ∧
  SocketTransport.typingPulses [0; 5] None = [0; 5].
Proof. split; reflexivity. Qed.

(** ** The input box *)

Lemma trimStart_head (s : string) :
  Js.trimStart s = "" ∨ ∃ c r, Js.trimStart s = String c r ∧ Js.isWhiteSpace c = false.
Proof.
  induction s as [|c r IH]; simpl; [by left|].
  destruct (Js.isWhiteSpace c) eqn:Hc; [exact IH|]. right. by exists c, r.
Qed.

Lemma trimEnd_idemp (s : string) : Js.trimEnd (Js.trimEnd s) = Js.trimEnd s.
Proof.
  induction s as [|c r IH]; [done|]. cbn [Js.trimEnd].
  destruct (Js.trimEnd r) as [|c' r'] eqn:E.
  - destruct (Js.isWhiteSpace c) eqn:Hc; [done|]. simpl. by rewrite Hc.
  - change (Js.trimEnd (String c (String c' r'))) with
      (match Js.trimEnd (String c' r') with
       | "" => if Js.isWhiteSpace c then "" else String c ""
       | String a b => String c (String a b)
       end).
    by rewrite IH.
Qed.

Lemma trimEnd_head (c : ascii) (r : string) :
  Js.isWhiteSpace c = false → ∃ r', Js.trimEnd (String c r) = String c r'.
Proof.
  intros Hc. cbn [Js.trimEnd]. rewrite Hc. destruct (Js.trimEnd r); by eexists.
Qed.

Lemma trim_idemp (s : string) : Js.trim (Js.trim s) = Js.trim s.
Proof.
  unfold Js.trim at 2 3. destruct (trimStart_head s) as [->|(c & r & -> & Hc)]; [done|].
  destruct (trimEnd_head c r Hc) as [r' E]. unfold Js.trim. rewrite E.
  cbn [Js.trimStart]. rewrite Hc, <-E. apply trimEnd_idemp.
Qed.

Lemma map_set_holds {V} (k : string) (v : V) (m : list (string * V)) :
  (k, v) ∈ Js.map_set k v m.
Proof.
  induction m as [|[k' v'] m IH]; cbn [Js.map_set]; [left|].
  case_decide; [left|by right].
Qed.

(** X22. What the input box hands over is posted as it is: when
    [handleSend] passes its guard, the text it gives to [onSend] is not
    blank, [sendMessage] does not return early on it, and the request and the
    optimistic message carry exactly that text. *)
Theorem handleSend_posts (text_ t : string) (sending disabled : bool)
    (cfg : ChatConfig) (env : SendEnv) (st : ChatState) :
  handleSend text_ sending disabled = Some t →
  blank t = false ∧
  (sendMessage (Some cfg) env t st).2
  = [PostAddMessage (messages_add_url cfg) (generatedId env) t] ∧
  text (tempMessage cfg env t) = t ∧
  (generatedId env, tempMessage cfg env t) ∈ sentMessagesRef (sendMessage (Some cfg) env t st).1.
Proof.
  unfold handleSend. destruct (Js.truthy (Js.trim text_)) eqn:Htr; [|done].
  destruct sending, disabled; simpl; try done. intros [= <-].
  assert (Js.truthy (Js.trim (Js.trim text_)) = true) as Htr' by by rewrite trim_idemp.
  split_and!.
  - destruct (blank (Js.trim text_)) eqn:Hb; [|done].
    apply trim_blank in Hb. by rewrite Hb in Htr'.
  - unfold sendMessage. rewrite Htr'. simpl. by rewrite trim_idemp.
  - simpl. apply trim_idemp.
  - unfold sendMessage. rewrite Htr'. simpl. apply map_set_holds.
Qed.

Lemma handleSend_posts_witness :
  blank "hi there" = false ∧
  (sendMessage (Some demoConfig) demoEnv "hi there" loaded32).2
  = [PostAddMessage (messages_add_url demoConfig) (generatedId demoEnv) "hi there"] ∧
  text (tempMessage demoConfig demoEnv "hi there") = "hi there" ∧
  (generatedId demoEnv, tempMessage demoConfig demoEnv "hi there")
    ∈ sentMessagesRef (sendMessage (Some demoConfig) demoEnv "hi there" loaded32).1.
Proof.
  apply (handleSend_posts "  hi there " "hi there" false false). reflexivity.
Defined.

(** ** The notification manager *)

Lemma last_app_cons {A} (l1 l2 : list A) (x : A) :
  last (l1 ++ x :: l2) = last (x :: l2).
Proof.
  induction l1 as [|y l1 IH]; [done|]. rewrite <-app_comm_cons.
  destruct l1; simpl in *; exact IH.
Qed.

Lemma last_constant {A} (l : list A) (c : A) :
  l ≠ [] → (∀ x, x ∈ l → x = c) → last l = Some c.
Proof.
  induction l as [|x l IH]; intros Hne Hall; [done|].
  destruct l as [|y l].
  - simpl. f_equal. apply Hall. left.
  - change (last (x :: y :: l)) with (last (y :: l)). apply IH; [done|].
    intros z Hz. apply Hall. by right.
Qed.

(** The last delivery to [l] in a log that ends with a round of
    [notifyListeners] over listeners among which [l] is. *)
Lemma last_delivery_round (l : nat) (v : option Notifications.NotificationMessage)
    (ls : list nat) (log : list Notifications.Delivery) :
  l ∈ ls →
  last (filter (λ d, d.1 = l) (log ++ ((λ listener, (listener, v)) <$> ls))) = Some (l, v).
Proof.
  intros Hin. rewrite filter_app.
  assert (filter (λ d : Notifications.Delivery, d.1 = l) ((λ listener, (listener, v)) <$> ls) ≠ []
          ∧ ∀ x, x ∈ filter (λ d : Notifications.Delivery, d.1 = l)
                         ((λ listener, (listener, v)) <$> ls) → x = (l, v)) as [Hne Hall].
  { split.
    - intros Hnil. eapply (filter_nil_not_elem_of _ _ (l, v)) in Hnil; [|done].
      apply Hnil. apply list_elem_of_fmap. by exists l.
    - intros x [Hx (y & -> & _)%list_elem_of_fmap]%list_elem_of_filter. simpl in Hx.
      by rewrite Hx. }
  destruct (filter _ (_ <$> ls)) as [|x xs] eqn:E; [done|].
  rewrite last_app_cons. by apply last_constant.
Qed.

(** X23. A subscribed listener always holds the current notification: after
    any calls of [show], [hide], [subscribe] and of the functions that
    [subscribe] returned, the last value delivered to each subscribed
    listener is the manager's current notification. *)
Theorem subscribers_hold_current (calls : list Notifications.ManagerCall) (l : nat) :
  l ∈ Notifications.listeners (Notifications.run calls).1 →
  last (filter (λ d, d.1 = l) (Notifications.run calls).2)
  = Some (l, Notifications.currentNotification (Notifications.run calls).1).
Proof.
  unfold Notifications.run. induction calls as [|c calls IH] using rev_ind.
  { simpl. intros H. by apply elem_of_nil in H. }
  rewrite foldl_app. cbn [foldl].
  destruct (foldl Notifications.managerCall _ calls) as [[ls cur k] log].
  cbn [Notifications.listeners Notifications.currentNotification fst snd] in IH.
  destruct c as [n| |l0|l0]; cbn.
  - apply last_delivery_round.
  - apply last_delivery_round.
  - intros Hin. rewrite filter_app. destruct (decide (l0 = l)) as [->|Hne].
    + rewrite filter_cons_True, filter_nil by done. by rewrite last_snoc.
    + rewrite filter_cons_False, filter_nil, app_nil_r by done. apply IH.
      case_decide; [done|]. apply elem_of_app in Hin as [?|Hin]; [done|].
      by apply list_elem_of_singleton in Hin.
  - rewrite app_nil_r. intros [_ Hin]%list_elem_of_filter. by apply IH.
Qed.

Lemma subscribers_hold_current_witness :
  last (filter (λ d, d.1 = 1%nat)
          (Notifications.run [Notifications.Subscribe 1; Notifications.Show Notifications.banner;
                              Notifications.Subscribe 2; Notifications.Hide]).2)
  = Some (1%nat,
          Notifications.currentNotification
            (Notifications.run [Notifications.Subscribe 1;
                                Notifications.Show Notifications.banner;
                                Notifications.Subscribe 2; Notifications.Hide]).1).
Proof.
  apply (subscribers_hold_current
           [Notifications.Subscribe 1; Notifications.Show Notifications.banner;
            Notifications.Subscribe 2; Notifications.Hide] 1%nat).
  apply (bool_decide_unpack _). vm_compute. exact I.
Defined.

Lemma run_notificationId (calls : list Notifications.ManagerCall) :
  Notifications.notificationId (Notifications.run calls).1 = Notifications.shows calls.
Proof.
  unfold Notifications.run.
  assert (∀ m log, Notifications.notificationId (foldl Notifications.managerCall (m, log) calls).1
                   = (Notifications.notificationId m + Notifications.shows calls)%nat) as H.
  { induction calls as [|c calls IH]; intros m log; [simpl; lia|].
    cbn [foldl]. destruct c; cbn; rewrite IH; simpl; lia. }
  by rewrite H.
Qed.

(** X24. Shown notifications are numbered in the order of the [show] calls,
    from 0: whatever calls were made before, a [show] stores the notification
    with ['@id'] set to the number of earlier [show] calls, so that no two
    notifications of one manager share an ['@id']. *)
Theorem show_numbers_notifications (calls : list Notifications.ManagerCall)
    (n : Notifications.NotificationMessage) :
  Notifications.currentNotification (Notifications.run (calls ++ [Notifications.Show n])).1
  = Some (Notifications.with_atId (Notifications.shows calls) n).
Proof.
  pose proof (run_notificationId calls) as Hid. unfold Notifications.run in *.
  rewrite foldl_app. cbn [foldl].
  destruct (foldl Notifications.managerCall _ calls) as [[ls cur k] log].
  simpl in *. by rewrite Hid.
Qed.

(** ** A pending send meets its change record *)

Lemma map_delete_values_fresh (k : string) (sent : list (string * ChatMessage)) :
  (∀ k' v, (k', v) ∈ sent → id v = k') →
  k ∉ ids (Js.map_values (Js.map_delete k sent)).
Proof.
  intros Hkey (v & Hid & Hv)%list_elem_of_fmap.
  apply list_elem_of_fmap in Hv as ([k' v'] & -> & Hin). simpl in *.
  apply list_elem_of_filter in Hin as [Hne Hin]. simpl in Hne.
  apply Hkey in Hin. congruence.
Qed.

(** X25. A create record retires the pending send of its message: once the
    first page is loaded and the pending sends are keyed by their ids, the
    record removes the pending entry of that id, and the derived list shows
    the remaining pending sends, newest first, then the created message, then
    entries of the old timeline, none of which has the id of the message. *)
Theorem applyChanges_create_retires (st : ChatState) (c : ChatChange) (m : ChatMessage) :
  operation c = Create → change_message c = Some m →
  sentKeyed st → firstMessagesPageLoadedRef st = true →
  let st' := applyChanges st [c] in
  sentMessagesRef st' = Js.map_delete (id m) (sentMessagesRef st) ∧
  messagesRef st' = m :: messagesRef st ∧
  ∃ rest,
    messages st'
    = reverse (Js.map_values (Js.map_delete (id m) (sentMessagesRef st))) ++ m :: rest ∧
    rest `sublist_of` messagesRef st ∧
    id m ∉ ids rest.
Proof.
  intros Hop Hmsg Hsent Hloaded st'.
  assert (sentMessagesRef st' = Js.map_delete (id m) (sentMessagesRef st)
          ∧ messagesRef st' = m :: messagesRef st) as [Hs Hm].
  { subst st'. unfold applyChanges. rewrite bool_decide_eq_true_2 by (simpl; lia).
    cbn [foldl]. unfold applyChange. rewrite Hop, Hmsg. destruct st. simpl in *.
    rewrite Hloaded. by destruct (Js.truthy (change_id c)). }
  split_and!; [done..|].
  assert (sentKeyed st') as Hsent'.
  { eapply sentKeyed_sublist; [|exact Hsent]. rewrite Hs. apply map_delete_sublist. }
  pose proof (sentKeyed_distinct _ Hsent') as Hnd. rewrite Hs in Hnd.
  unfold messages. rewrite Hs, Hm.
  rewrite (foldl_pushUnseen_all (reverse _) ∅ []).
  - cbn [foldl]. unfold pushUnseen at 2. rewrite decide_False.
    + destruct (foldl_pushUnseen (messagesRef st)
                  ({[id m]} ∪ (list_to_set (ids (reverse (Js.map_values
                     (Js.map_delete (id m) (sentMessagesRef st))))) ∪ ∅))
                  (([] ++ reverse (Js.map_values (Js.map_delete (id m) (sentMessagesRef st))))
                     ++ [m]))
        as (new & E & Hsub & _ & Hfresh & _).
      rewrite E. exists new. simpl. split_and!; [by rewrite <-app_assoc|done|].
      intros (x & Hid & Hx)%list_elem_of_fmap. apply (Hfresh x Hx). set_solver.
    + rewrite elem_of_union, elem_of_list_to_set. intros [Hin|Hin]; [|set_solver].
      unfold ids in Hin. rewrite fmap_reverse, elem_of_reverse in Hin.
      eapply map_delete_values_fresh; [|exact Hin]. apply Hsent.
  - unfold ids. rewrite fmap_reverse. by rewrite reverse_Permutation.
  - intros ? ?. set_solver.
Qed.

Lemma applyChanges_create_retires_witness :
  let st := sendMessage_added confirmed
              (sendMessage (Some demoConfig) demoEnv "hi" loaded32).1 in
  let st' := applyChanges st [mkChange "11" Create (Some confirmed) None] in
  sentMessagesRef st' = Js.map_delete (id confirmed) (sentMessagesRef st) ∧
  messagesRef st' = confirmed :: messagesRef st ∧
  ∃ rest,
    messages st'
    = reverse (Js.map_values (Js.map_delete (id confirmed) (sentMessagesRef st)))
        ++ confirmed :: rest ∧
    rest `sublist_of` messagesRef st ∧
    id confirmed ∉ ids rest.
Proof.
  apply (applyChanges_create_retires
           (sendMessage_added confirmed
              (sendMessage (Some demoConfig) demoEnv "hi" loaded32).1)
           (mkChange "11" Create (Some confirmed) None) confirmed);
    [reflexivity|reflexivity| |reflexivity].
  apply sendMessage_added_sentKeyed, sendMessage_sentKeyed.
  split; [constructor|]. intros k v H. by apply elem_of_nil in H.
Defined.

(** ** The global socket store *)

(** X26. The store that [getSocketStore] hands out is always connected:
    after the first [getSocketStore] and any later calls of
    [getSocketStore], [join], [leave], [emit] and [_reconnect], the global
    store has a connection object and no pending emit, so that [join] on it
    does not throw and [emit] does not buffer. *)
Theorem getSocketStore_connected (calls : list SocketGlobals.StoreCall) :
  let g := foldl SocketGlobals.storeCall
             (SocketGlobals.getSocketStore SocketGlobals.loaded).1 calls in
  ∃ s, SocketGlobals.globalSocketStore g = Some s ∧
       SocketGlobals.globalSocketInitialized g = true ∧
       is_Some (SocketClient._io s) ∧
       SocketClient.pendingEmits s = [] ∧
       (∀ r, (SocketClient.join r s).2 = SocketClient.Normal) ∧
       (∀ e, SocketClient.pendingEmits (SocketTransport.emit e s) = []).
Proof.
  intros g.
  assert (∃ s, SocketGlobals.globalSocketStore g = Some s ∧
               SocketGlobals.globalSocketInitialized g = true ∧
               is_Some (SocketClient._io s) ∧ SocketClient.pendingEmits s = [])
    as (s & Hs & Hi & [sent Hio] & Hp).
  { subst g. induction calls as [|c calls IH] using rev_ind.
    { eexists. simpl. split_and!; [done..|by eexists|done]. }
    rewrite foldl_app. cbn [foldl].
    destruct IH as ([r [sent|] p] & Hs & Hi & [? Hio] & Hp); [|done].
    simpl in Hp. subst p.
    destruct (foldl SocketGlobals.storeCall _ calls) as [store init].
    simpl in Hs, Hi. subst store init.
    destruct c as [|room|room|e|];
      cbn; unfold SocketClient.join, SocketClient.leave; cbn;
      repeat match goal with |- context [if ?b then _ else _] => destruct b; cbn end;
      eexists; (split_and!; [done..|by eexists|done]). }
  exists s. split_and!; [done..|by eexists|done| |].
  - intros r. unfold SocketClient.join. destruct (SocketClient.roomHeld s r); [done|].
    simpl. by rewrite Hio.
  - intros e. unfold SocketTransport.emit. by rewrite Hio.
Qed.

(** ** Who is typing *)










(** At the instant 12000 the pulse of Ann has expired. The entry of Bob has
    the [typedAt] of his second pulse and keeps the [name] and the
    [lastMessageAt] of his first one, which the second pulse left out. *)
Example typing_scenario :
  (Typing.typingsAt "me" Typing.typingDemo 10000).*1 = ["u1"; "u2"] ∧
  Typing.typingsAt "me" Typing.typingDemo 12000
  = [("u2", Typing.mkEntry {[ "name" := Typing.JString "Bob";
                              "typedAt" := Typing.JNumber 9000;
                              "lastMessageAt" := Typing.JNumber 3000 ]} 19000)].
Proof.
  split; vm_compute; reflexivity.
Qed.
